(** * A shallow embedding of the raft consensus engine

    The development follows the Go sources: [util.go] (integer helpers and
    the retry back-off), the storage facade, the replication worker of
    [member.go], the leader of [leader.go] and its later form [ldrShip],
    the apply loop and the state-machine loop of [fsm.go], the
    configuration model with bootstrap, and the connection pools and
    randomised timeouts of a node.

    Go's [uint64] is embedded as [Z] with the wrap-around modulo [2^64]
    written out at every arithmetic operation; [time.Duration] is a signed
    64-bit count of nanoseconds.  Go maps are [gmap]s; where the source
    ranges over a map, the embedding takes the iteration order as a list
    that is a permutation of the map's bindings. A select on a shutdown
    channel takes its arm from a list of choices carried in the state, a
    panic is [None] or [Panic], and loops without a structural bound take
    fuel. Debug output and trace hooks are left out. *)

From Stdlib Require Import ZArith Lia QArith.
From stdpp Require Import strings gmap list sorting.

Set Warnings "-clear-no-such-hyp".

(** ** Machine integers *)

Module U64.
Local Open Scope Z_scope.

Definition modulus : Z := 2 ^ 64.
Definition maxUint64 : Z := modulus - 1.

(** wrap-around of an unbounded result to [uint64] *)
Definition wrap (x : Z) : Z := x mod modulus.

Definition add (a b : Z) : Z := wrap (a + b).
Definition sub (a b : Z) : Z := wrap (a - b).

Definition inRange (x : Z) : Prop := 0 <= x < modulus.
End U64.

(** ** util.go *)

Module Util.
Local Open Scope Z_scope.

(** [func min(a, b uint64) uint64] *)
Definition min (a b : Z) : Z := if a <=? b then a else b.

(** [func max(a, b uint64) uint64] *)
Definition max (a b : Z) : Z := if a >=? b then a else b.

(** [time.Duration] is an [int64]: results wrap into [-2^63, 2^63). *)
Definition wrapInt64 (x : Z) : Z := (x + 2 ^ 63) mod 2 ^ 64 - 2 ^ 63.

Definition millisecond : Z := 1000000.

Definition maxAppendEntries : Z := 64.
Definition maxFailureScale : Z := 12.
Definition failureWait : Z := 10 * millisecond.

(** The loop [for power > 2 { base *= 2; power-- }]; [fuel] bounds the
    number of iterations. *)
Fixpoint backOffLoop (fuel : nat) (base power : Z) : option Z :=
  if power >? 2 then
    match fuel with
    | O => None
    | S fuel' => backOffLoop fuel' (wrapInt64 (base * 2)) (U64.sub power 1)
    end
  else Some base.

(** [func backOff(round uint64) time.Duration] *)
Definition backOff (round : Z) : option Z :=
  let base := failureWait in
  let limit := maxFailureScale in
  let power := min round limit in
  backOffLoop (Z.to_nat power) base power.

(** The back-off as the specification words it, over the rationals so
    that a negative exponent keeps its meaning:
    10 ms × 2^(min(round-2, 10)). *)
Definition specBackOff (round : Z) : Q :=
  (inject_Z failureWait * Qpower 2 (Z.min (round - 2) 10))%Q.

(** [decrUint64Slice] with [Less(i, j) = s[i] > s[j]], and [sort.Sort] on
    it: the slice in decreasing order. *)
Definition decr (x y : Z) : Prop := y <= x.

Global Instance decr_dec : RelDecision decr.
Proof. intros x y. unfold decr. apply _. Defined.

Definition sortDecr (s : list Z) : list Z := merge_sort decr s.
End Util.

(** ** Log entries *)

Inductive entryType : Set :=
| entryNop
| entryUpdate
| entryQuery
| entryBarrier
| entryConfig.

(** The later sources spell the query type [entryRead] and the older ones
    spell the no-op [entryNoop]. *)
Definition entryRead : entryType := entryQuery.
Definition entryNoop : entryType := entryNop.

Global Instance entryType_eq_dec : EqDecision entryType.
Proof. solve_decision. Defined.

Record entry : Type := mkEntry {
  index : Z;
  term : Z;
  typ : entryType;
  data : list Byte.byte
}.

(** The term of an entry, for the modules whose state has a [term] of its
    own. *)
Definition entryTerm (e : entry) : Z := term e.

(** [&entry{}] *)
Definition zeroEntry : entry := mkEntry 0 0 entryNop [].

(** ** The storage facade

    [log] stands for the user-supplied [Log]: the sequence of stored
    entries, oldest first ([Get(offset)] is the list lookup). The facade
    stores encoded entries and decodes what it reads; the embedding keeps
    the entries themselves. *)

Module Storage.
Local Open Scope Z_scope.

Record storage : Type := mkStorage {
  first : Z;
  last : Z;
  log : list entry
}.

Definition empty : storage := mkStorage 0 0 [].

(** [func (s *storage) count() uint64] *)
Definition count (s : storage) : Z :=
  if first s =? 0 then 0 else U64.add (U64.sub (last s) (first s)) 1.

(** [func (s *storage) init() error]: run on the zero-valued facade over
    an existing log. *)
Definition init (s : storage) : storage :=
  match head (log s), list.last (log s) with
  | Some firstEntry, Some lastEntry =>
      mkStorage (index firstEntry) (index lastEntry) (log s)
  | _, _ => s
  end.

(** [func (s *storage) getEntry(index uint64, entry *entry)]; [None] is the
    panic on a failed [Get]. *)
Definition getEntry (s : storage) (i : Z) : option entry :=
  let offset := U64.sub i (first s) in
  log s !! Z.to_nat offset.

(** [func (s *storage) append(entry *entry)] *)
Definition append (s : storage) (e : entry) : storage :=
  mkStorage (if first s =? 0 then index e else first s)
            (index e)
            (log s ++ [e]).

(** [Log.DeleteFirst(n)] and [Log.DeleteLast(n)] of the in-memory log: an
    error when fewer than [n] entries are stored. *)
Definition logDeleteFirst (n : Z) (l : list entry) : option (list entry) :=
  if n <=? Z.of_nat (length l) then Some (drop (Z.to_nat n) l) else None.

Definition logDeleteLast (n : Z) (l : list entry) : option (list entry) :=
  if n <=? Z.of_nat (length l) then Some (take (length l - Z.to_nat n) l) else None.

(** [func (s *storage) deleteLTE(index uint64)]; [None] is a panic. *)
Definition deleteLTE (s : storage) (i : Z) : option storage :=
  if count s =? 0 then None
  else
    let n := U64.add (U64.sub i (first s)) 1 in
    if n >? count s then None
    else
      match logDeleteFirst n (log s) with
      | None => None
      | Some l' =>
          if i =? last s then Some (mkStorage 0 0 l')
          else Some (mkStorage (U64.add i 1) (last s) l')
      end.

(** [func (s *storage) deleteGTE(index uint64)]; [None] is a panic. *)
Definition deleteGTE (s : storage) (i : Z) : option storage :=
  if count s =? 0 then None
  else
    let n := U64.add (U64.sub (last s) i) 1 in
    if n >? count s then None
    else
      match logDeleteLast n (log s) with
      | None => None
      | Some l' =>
          if i =? first s then Some (mkStorage 0 0 l')
          else Some (mkStorage (first s) (U64.sub i 1) l')
      end.

(** The invariant of the facade: [first] and [last] are zero together,
    and otherwise delimit a non-empty range of [uint64] indices. *)
Definition inv (s : storage) : Prop :=
  (first s = 0 <-> last s = 0) /\
  first s <= last s /\
  U64.inRange (first s) /\ U64.inRange (last s).

(** The stored entries are the contiguous indices [first..last]. *)
Definition contiguous (s : storage) : Prop :=
  forall k e, log s !! k = Some e -> index e = first s + Z.of_nat k.

(** A well-formed facade: the invariant, as many stored entries as
    [count] tells, at contiguous indices. *)
Definition wf (s : storage) : Prop :=
  inv s /\ Z.of_nat (length (log s)) = count s /\ contiguous s.

(** A log as [init] may find it: entries at contiguous [uint64] indices
    from a non-zero one on. *)
Definition logWellFormed (l : list entry) : Prop :=
  forall k e, l !! k = Some e ->
    exists e0, head l = Some e0 /\ 0 < index e0 /\
               index e = index e0 + Z.of_nat k /\ U64.inRange (index e).
End Storage.

(** ** The replication worker, member.go *)

Module Member.
Local Open Scope Z_scope.
Import Storage.

Record appendEntriesRequest : Type := mkReq {
  reqTerm : Z;
  leaderID : string;
  leaderCommitIndex : Z;
  prevLogIndex : Z;
  prevLogTerm : Z;
  entries : list entry
}.

Record appendEntriesResponse : Type := mkResp {
  respTerm : Z;
  success : bool;
  lastLogIndex : Z
}.

(** [func (s *storage) fillEntries(req, minIndex, maxIndex uint64)];
    [None] when a [getEntry] panics. *)
Definition fillEntries (s : storage) (req : appendEntriesRequest)
    (minIndex maxIndex : Z) : option appendEntriesRequest :=
  prev ← (if minIndex =? 1 then Some (0, 0)
          else e ← getEntry s (U64.sub minIndex 1); Some (index e, term e));
  let n := U64.add (U64.sub maxIndex minIndex) 1 in
  es ← mapM (fun i => getEntry s (U64.add minIndex i)) (seqZ 0 n);
  Some (mkReq (reqTerm req) (leaderID req) (leaderCommitIndex req)
              (fst prev) (snd prev) es).

(** The worker's view of its follower. [matchIndexShared] is the atomic
    [m.matchIndex]; [updates] are the values posted on [matchUpdatedCh]. *)
Record member : Type := mkMember {
  mstorage : storage;
  nextIndex : Z;
  matchIndexShared : Z;
  updates : list Z
}.

(** [func (m *member) setMatchIndex(stopCh, v, updatedCh)]: the store is
    unconditional; [stopped] tells which branch the select takes. *)
Definition setMatchIndex (stopped : bool) (v : Z) (m : member) : member :=
  mkMember (mstorage m) (nextIndex m) v
           (if stopped then updates m else updates m ++ [v]).

(** What the environment decides during one pass of the catch-up loop:
    the outcome of [retryAppendEntries] and whether [stopCh] is seen
    closed at each select. *)
Record rpcOutcome : Type := mkOutcome {
  resp : appendEntriesResponse;
  stop : bool;
  stopAtNotify : bool;
  stopAfter : bool
}.

Inductive passResult : Type :=
| Return (m : member)
| Break (m : member) (matchIndex : Z) (req : appendEntriesRequest)
| Continue (m : member) (matchIndex : Z) (req : appendEntriesRequest).

(** The body of [for matchIndex+1 != m.nextIndex { ... }] in [replicate],
    entered with the loop condition true. The request that is sent is
    returned next to the result. *)
Definition catchUpPass (m : member) (matchIndex : Z)
    (req : appendEntriesRequest) (o : rpcOutcome)
    : option (appendEntriesRequest * passResult) :=
  req' ← fillEntries (mstorage m) req (nextIndex m) (U64.sub (nextIndex m) 1);
  if stop o then Some (req', Return m)
  else if success (resp o) then
    let matchIndex' := prevLogIndex req' in
    Some (req', Break (setMatchIndex (stopAtNotify o) matchIndex' m) matchIndex' req')
  else
    let m' := mkMember (mstorage m)
                (Util.max (Util.min (U64.sub (nextIndex m) 1)
                                    (U64.add (lastLogIndex (resp o)) 1)) 1)
                (matchIndexShared m) (updates m) in
    if stopAfter o then Some (req', Return m')
    else Some (req', Continue m' matchIndex req').

(** The whole catch-up loop, one environment outcome per pass; [None]
    when a panic occurs or the outcomes run out before the loop ends. *)
Fixpoint catchUp (os : list rpcOutcome) (m : member) (matchIndex : Z)
    (req : appendEntriesRequest) : option passResult :=
  if U64.add matchIndex 1 =? nextIndex m then Some (Break m matchIndex req)
  else
    match os with
    | [] => None
    | o :: os' =>
        r ← catchUpPass m matchIndex req o;
        match snd r with
        | Continue m' mi' req' => catchUp os' m' mi' req'
        | done => Some done
        end
    end.
End Member.

(** ** Roles, tasks and queued entries *)

Inductive State : Set := Follower | Candidate | Leader.

Global Instance State_eq_dec : EqDecision State.
Proof. solve_decision. Defined.

(** [NewEntry] embeds a pointer to an entry, nil in the zero value. The
    [task] is represented by the number under which its reply is recorded. *)
Record NewEntry : Type := mkNewEntry {
  nentry : option entry;
  task : nat
}.

Definition zeroNewEntry : NewEntry := mkNewEntry None 0.

Definition neIndex (ne : NewEntry) : Z := from_option index 0%Z (nentry ne).
Definition neTyp (ne : NewEntry) : entryType := from_option typ entryNop (nentry ne).

(** Go's [time.Time] as nanoseconds since the zero time, and
    [func (t Time) Sub(u Time) Duration], which saturates at the bounds of
    [int64]. *)
Module Time.
Local Open Scope Z_scope.

Definition isZero (t : Z) : bool := t =? 0.

Definition maxDuration : Z := 2 ^ 63 - 1.
Definition minDuration : Z := - 2 ^ 63.

Definition sub (t u : Z) : Z :=
  let d := t - u in
  if d >? maxDuration then maxDuration
  else if d <? minDuration then minDuration
  else d.
End Time.

(** ** The leader, leader.go *)

Module Leader.
Local Open Scope Z_scope.

Record leaderUpdate : Type := mkLeaderUpdate {
  lastIndex : Z;
  updCommitIndex : Z
}.

(** What [leader.go] reads of a member and of its replication. *)
Record member : Type := mkMember {
  addr : string;
  matchIndex : Z
}.

Record replication : Type := mkReplication {
  noContact : Z;
  leaderUpdateCh : option leaderUpdate
}.

Record leaderState : Type := mkLeaderState {
  selfAddr : string;
  leaderID : string;
  state : State;
  currentTerm : Z;
  lastLogIndex : Z;
  lastLogTerm : Z;
  commitIndex : Z;
  lastApplied : Z;
  members : list member;
  leaseTimeout : Z;
  startIndex : Z;
  newEntries : list NewEntry;
  repls : gmap string replication;
  storage : Storage.storage
}.

Definition withCommitIndex (v : Z) (l : leaderState) : leaderState :=
  mkLeaderState (selfAddr l) (leaderID l) (state l) (currentTerm l)
    (lastLogIndex l) (lastLogTerm l) v (lastApplied l) (members l)
    (leaseTimeout l) (startIndex l) (newEntries l) (repls l) (storage l).

Definition withStartIndex (v : Z) (l : leaderState) : leaderState :=
  mkLeaderState (selfAddr l) (leaderID l) (state l) (currentTerm l)
    (lastLogIndex l) (lastLogTerm l) (commitIndex l) (lastApplied l) (members l)
    (leaseTimeout l) v (newEntries l) (repls l) (storage l).

Definition withRepls (v : gmap string replication) (l : leaderState) : leaderState :=
  mkLeaderState (selfAddr l) (leaderID l) (state l) (currentTerm l)
    (lastLogIndex l) (lastLogTerm l) (commitIndex l) (lastApplied l) (members l)
    (leaseTimeout l) (startIndex l) (newEntries l) v (storage l).

Definition stepDown (l : leaderState) : leaderState :=
  mkLeaderState (selfAddr l) "" Follower (currentTerm l)
    (lastLogIndex l) (lastLogTerm l) (commitIndex l) (lastApplied l) (members l)
    (leaseTimeout l) (startIndex l) (newEntries l) (repls l) (storage l).

Definition withAppended (e : entry) (ne : NewEntry) (l : leaderState) : leaderState :=
  mkLeaderState (selfAddr l) (leaderID l) (state l) (currentTerm l)
    (index e) (term e) (commitIndex l) (lastApplied l) (members l)
    (leaseTimeout l) (startIndex l) (newEntries l ++ [ne]) (repls l)
    (Storage.append (storage l) e).

(** Modelled from the spec: [quorumSize] is not among the sources; the
    glossary gives the quorum as ⌊voters/2⌋ + 1, and every member of this
    leader is a voter. *)
Definition quorumSize (l : leaderState) : Z :=
  Z.of_nat (length (members l)) / 2 + 1.


(** [func (ldr *leaderState) majorityMatchIndex() uint64]; [None] is an
    index out of range. *)
Definition majorityMatchIndex (l : leaderState) : option Z :=
  if Z.of_nat (length (members l)) >? 1 then
    let matched :=
      (fun m => if decide (addr m = selfAddr l) then lastLogIndex l else matchIndex m)
        <$> members l in
    Util.sortDecr matched !! Z.to_nat (quorumSize l - 1)
  else Some (lastLogIndex l).

(** The sends of [notifyReplicators]: every replication's one-slot
    channel ends up holding the update. *)
Definition broadcast (l : leaderState) : leaderState :=
  let u := mkLeaderUpdate (lastLogIndex l) (commitIndex l) in
  withRepls ((fun r => mkReplication (noContact r) (Some u)) <$> repls l) l.

Section WithFsmApply.
(** [ldr.fsmApply(ldr.newEntries)] is not among the sources: it is the
    hand-over of committed entries to the state machine, taken as a
    parameter. *)
Variable fsmApply : leaderState -> leaderState.

(** [commitAndApplyOnMajority] and [notifyReplicators] call each other;
    [fuel] bounds the depth of the calls. *)
Fixpoint commitAndApplyOnMajority (fuel : nat) (l : leaderState)
    : option leaderState :=
  match fuel with
  | O => None
  | S fuel' =>
      n ← majorityMatchIndex l;
      if (n >? commitIndex l) && (n >=? startIndex l) then
        let l1 := withCommitIndex n l in
        let l2 := fsmApply l1 in
        (* notifyReplicators *)
        if decide (size (repls l2) = 0%nat)
        then commitAndApplyOnMajority fuel' l2
        else Some (broadcast l2)
      else Some l
  end.

(** [func (ldr *leaderState) notifyReplicators()] *)
Definition notifyReplicators (fuel : nat) (l : leaderState)
    : option leaderState :=
  if decide (size (repls l) = 0%nat)
  then commitAndApplyOnMajority fuel l
  else Some (broadcast l).

(** [func (ldr *leaderState) storeNewEntry(ne NewEntry)]. The payload
    [ne.Data], which the source moves into the entry, is the [data] of the
    entry from the start. *)
Definition storeNewEntry (fuel : nat) (ne : NewEntry) (l : leaderState)
    : option leaderState :=
  let e0 := default zeroEntry (nentry ne) in
  let e := mkEntry (U64.add (lastLogIndex l) 1) (currentTerm l) (typ e0) (data e0) in
  let ne' := mkNewEntry (Some e) (task ne) in
  let l' := withAppended e ne' l in
  if decide (typ e = entryNoop) then Some l'
  else notifyReplicators fuel l'.

End WithFsmApply.

(** The loop of [isQuorumReachable]; [None] when a member has no
    replication (a nil dereference). *)
Fixpoint countReachable (l : leaderState) (now : Z) (ms : list member)
    (reachable : Z) : option Z :=
  match ms with
  | [] => Some reachable
  | m :: ms' =>
      if decide (addr m = selfAddr l) then countReachable l now ms' (reachable + 1)
      else
        repl ← repls l !! addr m;
        if Time.isZero (noContact repl) || (Time.sub now (noContact repl) <? leaseTimeout l)
        then countReachable l now ms' (reachable + 1)
        else countReachable l now ms' reachable
  end.

(** [func (ldr *leaderState) isQuorumReachable() bool], with the value of
    [time.Now()] as an argument. *)
Definition isQuorumReachable (now : Z) (l : leaderState) : option bool :=
  reachable ← countReachable l now (members l) 0;
  Some (reachable >=? quorumSize l).

(** The [case <-leaseTimer.C] arm of [runLoop]. *)
Definition onLeaseTick (now : Z) (l : leaderState) : option leaderState :=
  ok ← isQuorumReachable now l;
  if negb ok then Some (stepDown l) else Some l.




(** What the state-machine hand-over must leave alone for the commit
    step to be read off the leader state. *)
Definition keepsCommitView (f : leaderState -> leaderState) : Prop :=
  forall l,
    commitIndex (f l) = commitIndex l /\ startIndex (f l) = startIndex l /\
    lastLogIndex (f l) = lastLogIndex l /\ members (f l) = members l /\
    selfAddr (f l) = selfAddr l.
End Leader.

(** ** Errors *)

Inductive error : Type :=
| ErrServerClosed
| ErrQuorumUnreachable
| ErrConfigChangeInProgress
| ErrNotCommitReady
| ErrConfigChanged
| ErrAlreadyBootstrapped
| InProgressError (what : string)
| errorsNew (msg : string)
| errorf (msg : string) (cause : error).

Global Instance error_eq_dec : EqDecision error.
Proof. solve_decision. Defined.

(** Run a loop body until it asks to leave; [OutOfFuel] is kept apart from
    a panic of the code. *)
Inductive outcome (A : Type) : Type :=
| Done (a : A)
| Panic
| OutOfFuel.
Arguments Done {A} a.
Arguments Panic {A}.
Arguments OutOfFuel {A}.

Inductive flow (A : Type) : Type :=
| Next (a : A)
| Leave (a : A).
Arguments Next {A} a.
Arguments Leave {A} a.

Fixpoint iterate {A : Type} (body : A -> option (flow A)) (fuel : nat) (a : A)
    : outcome A :=
  match fuel with
  | O => OutOfFuel
  | S fuel' =>
      match body a with
      | None => Panic
      | Some (Leave a') => Done a'
      | Some (Next a') => iterate body fuel' a'
      end
  end.

(** ** The configuration model *)

Module Conf.
Local Open Scope Z_scope.

Definition ID : Type := string.

Record Node : Type := mkNode {
  nodeID : ID;
  Addr : string;
  Voter : bool;
  Promote : bool
}.

Record Config : Type := mkConfig {
  Nodes : gmap string Node;
  Index : Z;
  Term : Z
}.

Record Configs : Type := mkConfigs {
  Committed : Config;
  Latest : Config
}.

(** [func (c Config) isVoter(id ID) bool] *)
Definition isVoter (c : Config) (id : ID) : bool :=
  match Nodes c !! id with
  | Some node => Voter node
  | None => false
  end.

(** The loop of [numVoters] over the nodes in the order the map yields
    them. *)
Fixpoint countVoters (nodes : list (ID * Node)) (voters : Z) : Z :=
  match nodes with
  | [] => voters
  | (_, node) :: rest =>
      if Voter node then countVoters rest (voters + 1) else countVoters rest voters
  end.

(** [func (c Config) numVoters() int] *)
Definition numVoters (c : Config) : Z := countVoters (map_to_list (Nodes c)) 0.

(** [func (c Config) quorum() int] *)
Definition quorum (c : Config) : Z := numVoters c / 2 + 1.

(** [func (c Configs) IsBootstrap() bool] *)
Definition IsBootstrap (c : Configs) : bool := Index (Latest c) =? 0.

(** [func (c Configs) IsCommitted() bool] *)
Definition IsCommitted (c : Configs) : bool := Index (Latest c) =? Index (Committed c).

Section Validate.
(** [net.SplitHostPort] and [strconv.Atoi] belong to Go's library and
    are parameters: the first yields host and port or an error, the
    second a number or nothing. *)
Variable splitHostPort : string -> (string * string) + error.
Variable atoi : string -> option Z.

(** [func (n Node) validate() error]; [None] is [nil]. *)
Definition validateNode (n : Node) : option error :=
  if decide (nodeID n = "") then Some (errorsNew "empty node id")
  else if decide (Addr n = "") then Some (errorsNew "empty address")
  else
    match splitHostPort (Addr n) with
    | inr err => Some (errorf ("invalid address " +:+ Addr n +:+ ": ") err)
    | inl (_, sport) =>
        match atoi sport with
        | None => Some (errorsNew "port must be specified in address")
        | Some port =>
            if port <=? 0 then Some (errorsNew "invalid port") else None
        end
    end.

(** The [for id, node := range c.Nodes] loop of [validate] over the
    nodes in iteration order, with the addresses seen so far. *)
Fixpoint validateNodes (nodes : list (ID * Node)) (addrs : gset string)
    : option error :=
  match nodes with
  | [] => None
  | (id, node) :: rest =>
      match validateNode node with
      | Some err => Some err
      | None =>
          if decide (id ≠ nodeID node)
          then Some (errorsNew ("id mismatch for " +:+ nodeID node))
          else if decide (Addr node ∈ addrs)
          then Some (errorsNew ("duplicate address " +:+ Addr node))
          else validateNodes rest ({[Addr node]} ∪ addrs)
      end
  end.

(** [func (c Config) validate() error] for the iteration order [nodes]
    of [c.Nodes]. *)
Definition validateIn (nodes : list (ID * Node)) (c : Config) : option error :=
  match validateNodes nodes ∅ with
  | Some err => Some err
  | None =>
      if numVoters c =? 1 then Some (errorsNew "zero voters") else None
  end.

Definition validate (c : Config) : option error :=
  validateIn (map_to_list (Nodes c)) c.
End Validate.
End Conf.

(** ** The apply loop, fsm.go *)

Module Fsm.
Local Open Scope Z_scope.
Import Conf.

(** The fields of [Raft] that [applyCommitted] touches. [fsmApplyCh] lists
    what was sent on the channel, oldest first; [replies] the tasks
    answered with [nil]; [storedConfigs] what [storage.setConfigs] wrote;
    [shutdown] tells, for each select still to come, whether it takes the
    [shutdownCh] arm. *)
Record Raft : Type := mkRaft {
  id : ID;
  state : State;
  leader : string;
  configs : Configs;
  storage : Storage.storage;
  storedConfigs : Configs;
  commitIndex : Z;
  lastApplied : Z;
  fsmApplyCh : list NewEntry;
  replies : list nat;
  shutdown : list bool
}.

Definition withLastApplied (v : Z) (r : Raft) : Raft :=
  mkRaft (id r) (state r) (leader r) (configs r) (storage r) (storedConfigs r)
    (commitIndex r) v (fsmApplyCh r) (replies r) (shutdown r).

Definition withShutdown (v : list bool) (r : Raft) : Raft :=
  mkRaft (id r) (state r) (leader r) (configs r) (storage r) (storedConfigs r)
    (commitIndex r) (lastApplied r) (fsmApplyCh r) (replies r) v.

Definition send (ne : NewEntry) (r : Raft) : Raft :=
  mkRaft (id r) (state r) (leader r) (configs r) (storage r) (storedConfigs r)
    (commitIndex r) (lastApplied r) (fsmApplyCh r ++ [ne]) (replies r) (shutdown r).

(** [select { case <-r.shutdownCh: return; case r.fsmApplyCh <- ne: }] *)
Definition selectSend (ne : NewEntry) (r : Raft) : flow Raft :=
  match shutdown r with
  | true :: rest => Leave (withShutdown rest r)
  | false :: rest => Next (send ne (withShutdown rest r))
  | [] => Next (send ne r)
  end.

(** The [case entryConfig] arm. *)
Definition commitConfig (ne : NewEntry) (r : Raft) : Raft :=
  let cs := mkConfigs (Latest (configs r)) (Latest (configs r)) in
  let stepsDown := negb (isVoter (Latest cs) (id r)) && bool_decide (state r = Leader) in
  mkRaft (id r)
    (if stepsDown then Follower else state r)
    (if stepsDown then "" else leader r)
    cs (storage r) cs (commitIndex r) (lastApplied r) (fsmApplyCh r)
    (replies r ++ [task ne]) (shutdown r).

(** The inner loop that sends the queries at the head of the queue; [None]
    is a nil dereference of a queued entry. *)
Fixpoint drainQueries (newEntries : list NewEntry) (r : Raft)
    : option (flow (Raft * list NewEntry)) :=
  match newEntries with
  | [] => Some (Next (r, []))
  | ne :: rest =>
      e ← nentry ne;
      if (index e =? U64.add (lastApplied r) 1) && bool_decide (typ e = entryQuery) then
        match selectSend ne r with
        | Leave r' => Some (Leave (r', rest))
        | Next r' => drainQueries rest r'
        end
      else Some (Next (r, newEntries))
  end.

(** The inner loop on the leader's queue, or nothing for a nil
    [newEntries]. *)
Definition drain (r : Raft) (newEntries : option (list NewEntry))
    : option (flow (Raft * option (list NewEntry))) :=
  match newEntries with
  | None => Some (Next (r, None))
  | Some q =>
      f ← drainQueries q r;
      Some match f with
           | Next (r', q') => Next (r', Some q')
           | Leave (r', q') => Leave (r', Some q')
           end
  end.

(** The block [// get lastApplied+1 entry]: the head of the queue when it
    carries that index, the stored entry otherwise; [None] is a panic. *)
Definition nextEntry (r : Raft) (newEntries : option (list NewEntry))
    : option (NewEntry * option (list NewEntry)) :=
  front ← match newEntries with
          | Some (elem :: rest) =>
              e ← nentry elem;
              if index e =? U64.add (lastApplied r) 1
              then Some (elem, Some rest)
              else Some (zeroNewEntry, newEntries)
          | _ => Some (zeroNewEntry, newEntries)
          end;
  let '(ne, newEntries') := front in
  e ← match nentry ne with
      | Some e => Some e
      | None => Storage.getEntry (storage r) (U64.add (lastApplied r) 1)
      end;
  Some (mkNewEntry (Some e) (task ne), newEntries').

(** The [switch ne.typ]. *)
Definition applyEntry (ne : NewEntry) (r : Raft) : flow Raft :=
  match neTyp ne with
  | entryConfig => Next (commitConfig ne r)
  | entryUpdate | entryQuery | entryBarrier => selectSend ne r
  | entryNop => Next r
  end.

(** One pass of the outer [for] of [applyCommitted]. The queue is [None]
    for a nil [newEntries]. *)
Definition applyPass (a : Raft * option (list NewEntry))
    : option (flow (Raft * option (list NewEntry))) :=
  let '(r, newEntries) := a in
  drained ← drain r newEntries;
  match drained with
  | Leave a' => Some (Leave a')
  | Next (r, newEntries) =>
      if commitIndex r >? lastApplied r then
        next ← nextEntry r newEntries;
        let '(ne, newEntries') := next in
        match applyEntry ne r with
        | Leave r' => Some (Leave (r', newEntries'))
        | Next r' =>
            Some (Next (withLastApplied (U64.add (lastApplied r') 1) r', newEntries'))
        end
      else Some (Leave (r, newEntries))
  end.

(** [func (r *Raft) applyCommitted(newEntries *list.List)] *)
Definition applyCommitted (fuel : nat) (r : Raft) (newEntries : option (list NewEntry))
    : outcome (Raft * option (list NewEntry)) :=
  iterate applyPass fuel (r, newEntries).



(** A queue and a log that the loop can read without a panic: every
    queued element has its entry, and the log holds every index after
    [lastApplied] up to [commitIndex]. *)
Definition readable (r : Raft) (q : option (list NewEntry)) : Prop :=
  Forall (fun ne => is_Some (nentry ne)) (default [] q) /\
  forall i, lastApplied r < i <= commitIndex r ->
            is_Some (Storage.getEntry (storage r) i).

End Fsm.

(** ** The leader in its later form, [ldrShip] *)

Module LdrShip.
Local Open Scope Z_scope.
Import Conf.

Record leaderUpdate : Type := mkLeaderUpdate {
  lastIndex : Z;
  updCommitIndex : Z;
  updConfig : option Config
}.

(** A follower's replication as the leader sees it: the [flrStatus]
    fields and the one-slot channel [fromLeaderCh]. *)
Record flr : Type := mkFlr {
  matchIndex : Z;
  noContact : Z;
  rounds : Z;
  fromLeaderCh : option leaderUpdate
}.

(** The fields of the embedded [Raft]. [fsmTaskCh] lists what was sent to
    the state machine; [replies] the tasks answered and with what;
    [closing] tells, for each select still to come, whether it takes the
    [l.close] arm. *)
Record Raft : Type := mkRaft {
  id : ID;
  term : Z;
  state : State;
  leader : ID;
  configs : Configs;
  lastLogIndex : Z;
  lastLogTerm : Z;
  commitIndex : Z;
  lastApplied : Z;
  storage : Storage.storage;
  appendErr : option error;
  timerActive : bool;
  quorumWait : Z;
  fsmTaskCh : list NewEntry;
  replies : list (nat * option error);
  closing : list bool
}.

Record ldrShip : Type := mkLdrShip {
  raft : Raft;
  voter : bool;
  startIndex : Z;
  newEntries : list NewEntry;
  flrs : gmap string flr;
  transferInProgress : bool
}.

(** *** Field updates *)

Definition withRaft (r : Raft) (l : ldrShip) : ldrShip :=
  mkLdrShip r (voter l) (startIndex l) (newEntries l) (flrs l) (transferInProgress l).

Definition withVoter (v : bool) (l : ldrShip) : ldrShip :=
  mkLdrShip (raft l) v (startIndex l) (newEntries l) (flrs l) (transferInProgress l).

Definition withNewEntries (q : list NewEntry) (l : ldrShip) : ldrShip :=
  mkLdrShip (raft l) (voter l) (startIndex l) q (flrs l) (transferInProgress l).

Definition withFlrs (f : gmap string flr) (l : ldrShip) : ldrShip :=
  mkLdrShip (raft l) (voter l) (startIndex l) (newEntries l) f (transferInProgress l).

Definition withRole (s : State) (ldr : ID) (r : Raft) : Raft :=
  mkRaft (id r) (term r) s ldr (configs r) (lastLogIndex r) (lastLogTerm r)
    (commitIndex r) (lastApplied r) (storage r) (appendErr r) (timerActive r)
    (quorumWait r) (fsmTaskCh r) (replies r) (closing r).

Definition withConfigs (c : Configs) (r : Raft) : Raft :=
  mkRaft (id r) (term r) (state r) (leader r) c (lastLogIndex r) (lastLogTerm r)
    (commitIndex r) (lastApplied r) (storage r) (appendErr r) (timerActive r)
    (quorumWait r) (fsmTaskCh r) (replies r) (closing r).

Definition withCommitIndex (v : Z) (r : Raft) : Raft :=
  mkRaft (id r) (term r) (state r) (leader r) (configs r) (lastLogIndex r) (lastLogTerm r)
    v (lastApplied r) (storage r) (appendErr r) (timerActive r)
    (quorumWait r) (fsmTaskCh r) (replies r) (closing r).

Definition withLastApplied (v : Z) (r : Raft) : Raft :=
  mkRaft (id r) (term r) (state r) (leader r) (configs r) (lastLogIndex r) (lastLogTerm r)
    (commitIndex r) v (storage r) (appendErr r) (timerActive r)
    (quorumWait r) (fsmTaskCh r) (replies r) (closing r).

Definition withAppendErr (e : option error) (r : Raft) : Raft :=
  mkRaft (id r) (term r) (state r) (leader r) (configs r) (lastLogIndex r) (lastLogTerm r)
    (commitIndex r) (lastApplied r) (storage r) e (timerActive r)
    (quorumWait r) (fsmTaskCh r) (replies r) (closing r).

Definition withTimerActive (b : bool) (r : Raft) : Raft :=
  mkRaft (id r) (term r) (state r) (leader r) (configs r) (lastLogIndex r) (lastLogTerm r)
    (commitIndex r) (lastApplied r) (storage r) (appendErr r) b
    (quorumWait r) (fsmTaskCh r) (replies r) (closing r).

Definition withClosing (c : list bool) (r : Raft) : Raft :=
  mkRaft (id r) (term r) (state r) (leader r) (configs r) (lastLogIndex r) (lastLogTerm r)
    (commitIndex r) (lastApplied r) (storage r) (appendErr r) (timerActive r)
    (quorumWait r) (fsmTaskCh r) (replies r) c.

Definition sendTask (ne : NewEntry) (r : Raft) : Raft :=
  mkRaft (id r) (term r) (state r) (leader r) (configs r) (lastLogIndex r) (lastLogTerm r)
    (commitIndex r) (lastApplied r) (storage r) (appendErr r) (timerActive r)
    (quorumWait r) (fsmTaskCh r ++ [ne]) (replies r) (closing r).

(** [ne.reply(err)] *)
Definition reply (ne : NewEntry) (err : option error) (r : Raft) : Raft :=
  mkRaft (id r) (term r) (state r) (leader r) (configs r) (lastLogIndex r) (lastLogTerm r)
    (commitIndex r) (lastApplied r) (storage r) (appendErr r) (timerActive r)
    (quorumWait r) (fsmTaskCh r) (replies r ++ [(task ne, err)]) (closing r).

(** Modelled from the spec: [storage.appendEntry] is not among the
    sources. A successful append makes the entry durable at the end of
    the log; as in [storeNewEntry], the last index and term of the log
    become those of the entry. *)
Definition appended (e : entry) (r : Raft) : Raft :=
  mkRaft (id r) (term r) (state r) (leader r) (configs r) (index e) (entryTerm e)
    (commitIndex r) (lastApplied r) (Storage.append (storage r) e) (appendErr r)
    (timerActive r) (quorumWait r) (fsmTaskCh r) (replies r) (closing r).

(** *** Configuration bookkeeping of [Raft] *)

(** [func (r *Raft) commitConfig()] *)
Definition commitConfig (r : Raft) : Raft :=
  withConfigs (mkConfigs (Latest (configs r)) (Latest (configs r))) r.

(** [func (r *Raft) setLatest(config Config)] *)
Definition setLatest (config : Config) (r : Raft) : Raft :=
  withConfigs (mkConfigs (Committed (configs r)) config) r.

(** [func (r *Raft) changeConfig(new Config)] *)
Definition raftChangeConfig (new : Config) (r : Raft) : Raft :=
  setLatest new (withConfigs (mkConfigs (Latest (configs r)) (Latest (configs r))) r).

(** [func (r *Raft) setCommitIndex(index uint64)] *)
Definition setCommitIndex (i : Z) (r : Raft) : Raft :=
  let r := withCommitIndex i r in
  if negb (IsCommitted (configs r)) && (Index (Latest (configs r)) <=? commitIndex r) then
    let r := commitConfig r in
    if bool_decide (state r = Leader) && negb (isVoter (Latest (configs r)) (id r))
    then withRole Follower "" r
    else r
  else r.

(** *** Commit advancement *)

(** The loop of [majorityMatchIndex] that collects the voters' indices,
    in iteration order; [None] is the nil dereference of a missing
    follower. *)
Fixpoint collectMatched (l : ldrShip) (nodes : list (ID * Node)) : option (list Z) :=
  match nodes with
  | [] => Some []
  | (_, n) :: rest =>
      if Voter n then
        v ← (if decide (nodeID n = id (raft l)) then Some (lastLogIndex (raft l))
             else matchIndex <$> flrs l !! nodeID n);
        vs ← collectMatched l rest;
        Some (v :: vs)
      else collectMatched l rest
  end.

(** [func (l *ldrShip) majorityMatchIndex() uint64] for the iteration
    order [nodes] of [Latest.Nodes]: the slice has one slot per node, the
    voters fill a prefix, the prefix is sorted. [None] is a panic. *)
Definition majorityMatchIndexIn (nodes : list (ID * Node)) (l : ldrShip) : option Z :=
  vs ← collectMatched l nodes;
  let i := length vs in
  let matched := Util.sortDecr vs ++ replicate (length nodes - i) 0 in
  let quorum := Z.of_nat i / 2 + 1 in
  matched !! Z.to_nat (quorum - 1).

Definition majorityMatchIndex (l : ldrShip) : option Z :=
  majorityMatchIndexIn (map_to_list (Nodes (Latest (configs (raft l))))) l.

(** The commit rule as the specification words it: the indices that
    count are the leader's own [lastLogIndex] and the [matchIndex] of each
    peer, of the voters of [Latest] only; [x] is the [k]-th largest of [xs]
    when it occurs in [xs], fewer than [k] elements are larger and at least
    [k] are not smaller. *)
Definition voterIndex (l : ldrShip) (p : ID * Node) : option Z :=
  if Voter p.2 then
    if decide (nodeID p.2 = id (raft l)) then Some (lastLogIndex (raft l))
    else matchIndex <$> flrs l !! nodeID p.2
  else None.

Definition voterIndices (l : ldrShip) (nodes : list (ID * Node)) : list Z :=
  omap (voterIndex l) nodes.

Definition isKthLargest (k : nat) (xs : list Z) (x : Z) : Prop :=
  x ∈ xs /\
  (length (filter (fun y => (x < y)%Z) xs) < k)%nat /\
  (k <= length (filter (fun y => (x <= y)%Z) xs))%nat.

(** Every voter but the leader has a replication. *)
Definition votersFollowed (l : ldrShip) (nodes : list (ID * Node)) : Prop :=
  forall p, p ∈ nodes -> Voter p.2 = true -> nodeID p.2 <> id (raft l) ->
            is_Some (flrs l !! nodeID p.2).

(** Modelled from the spec: [applyEntry] is not among the sources. The
    apply loop delivers commands, queries and barriers to the state
    machine, or answers [ErrServerClosed] when the node is closing; a
    config entry is handled inline and only answered; a no-op is
    dropped. *)
Definition applyEntry (ne : NewEntry) (r : Raft) : Raft :=
  match neTyp ne with
  | entryConfig => reply ne None r
  | entryUpdate | entryQuery | entryBarrier =>
      match closing r with
      | true :: rest => reply ne (Some ErrServerClosed) (withClosing rest r)
      | false :: rest => sendTask ne (withClosing rest r)
      | [] => sendTask ne r
      end
  | entryNop => r
  end.

(** The inner loop of [applyCommitted] that sends the reads and barriers
    at the head of the queue. *)
Fixpoint drainNonLog (q : list NewEntry) (r : Raft)
    : option (flow (Raft * list NewEntry)) :=
  match q with
  | [] => Some (Next (r, []))
  | ne :: rest =>
      e ← nentry ne;
      if (index e =? U64.add (lastApplied r) 1)
         && (bool_decide (typ e = entryRead) || bool_decide (typ e = entryBarrier)) then
        match closing r with
        | true :: c => Some (Leave (reply ne (Some ErrServerClosed) (withClosing c r), rest))
        | false :: c => drainNonLog rest (sendTask ne (withClosing c r))
        | [] => drainNonLog rest (sendTask ne r)
        end
      else Some (Next (r, q))
  end.

(** One pass of the outer [for] of [applyCommitted]. *)
Definition applyPass (l : ldrShip) : option (flow ldrShip) :=
  drained ← drainNonLog (newEntries l) (raft l);
  match drained with
  | Leave (r, q) => Some (Leave (withNewEntries q (withRaft r l)))
  | Next (r, q) =>
      let l := withNewEntries q (withRaft r l) in
      if U64.add (lastApplied r) 1 >? commitIndex r then Some (Leave l)
      else
        (* get lastApplied+1 entry *)
        front ← match q with
                | elem :: rest =>
                    e ← nentry elem;
                    if index e =? U64.add (lastApplied r) 1
                    then Some (elem, rest)
                    else Some (zeroNewEntry, q)
                | [] => Some (zeroNewEntry, q)
                end;
        let '(ne, q') := front in
        e ← match nentry ne with
            | Some e => Some e
            | None => Storage.getEntry (storage r) (U64.add (lastApplied r) 1)
            end;
        let r := applyEntry (mkNewEntry (Some e) (task ne)) r in
        let r := withLastApplied (U64.add (lastApplied r) 1) r in
        Some (Next (withNewEntries q' (withRaft r l)))
  end.

(** [func (l *ldrShip) applyCommitted()] *)
Definition applyCommitted (fuel : nat) (l : ldrShip) : outcome ldrShip :=
  iterate applyPass fuel l.

(** The durable log and what the node remembers of its end. *)
Definition sameLog (l l' : ldrShip) : Prop :=
  storage (raft l') = storage (raft l) /\
  lastLogIndex (raft l') = lastLogIndex (raft l) /\
  lastLogTerm (raft l') = lastLogTerm (raft l).

(** A queue and a log that the apply loop can read without a panic. *)
Definition readable (l : ldrShip) : Prop :=
  Forall (fun ne => is_Some (nentry ne)) (newEntries l) /\
  forall i, lastApplied (raft l) < i <= commitIndex (raft l) ->
            is_Some (Storage.getEntry (storage (raft l)) i).

(** The sends of [notifyFlr]: every follower's one-slot channel ends up
    holding the update. *)
Definition broadcast (includeConfig : bool) (l : ldrShip) : ldrShip :=
  let update :=
    mkLeaderUpdate (lastLogIndex (raft l)) (commitIndex (raft l))
      (if includeConfig then Some (Latest (configs (raft l))) else None) in
  withFlrs ((fun f => mkFlr (matchIndex f) (noContact f) (rounds f) (Some update))
              <$> flrs l) l.

(** [func (l *ldrShip) onMajorityCommit()], which calls [notifyFlr], which
    calls it back when the leader is a voter; [fuel] bounds the depth of
    the calls and the passes of each apply loop. *)
Fixpoint onMajorityCommit (fuel : nat) (l : ldrShip) : outcome ldrShip :=
  match fuel with
  | O => OutOfFuel
  | S fuel' =>
      match majorityMatchIndex l with
      | None => Panic
      | Some n =>
          if (n >? commitIndex (raft l)) && (n >=? startIndex l) then
            let l := withRaft (setCommitIndex n (raft l)) l in
            match applyCommitted fuel' l with
            | Done l =>
                (* notifyFlr(false): we updated commit index *)
                let l := broadcast false l in
                if voter l then onMajorityCommit fuel' l else Done l
            | Panic => Panic
            | OutOfFuel => OutOfFuel
            end
          else Done l
      end
  end.

(** What the majority index is computed from, and the gate of the term. *)
Definition commitView (l l' : ldrShip) : Prop :=
  id (raft l') = id (raft l) /\
  lastLogIndex (raft l') = lastLogIndex (raft l) /\
  Latest (configs (raft l')) = Latest (configs (raft l)) /\
  (forall k, matchIndex <$> flrs l' !! k = matchIndex <$> flrs l !! k) /\
  startIndex l' = startIndex l.

(** [func (l *ldrShip) notifyFlr(includeConfig bool)] *)
Definition notifyFlr (fuel : nat) (includeConfig : bool) (l : ldrShip)
    : outcome ldrShip :=
  let l := broadcast includeConfig l in
  if voter l then onMajorityCommit fuel l else Done l.

(** *** The lease *)

(** The loop of [checkQuorum]: voters and reachable voters; [None] is the
    nil dereference of a missing follower. *)
Fixpoint countQuorum (l : ldrShip) (nodes : list (ID * Node)) (voters reachable : Z)
    : option (Z * Z) :=
  match nodes with
  | [] => Some (voters, reachable)
  | (nid, n) :: rest =>
      if Voter n then
        isReachable ← (if decide (nid = id (raft l)) then Some true
                       else (fun f => Time.isZero (noContact f)) <$> flrs l !! nid);
        countQuorum l rest (voters + 1) (if isReachable : bool then reachable + 1 else reachable)
      else countQuorum l rest voters reachable
  end.

(** [func (l *ldrShip) checkQuorum(wait time.Duration)] *)
Definition checkQuorum (wait : Z) (l : ldrShip) : option ldrShip :=
  vr ← countQuorum l (map_to_list (Nodes (Latest (configs (raft l))))) 0 0;
  let '(voters, reachable) := vr in
  if reachable >=? voters / 2 + 1 then
    Some (if timerActive (raft l) then withRaft (withTimerActive false (raft l)) l else l)
  else if wait =? 0 then Some (withRaft (withRole Follower "" (raft l)) l)
  else if negb (timerActive (raft l)) then Some (withRaft (withTimerActive true (raft l)) l)
  else Some l.

(** [func (l *ldrShip) onTimeout()] *)
Definition onTimeout (l : ldrShip) : option ldrShip := checkQuorum 0 l.

Section WithCodec.
(** The byte layout of a config entry ([writeString], [readString] and
    the like) is not among the sources: the encoding of the nodes and
    its inverse are parameters. *)
Variable encodeNodes : gmap string Node -> list Byte.byte.
Variable decodeNodes : list Byte.byte -> option (gmap string Node).

(** [func (c Config) encode() *entry] *)
Definition encode (c : Config) : entry :=
  mkEntry (Index c) (Term c) entryConfig (encodeNodes (Nodes c)).

(** [func (c *Config) decode(e *entry) error] on a zero [Config]; [None]
    is an error. *)
Definition decode (e : entry) : option Config :=
  if decide (typ e = entryConfig) then
    nodes ← decodeNodes (data e);
    Some (mkConfig nodes (index e) (entryTerm e))
  else None.

(** [ne.entry.index, ne.entry.term = l.lastLogIndex+1, l.term] *)
Definition assigned (l : ldrShip) (e0 : entry) : entry :=
  mkEntry (U64.add (lastLogIndex (raft l)) 1) (term (raft l)) (typ e0) (data e0).

(** [func (l *ldrShip) storeEntry(ne NewEntry) error]. [appendResult] is
    what the durable append answers, should it be reached. The stored
    entry, with its index and term assigned, is returned as well: the
    caller sees it through the pointer in [ne]. *)
Definition storeEntry (fuel : nat) (appendResult : option error) (ne : NewEntry)
    (l : ldrShip) : outcome (ldrShip * option entry * option error) :=
  match nentry ne with
  | None => Panic
  | Some e0 =>
      let e := assigned l e0 in
      let ne := mkNewEntry (Some e) (task ne) in
      let l := withNewEntries (newEntries l ++ [ne]) l in
      if bool_decide (typ e = entryRead) || bool_decide (typ e = entryBarrier) then
        (* non-log entry *)
        match applyCommitted fuel l with
        | Done l => Done (l, Some e, None)
        | Panic => Panic
        | OutOfFuel => OutOfFuel
        end
      else if transferInProgress l then
        let l := withNewEntries (removelast (newEntries l)) l in
        let err := InProgressError "transferLeadership" in
        Done (withRaft (reply ne (Some err) (raft l)) l, Some e, Some err)
      else
        match appendResult with
        | Some err =>
            let r := withRole Follower "" (withAppendErr (Some err) (raft l)) in
            Done (withRaft r l, Some e, Some err)
        | None =>
            let l := withRaft (appended e (raft l)) l in
            let configured :=
              if decide (typ e = entryConfig) then
                config ← decode e;
                Some (withRaft (raftChangeConfig config (raft l))
                        (withVoter (isVoter config (id (raft l))) l))
              else Some l in
            match configured with
            | None => Panic
            | Some l =>
                match notifyFlr fuel (bool_decide (typ e = entryConfig)) l with
                | Done l => Done (l, Some e, None)
                | Panic => Panic
                | OutOfFuel => OutOfFuel
                end
            end
        end
  end.

(** *** Configuration change *)

(** The closure [voters] of [changeConfig]. *)
Definition votersOf (c : Config) : gset string :=
  dom (filter (fun p => Voter p.2 = true) (Nodes c)).

(** The loop that removes the common voters from both sets, for the
    iteration order [order] of [curVoters]. *)
Fixpoint removeCommon (order : list string) (curVoters newVoters : gset string)
    : gset string * gset string :=
  match order with
  | [] => (curVoters, newVoters)
  | curVoter :: rest =>
      if decide (curVoter ∈ newVoters)
      then removeCommon rest (curVoters ∖ {[curVoter]}) (newVoters ∖ {[curVoter]})
      else removeCommon rest curVoters newVoters
  end.

Variable splitHostPort : string -> (string * string) + error.
Variable atoi : string -> option Z.

(** Stopping the replication of removed nodes and starting that of new
    ones goes through [l.repls] and [l.startReplication], which are not
    among the sources: a parameter. *)
Variable syncRepls : Config -> ldrShip -> ldrShip.

(** The two errors of [changeConfig] about voters. *)
Definition errNewVoters : error :=
  errorsNew
    "raft.changeConfig: new voters found. please add them as nonvoters with promote flag".

Definition errTwoVotersLost : error :=
  errorsNew "raft.changeConfig: only one voter can lose its voting right".

(** [func (l *ldrShip) changeConfig(t changeConfig)]. The second
    component is the error the task is answered with at once, if any. *)
Definition changeConfig (fuel : nat) (appendResult : option error)
    (newConf : Config) (task : nat) (l : ldrShip)
    : outcome (ldrShip * option error) :=
  if negb (IsCommitted (configs (raft l))) then Done (l, Some ErrConfigChangeInProgress)
  else if commitIndex (raft l) <? startIndex l then Done (l, Some ErrNotCommitReady)
  else if negb (Index newConf =? Index (Latest (configs (raft l))))
  then Done (l, Some ErrConfigChanged)
  else
    let config := newConf in
    match validate splitHostPort atoi config with
    | Some err => Done (l, Some (errorf "raft.changeConfig: " err))
    | None =>
        let curVoters := votersOf (Latest (configs (raft l))) in
        let newVoters := votersOf config in
        let '(curVoters, newVoters) :=
          removeCommon (elements curVoters) curVoters newVoters in
        if Z.of_nat (size newVoters) >? 0 then Done (l, Some errNewVoters)
        else if Z.of_nat (size curVoters) >? 1 then Done (l, Some errTwoVotersLost)
        else
          (* store config *)
          let ne := mkNewEntry (Some (encode config)) task in
          match storeEntry fuel appendResult ne l with
          | Done (l, stored, _) =>
              let e := default (encode config) stored in
              let config := mkConfig (Nodes config) (index e) (entryTerm e) in
              Done (syncRepls config (withRaft (raftChangeConfig config (raft l)) l), None)
          | Panic => Panic
          | OutOfFuel => OutOfFuel
          end
    end.
End WithCodec.
End LdrShip.

(** ** The last stored entry *)

Module Restart.
Local Open Scope Z_scope.

(** [func (s *storage) lastEntry()], which answers an entry or an error: the outer [None] is
    the error of [Log.Last], the inner one the nil entry of an empty
    store. *)
Definition lastEntry (s : Storage.storage) : option (option entry) :=
  if Storage.count s =? 0 then Some None
  else
    match list.last (Storage.log s) with
    | Some e => Some (Some e)
    | None => None
    end.
End Restart.

(** ** Connection pools *)

Module ConnPools.
Local Open Scope Z_scope.

(** The [connPool] that [getConnPool] creates; the dial function is left
    out. *)
Record connPool : Type := mkConnPool {
  poolAddr : string;
  timeout : Z;
  max : Z
}.

Definition second : Z := 1000 * Util.millisecond.

(** [func (r *Raft) getConnPool(addr string) *connPool] *)
Definition getConnPool (addr : string) (connPools : gmap string connPool)
    : connPool * gmap string connPool :=
  match connPools !! addr with
  | Some pool => (pool, connPools)
  | None =>
      let pool := mkConnPool addr (10 * second) 3 in
      (pool, <[addr := pool]> connPools)
  end.

(** The pool of a [member]: connections are told apart by a number;
    [closed] lists the connections closed so far. *)
Record pool : Type := mkPool {
  connPool_ : list nat;
  maxConns : Z;
  closed : list nat
}.

(** [func (m *member) getConn()]; [dialed] is what
    [dial] answers, [None] an error. *)
Definition getConn (dialed : option nat) (m : pool) : option nat * pool :=
  let num := length (connPool_ m) in
  if decide (num = 0%nat) then (dialed, m)
  else
    match list.last (connPool_ m) with
    | Some conn => (Some conn, mkPool (removelast (connPool_ m)) (maxConns m) (closed m))
    | None => (None, m)
    end.

(** [func (m *member) returnConn(conn *netConn)] *)
Definition returnConn (conn : nat) (m : pool) : pool :=
  if Z.of_nat (length (connPool_ m)) <? maxConns m
  then mkPool (connPool_ m ++ [conn]) (maxConns m) (closed m)
  else mkPool (connPool_ m) (maxConns m) (closed m ++ [conn]).

(** [func (m *member) doRPC(typ rpcType, req, resp command) error];
    [rpcFails] tells whether [conn.doRPC] answers an error. The result is
    [true] for a nil error. *)
Definition doRPC (dialed : option nat) (rpcFails : bool) (m : pool) : bool * pool :=
  match getConn dialed m with
  | (None, m) => (false, m)
  | (Some conn, m) =>
      if rpcFails then (false, mkPool (connPool_ m) (maxConns m) (closed m ++ [conn]))
      else (true, returnConn conn m)
  end.
End ConnPools.

(** ** The replication worker: contact, retry and the steady state *)

Module Replicate.
Local Open Scope Z_scope.
Import Member.

(** The bookkeeping of [func (m *member) appendEntries]: the time since
    which the member cannot be reached, zero when it can. *)
Definition recordContact (ok : bool) (now : Z) (noContact : Z) : Z :=
  if ok then 0
  else if Time.isZero noContact then now
  else noContact.

(** [recordContact] along a sequence of calls. *)
Definition contactRun (calls : list (bool * Z)) (noContact : Z) : Z :=
  foldl (fun nc call => recordContact call.1 call.2 nc) noContact calls.

(** One call of [appendEntries] as the environment decides it: the
    response, whether the RPC failed, the time of the call, and whether
    [stopCh] is seen closed at the select that follows. *)
Record attempt : Type := mkAttempt {
  attResp : appendEntriesResponse;
  failed : bool;
  attNow : Z;
  stopSeen : bool
}.

Record retried : Type := mkRetried {
  retResp : appendEntriesResponse;
  retStop : bool;
  newTermSent : option Z;
  waits : list Z;
  retNoContact : Z
}.

(** An attempt after which the loop goes round again: the call failed and
    the stop signal was not seen. *)
Definition retriedAfter (a : attempt) : Prop := failed a = true /\ stopSeen a = false.

Section WithBackoff.
(** [backoff], by which the loop waits between two attempts, is not among
    the sources under this name: a parameter. *)
Variable backoff : Z -> Z.

(** The loop of [func (m *member) retryAppendEntries], one [attempt] per
    pass; [None] when the attempts run out before the loop returns. *)
Fixpoint retryLoop (atts : list attempt) (req : appendEntriesRequest)
    (failures : Z) (waited : list Z) (noContact : Z) : option retried :=
  match atts with
  | [] => None
  | a :: rest =>
      let noContact := recordContact (negb (failed a)) (attNow a) noContact in
      if failed a then
        let failures := U64.add failures 1 in
        if stopSeen a then Some (mkRetried (attResp a) true None waited noContact)
        else retryLoop rest req failures (waited ++ [backoff failures]) noContact
      else if respTerm (attResp a) >? reqTerm req then
        Some (mkRetried (attResp a) true
                (if stopSeen a then None else Some (respTerm (attResp a)))
                waited noContact)
      else Some (mkRetried (attResp a) false None waited noContact)
  end.

Definition retryAppendEntries (atts : list attempt) (req : appendEntriesRequest)
    (noContact : Z) : option retried :=
  retryLoop atts req 0 [] noContact.
End WithBackoff.

(** The block [// setup request] of the steady loop of [replicate];
    [None] is a panic of [fillEntries]. *)
Definition setupRequest (m : member) (matchIndex lastIndex : Z)
    (req : appendEntriesRequest) : option appendEntriesRequest :=
  if matchIndex <? lastIndex then
    let maxIndex :=
      Util.min lastIndex (U64.sub (U64.add (nextIndex m) Util.maxAppendEntries) 1) in
    fillEntries (mstorage m) req (nextIndex m) maxIndex
  else
    Some (mkReq (reqTerm req) (leaderID req) (leaderCommitIndex req)
                lastIndex (reqTerm req) []).

Inductive steadyResult : Type :=
| SteadyReturn
| SteadyPanic
| SteadyNext (m : member) (matchIndex : Z) (req : appendEntriesRequest).

(** What follows the request in a pass of the steady loop, given the
    outcome of [retryAppendEntries]; [stopAtNotify] tells which arm the
    select of [setMatchIndex] takes. *)
Definition afterRequest (m : member) (req : appendEntriesRequest)
    (r : retried) (stopAtNotify : bool) : steadyResult :=
  if retStop r then SteadyReturn
  else if negb (success (retResp r)) then
    (* assert(resp.term > req.term, ...) *)
    if respTerm (retResp r) >? reqTerm req then SteadyReturn else SteadyPanic
  else
    let m := mkMember (mstorage m) (U64.add (lastLogIndex (retResp r)) 1)
                      (matchIndexShared m) (updates m) in
    let matchIndex := lastLogIndex (retResp r) in
    SteadyNext (setMatchIndex stopAtNotify matchIndex m) matchIndex req.
End Replicate.

(** ** The loop that feeds the state machine *)

Module FsmLoop.

Section WithFSM.
(** [type FSM interface { Apply(cmd []byte) interface{} }] as a
    transition on the states of the user's machine. *)
Variables (S R : Type).
Variable Apply : S -> list Byte.byte -> S * R.

(** One pass of [for ne := range r.fsmApplyCh]; [None] is the nil
    dereference of an entry that is missing. The reply is recorded under
    the task with the response, [None] for a nil response. *)
Definition fsmStep (acc : S * list (nat * option R)) (ne : NewEntry)
    : option (S * list (nat * option R)) :=
  e ← nentry ne;
  if bool_decide (typ e = entryUpdate) || bool_decide (typ e = entryQuery) then
    let '(s', resp) := Apply acc.1 (data e) in
    Some (s', acc.2 ++ [(task ne, Some resp)])
  else Some (acc.1, acc.2 ++ [(task ne, None)]).

(** [func (r *Raft) fsmLoop()] on what the channel delivers. *)
Fixpoint fsmLoop (ch : list NewEntry) (acc : S * list (nat * option R))
    : option (S * list (nat * option R)) :=
  match ch with
  | [] => Some acc
  | ne :: rest => acc' ← fsmStep acc ne; fsmLoop rest acc'
  end.

(** The commands among the entries, as the state machine sees them. *)
Definition commandsOf (ch : list NewEntry) : list (list Byte.byte) :=
  omap (fun ne =>
          e ← nentry ne;
          if bool_decide (typ e = entryUpdate) || bool_decide (typ e = entryQuery)
          then Some (data e) else None) ch.
End WithFSM.
End FsmLoop.

(** ** Bootstrap and the configuration bookkeeping of a node *)

Module ConfOps.
Local Open Scope Z_scope.
Import Conf.

(** [func (c Config) nodeForAddr(addr string) (Node, bool)] for the
    iteration order [nodes] of [c.Nodes]. *)
Fixpoint nodeForAddrIn (nodes : list (ID * Node)) (addr : string) : option Node :=
  match nodes with
  | [] => None
  | (_, node) :: rest =>
      if decide (Addr node = addr) then Some node else nodeForAddrIn rest addr
  end.

(** [func (r *Raft) revertConfig()] *)
Definition revertConfig (r : LdrShip.Raft) : LdrShip.Raft :=
  LdrShip.setLatest (Committed (LdrShip.configs r)) r.

Section Bootstrap.
Variable splitHostPort : string -> (string * string) + error.
Variable atoi : string -> option Z.

(** [func (r *Raft) bootstrap(t bootstrap)]; [stored] is what
    [storage.bootstrap] answers. The second component is the reply to the
    task, [None] for nil. *)
Definition bootstrap (stored : option error) (nodes : gmap string Node)
    (r : LdrShip.Raft) : LdrShip.Raft * option error :=
  if negb (IsBootstrap (LdrShip.configs r)) then (r, Some ErrAlreadyBootstrapped)
  else
    let config := mkConfig nodes 1 1 in
    match validate splitHostPort atoi config with
    | Some err => (r, Some (errorf "raft.bootstrap: invalid config: " err))
    | None =>
        match Nodes config !! LdrShip.id r with
        | None =>
            (r, Some (errorsNew ("raft.bootstrap: invalid config: self "
                                 +:+ LdrShip.id r +:+ " does not exist")))
        | Some self =>
            if negb (Voter self) then
              (r, Some (errorsNew ("raft.bootstrap: invalid config: self "
                                   +:+ LdrShip.id r +:+ " must be voter")))
            else
              match stored with
              | Some err => (r, Some err)
              | None => (LdrShip.raftChangeConfig config r, None)
              end
        end
    end.
End Bootstrap.
End ConfOps.

(** ** Entry to the leader state in the later form *)

Module LdrInit.
Local Open Scope Z_scope.
Import Conf LdrShip.

(** [func (l *ldrShip) addFlr(node Node)]: the follower starts with the
    zero status and an empty channel; [None] is the failed assertion that
    the node is not the leader. The connection pool it fetches is that of
    [ConnPools.getConnPool]; the first heartbeat and the start of the
    worker leave the leader state alone. *)
Definition addFlr (node : Node) (l : ldrShip) : option ldrShip :=
  if decide (nodeID node = id (raft l)) then None
  else Some (withFlrs (<[nodeID node := mkFlr 0 0 0 None]> (flrs l)) l).

(** The loop of [init] that starts a replication for every node but the
    leader, in iteration order. *)
Fixpoint addFlrs (nodes : list (ID * Node)) (l : ldrShip) : option ldrShip :=
  match nodes with
  | [] => Some l
  | (nid, node) :: rest =>
      if decide (nid ≠ id (raft l)) then l' ← addFlr node l; addFlrs rest l'
      else addFlrs rest l
  end.

Section WithCodec.
Variable decodeNodes : list Byte.byte -> option (gmap string Node).

(** [func (l *ldrShip) init()] for the iteration order [nodes] of
    [Latest.Nodes]; the first assertion is that the node is its own
    leader. *)
Definition init (fuel : nat) (appendResult : option error)
    (nodes : list (ID * Node)) (l : ldrShip)
    : outcome (ldrShip * option entry * option error) :=
  if decide (leader (raft l) = id (raft l)) then
    let l := withVoter true l in
    let l := mkLdrShip (raft l) (voter l) (U64.add (lastLogIndex (raft l)) 1)
                       (newEntries l) (flrs l) (transferInProgress l) in
    match addFlrs nodes l with
    | None => Panic
    | Some l =>
        storeEntry decodeNodes fuel appendResult
          (mkNewEntry (Some (mkEntry 0 0 entryNop [])) 0) l
    end
  else Panic.
End WithCodec.
End LdrInit.

(** ** What the followers have pending from the leader *)

Module LdrNotify.
Local Open Scope Z_scope.
Import LdrShip.

(** Every replication has in its one-slot channel an update that carries
    the leader's [lastLogIndex] and [commitIndex] as they are now. *)
Definition latestUpdatePending (l : ldrShip) : Prop :=
  forall k f,
    flrs l !! k = Some f ->
    exists u,
      fromLeaderCh f = Some u /\
      lastIndex u = lastLogIndex (raft l) /\
      updCommitIndex u = commitIndex (raft l).
End LdrNotify.

(** ** What a follower hands to the state machine *)

Module FollowerApply.
Local Open Scope Z_scope.
Import Fsm.

(** The entry types that the [switch] of [applyCommitted] sends on
    [fsmApplyCh]. *)
Definition isCommand (e : entry) : bool :=
  match typ e with
  | entryUpdate | entryQuery | entryBarrier => true
  | _ => false
  end.

(** The stored entries after [lastApplied] up to [commitIndex] that are
    commands, in log order, as the loop wraps them: without a task. *)
Definition committedCommands (r : Raft) : list NewEntry :=
  omap (fun i =>
          e ← Storage.getEntry (storage r) i;
          if isCommand e then Some (mkNewEntry (Some e) 0) else None)
       (seqZ (lastApplied r + 1) (commitIndex r - lastApplied r)).
End FollowerApply.

(** ** Randomised timeouts *)

Module RandTime.
Local Open Scope Z_scope.

(** [func (rt randTime) duration(min time.Duration) time.Duration] with
    the value of [rt.r.Int63()] as an argument; [None] is the panic of a
    division by zero. Go's [%] truncates towards zero. *)
Definition duration (rnd : Z) (min : Z) : option Z :=
  if min =? 0 then None
  else Some (Util.wrapInt64 (min + Z.rem rnd min)).

(** What [rand.Int63] may answer. *)
Definition int63 (rnd : Z) : Prop := 0 <= rnd < 2 ^ 63.
End RandTime.

(** ** Sample data for the worked examples *)

Module Samples.
Local Open Scope Z_scope.

Definition sampleLog : list entry :=
  [mkEntry 1 1 entryNop []; mkEntry 2 1 entryUpdate []; mkEntry 3 2 entryUpdate []].

(** Stand-ins for [net.SplitHostPort] and [strconv.Atoi] that accept the
    sample addresses. *)
Definition sampleSplitHostPort (addr : string) : (string * string) + error :=
  inl ("localhost", "7000").

Definition sampleAtoi (s : string) : option Z := Some 7000.

Definition nodeA : Conf.Node := Conf.mkNode "a" "localhost:7001" true false.
Definition nodeB : Conf.Node := Conf.mkNode "b" "localhost:7002" true false.
Definition nodeC : Conf.Node := Conf.mkNode "c" "localhost:7003" true false.
Definition nodeD : Conf.Node := Conf.mkNode "d" "localhost:7004" false true.
Definition nodeDVoter : Conf.Node := Conf.mkNode "d" "localhost:7004" true false.
Definition nodeANonvoter : Conf.Node := Conf.mkNode "a" "localhost:7001" false false.

Definition configOf (nodes : list Conf.Node) (i t : Z) : Conf.Config :=
  Conf.mkConfig (list_to_map ((fun n => (Conf.nodeID n, n)) <$> nodes)) i t.

(** A leader "a" of three members in term 2 whose no-op sits at index 5:
    "b" has matched it, "c" lags at 3 and has been out of contact since
    [noContactC]. *)
Definition noContactC : Z := 1700000000000000000.

Definition sampleLeader (noContactB : Z) : Leader.leaderState :=
  Leader.mkLeaderState "a" "a" Leader 2 5 2 3 3
    [Leader.mkMember "a" 0; Leader.mkMember "b" 5; Leader.mkMember "c" 3]
    1000000000 5 []
    (<["b" := Leader.mkReplication noContactB None]>
       (<["c" := Leader.mkReplication noContactC None]> ∅))
    (Storage.mkStorage 1 5
       [mkEntry 1 1 entryNop []; mkEntry 2 1 entryUpdate []; mkEntry 3 1 entryUpdate [];
        mkEntry 4 1 entryUpdate []; mkEntry 5 2 entryNop []]).

(** A hand-over that applies everything committed and empties the queue. *)
Definition sampleFsmApply (l : Leader.leaderState) : Leader.leaderState :=
  Leader.mkLeaderState (Leader.selfAddr l) (Leader.leaderID l) (Leader.state l)
    (Leader.currentTerm l) (Leader.lastLogIndex l) (Leader.lastLogTerm l)
    (Leader.commitIndex l) (Leader.commitIndex l) (Leader.members l)
    (Leader.leaseTimeout l) (Leader.startIndex l) [] (Leader.repls l)
    (Leader.storage l).

(** The same cluster in the later form of the leader, with a fourth node
    "d" that does not vote and whose [matchIndex] is ahead of everyone. *)
Definition sampleStorage : Storage.storage :=
  Storage.mkStorage 1 5
    [mkEntry 1 1 entryConfig []; mkEntry 2 1 entryUpdate []; mkEntry 3 1 entryUpdate [];
     mkEntry 4 1 entryUpdate []; mkEntry 5 2 entryNop []].

Definition sampleConfig : Conf.Config := configOf [nodeA; nodeB; nodeC; nodeD] 1 1.

Definition sampleRaft : LdrShip.Raft :=
  LdrShip.mkRaft "a" 2 Leader "a" (Conf.mkConfigs sampleConfig sampleConfig)
    5 2 3 3 sampleStorage None false 0 [] [] [].

Definition sampleFlrs (matchD : Z) : gmap string LdrShip.flr :=
  <["b" := LdrShip.mkFlr 5 0 0 None]>
    (<["c" := LdrShip.mkFlr 3 0 0 None]>
       (<["d" := LdrShip.mkFlr matchD 0 0 None]> ∅)).

Definition sampleLdrShip (matchD : Z) : LdrShip.ldrShip :=
  LdrShip.mkLdrShip sampleRaft true 5 [] (sampleFlrs matchD) false.

(** A node that has applied up to index 3 of the sample log and knows
    index 5 committed; as a leader it has the entries 4 and 5 and a query
    queued behind them. *)
Definition sampleFsmRaft (shutdown : list bool) : Fsm.Raft :=
  Fsm.mkRaft "a" Leader "a" (Conf.mkConfigs sampleConfig sampleConfig)
    sampleStorage (Conf.mkConfigs sampleConfig sampleConfig) 5 3 [] [] shutdown.

Definition sampleQueue : list NewEntry :=
  [mkNewEntry (Some (mkEntry 4 1 entryUpdate [])) 1;
   mkNewEntry (Some (mkEntry 5 2 entryNop [])) 2;
   mkNewEntry (Some (mkEntry 6 2 entryQuery [])) 3].

(** What the examples look at after a run of the apply loop:
    [lastApplied], the indices sent to the state machine, the indices left
    in the queue. *)
Definition observe (o : outcome (Fsm.Raft * option (list NewEntry)))
    : option (Z * list Z * option (list Z)) :=
  match o with
  | Done (r, q) =>
      Some (Fsm.lastApplied r, neIndex <$> Fsm.fsmApplyCh r,
            (fun l : list NewEntry => neIndex <$> l) <$> q)
  | _ => None
  end.

(** What the examples look at after [storeEntry]: the indices in the log,
    [lastLogIndex], the indices in the queue, the indices sent to the
    state machine, the error. *)
Definition observeStore
    (o : outcome (LdrShip.ldrShip * option entry * option error))
    : option (list Z * Z * list Z * list Z * option error) :=
  match o with
  | Done (l, _, err) =>
      Some (index <$> Storage.log (LdrShip.storage (LdrShip.raft l)),
            LdrShip.lastLogIndex (LdrShip.raft l),
            neIndex <$> LdrShip.newEntries l,
            neIndex <$> LdrShip.fsmTaskCh (LdrShip.raft l), err)
  | _ => None
  end.

(** Stand-ins for the codec of config entries and for the start and stop
    of replications, and [changeConfig] with them. *)
Definition sampleEncodeNodes (nodes : gmap string Conf.Node) : list Byte.byte := [].
Definition sampleDecodeNodes (b : list Byte.byte) : option (gmap string Conf.Node) :=
  Some (Conf.Nodes sampleConfig).
Definition sampleSyncRepls (c : Conf.Config) (l : LdrShip.ldrShip) : LdrShip.ldrShip := l.

Definition sampleChangeConfig (newConf : Conf.Config) (l : LdrShip.ldrShip)
    : outcome (LdrShip.ldrShip * option error) :=
  LdrShip.changeConfig sampleEncodeNodes sampleDecodeNodes sampleSplitHostPort
    sampleAtoi sampleSyncRepls 6 None newConf 9 l.

(** The sample leader once index 5 is committed and applied, and the same
    with "d" a voter too. *)
Definition readyLdrShip : LdrShip.ldrShip :=
  LdrShip.withRaft
    (LdrShip.withLastApplied 5 (LdrShip.withCommitIndex 5 sampleRaft))
    (sampleLdrShip 5).

Definition fourVoters : Conf.Config := configOf [nodeA; nodeB; nodeC; nodeDVoter] 1 1.

Definition fourVoterLdrShip : LdrShip.ldrShip :=
  LdrShip.withRaft
    (LdrShip.withConfigs (Conf.mkConfigs fourVoters fourVoters) (LdrShip.raft readyLdrShip))
    readyLdrShip.
(** A leader "a" that is the only member of its cluster, in term 2 with
    its no-op at index 5 committed and applied. *)
Definition singleLeader : Leader.leaderState :=
  Leader.mkLeaderState "a" "a" Leader 2 5 2 5 5 [Leader.mkMember "a" 0]
    1000000000 5 [] ∅
    (Storage.mkStorage 1 5
       [mkEntry 1 1 entryNop []; mkEntry 2 1 entryUpdate []; mkEntry 3 1 entryUpdate [];
        mkEntry 4 1 entryUpdate []; mkEntry 5 2 entryNop []]).

(** A state machine that keeps the commands it is given and answers how
    many it had seen before; what the channel may deliver to it. *)
Definition sampleApply (st : list (list Byte.byte)) (cmd : list Byte.byte)
    : list (list Byte.byte) * nat :=
  (st ++ [cmd], length st).

Definition sampleChannel : list NewEntry :=
  [mkNewEntry (Some (mkEntry 4 1 entryUpdate [Byte.x01])) 1;
   mkNewEntry (Some (mkEntry 5 1 entryBarrier [])) 2;
   mkNewEntry (Some (mkEntry 5 1 entryQuery [Byte.x02])) 3].

(** A back-off for the worked examples of the retry loop. *)
Definition sampleBackoff (failures : Z) : Z := (failures * Util.failureWait)%Z.
End Samples.

(** * Properties *)

(** ** Machine integers *)

Section U64Facts.
Local Open Scope Z_scope.

Lemma U64_modulus_eq : U64.modulus = 18446744073709551616.
Proof. reflexivity. Qed.

Lemma U64_wrap_range x : U64.inRange (U64.wrap x).
Proof. unfold U64.inRange, U64.wrap. apply Z.mod_pos_bound. reflexivity. Qed.

Lemma U64_wrap_small x : U64.inRange x -> U64.wrap x = x.
Proof. unfold U64.inRange, U64.wrap. intros H. now apply Z.mod_small. Qed.

Lemma U64_add_small a b : 0 <= a + b < U64.modulus -> U64.add a b = a + b.
Proof. intros H. unfold U64.add. now apply U64_wrap_small. Qed.

Lemma U64_sub_small a b : 0 <= a - b < U64.modulus -> U64.sub a b = a - b.
Proof. intros H. unfold U64.sub. now apply U64_wrap_small. Qed.

Lemma U64_add_range a b : U64.inRange (U64.add a b).
Proof. apply U64_wrap_range. Qed.

Lemma U64_sub_range a b : U64.inRange (U64.sub a b).
Proof. apply U64_wrap_range. Qed.

Lemma Util_min_spec a b : Util.min a b = Z.min a b.
Proof. unfold Util.min. destruct (Z.leb_spec a b); lia. Qed.

Lemma Util_max_spec a b : Util.max a b = Z.max a b.
Proof. unfold Util.max. unfold Z.geb. destruct (Z.compare_spec a b); lia. Qed.
End U64Facts.

(** ** The retry back-off *)

Section BackOff.
Local Open Scope Z_scope.

Lemma wrapInt64_small x : - 2 ^ 63 <= x < 2 ^ 63 -> Util.wrapInt64 x = x.
Proof.
  intros H. unfold Util.wrapInt64.
  rewrite Z.mod_small; lia.
Qed.

(** The doubling loop run from [power = 2 + k] multiplies the base by
    [2^k], provided the product fits a [Duration]. *)
Lemma backOffLoop_doubles (k : nat) :
  forall fuel base,
    (k <= fuel)%nat ->
    0 < base -> base * 2 ^ Z.of_nat k < 2 ^ 63 ->
    2 + Z.of_nat k < U64.modulus ->
    Util.backOffLoop fuel base (2 + Z.of_nat k) = Some (base * 2 ^ Z.of_nat k).
Proof.
  induction k as [|k IH]; intros fuel base Hfuel Hbase Hfit Hrange.
  - destruct fuel; simpl; f_equal; lia.
  - destruct fuel as [|fuel]; [lia|].
    assert (Hpow : 2 ^ Z.of_nat (S k) = 2 * 2 ^ Z.of_nat k).
    { rewrite Nat2Z.inj_succ, Z.pow_succ_r by lia. reflexivity. }
    assert (0 < 2 ^ Z.of_nat k) by (apply Z.pow_pos_nonneg; lia).
    cbn [Util.backOffLoop].
    replace (2 + Z.of_nat (S k) >? 2) with true
      by (symmetry; rewrite Z.gtb_ltb; apply Z.ltb_lt; lia).
    rewrite wrapInt64_small by nia.
    rewrite U64_sub_small by lia.
    replace (2 + Z.of_nat (S k) - 1) with (2 + Z.of_nat k) by lia.
    rewrite IH; [f_equal; rewrite Hpow; ring | lia | lia | | lia].
    rewrite Hpow in Hfit. nia.
Qed.

Lemma backOffLoop_small fuel base power :
  power <= 2 -> Util.backOffLoop fuel base power = Some base.
Proof.
  intros H. destruct fuel; simpl; rewrite Z.gtb_ltb;
    destruct (Z.ltb_spec 2 power); (reflexivity || lia).
Qed.

Lemma backOff_closed_form round :
  Util.backOff round
  = Some (Util.failureWait * 2 ^ Z.min (Z.max round 2 - 2) 10).
Proof.
  unfold Util.backOff. rewrite Util_min_spec. unfold Util.maxFailureScale.
  destruct (Z_le_gt_dec (Z.min round 12) 2) as [Hle|Hgt].
  - rewrite backOffLoop_small by lia.
    replace (Z.min (Z.max round 2 - 2) 10) with 0 by lia.
    reflexivity.
  - set (k := Z.to_nat (Z.min round 12 - 2)).
    replace (Z.min round 12) with (2 + Z.of_nat k) by lia.
    replace (Z.min (Z.max round 2 - 2) 10) with (Z.of_nat k) by lia.
    apply backOffLoop_doubles; try lia.
    + reflexivity.
    + assert (Z.of_nat k <= 10) by lia.
      assert (2 ^ Z.of_nat k <= 2 ^ 10) by (apply Z.pow_le_mono_r; lia).
      unfold Util.failureWait, Util.millisecond. lia.
    + rewrite U64_modulus_eq. lia.
Qed.
End BackOff.

Section BackOffClaims.
Local Open Scope Z_scope.

Lemma specBackOff_nonneg_exponent round :
  2 <= round ->
  (Util.specBackOff round
   == inject_Z (Util.failureWait * 2 ^ Z.min (round - 2) 10))%Q.
Proof.
  intros H. unfold Util.specBackOff.
  assert (Hk : 0 <= Z.min (round - 2) 10 <= 10) by lia.
  set (k := Z.min (round - 2) 10) in *.
  assert (Hcases : k = 0 \/ k = 1 \/ k = 2 \/ k = 3 \/ k = 4 \/ k = 5 \/
                   k = 6 \/ k = 7 \/ k = 8 \/ k = 9 \/ k = 10) by lia.
  repeat (destruct Hcases as [-> | Hcases]; [reflexivity|]).
  rewrite Hcases. reflexivity.
Qed.

(** C9, as stated, fails for the first failure: [backOff(1)] is 10 ms,
    while 10 ms × 2^(min(1-2, 10)) is 5 ms (and 10 ms × 2^10 when the
    subtraction is read in [uint64]). *)
Lemma backOff_first_failure_not_spec :
  Util.backOff 1 = Some 10000000 /\
  ~ (inject_Z 10000000 == Util.specBackOff 1)%Q /\
  Util.backOff 1 <> Some (Util.failureWait * 2 ^ Z.min (U64.sub 1 2) 10).
Proof.
  split; [reflexivity|]. split.
  - intros H. vm_compute in H. discriminate H.
  - intros H. vm_compute in H. discriminate H.
Qed.

(** C9, amended: [backOff(round)] is 10 ms × 2^(min(round-2, 10)) for
    every round from 2 on; it is 10 ms for every round up to 2, doubles
    with each further failure below 12, and stays at 10 ms × 2^10 from
    round 12 on. *)
Theorem backOff_exponential_from_second_failure round :
  (2 <= round ->
     exists d, Util.backOff round = Some d /\
               (inject_Z d == Util.specBackOff round)%Q) /\
  (round <= 2 -> Util.backOff round = Some Util.failureWait) /\
  (2 <= round < 12 ->
     exists d, Util.backOff round = Some d /\
               Util.backOff (round + 1) = Some (2 * d)) /\
  (12 <= round -> Util.backOff round = Some (Util.failureWait * 2 ^ 10)).
Proof.
  repeat split.
  - intros H. eexists. split; [apply backOff_closed_form|].
    rewrite specBackOff_nonneg_exponent by assumption.
    replace (Z.max round 2 - 2) with (round - 2) by lia. reflexivity.
  - intros H. rewrite backOff_closed_form.
    replace (Z.min (Z.max round 2 - 2) 10) with 0 by lia. reflexivity.
  - intros H. eexists. split; [apply backOff_closed_form|].
    rewrite backOff_closed_form. f_equal.
    replace (Z.min (Z.max (round + 1) 2 - 2) 10)
      with (Z.succ (Z.min (Z.max round 2 - 2) 10)) by lia.
    rewrite Z.pow_succ_r by lia. ring.
  - intros H. rewrite backOff_closed_form.
    replace (Z.min (Z.max round 2 - 2) 10) with 10 by lia. reflexivity.
Qed.

Lemma backOff_exponential_from_second_failure_witness :
  (exists d, Util.backOff 5 = Some d /\ (inject_Z d == Util.specBackOff 5)%Q) /\
  Util.backOff 2 = Some Util.failureWait /\
  (exists d, Util.backOff 5 = Some d /\ Util.backOff (5 + 1) = Some (2 * d)) /\
  Util.backOff 40 = Some (Util.failureWait * 2 ^ 10).
Proof.
  split; [|split; [|split]].
  - apply (proj1 (backOff_exponential_from_second_failure 5)). lia.
  - apply (proj1 (proj2 (backOff_exponential_from_second_failure 2))). lia.
  - apply (proj1 (proj2 (proj2 (backOff_exponential_from_second_failure 5)))). lia.
  - apply (proj2 (proj2 (proj2 (backOff_exponential_from_second_failure 40)))). lia.
Defined.
End BackOffClaims.

(** ** The storage facade *)

Ltac u64_simpl :=
  unfold U64.add, U64.sub, U64.wrap, U64.inRange, U64.maxUint64, U64.modulus in *;
  change (2 ^ 64)%Z with 18446744073709551616%Z in *.

Ltac u64_lia := u64_simpl; Z.div_mod_to_equations; lia.

Section StorageFacts.
Local Open Scope Z_scope.
Import Storage.

Lemma count_nonempty s :
  inv s -> first s <> 0 -> count s = last s - first s + 1.
Proof.
  intros (Hz & Hle & Hf & Hl) Hne. unfold count.
  destruct (Z.eqb_spec (first s) 0); [contradiction|].
  u64_lia.
Qed.

Lemma count_zero_iff s :
  inv s -> (count s = 0 <-> first s = 0 /\ last s = 0).
Proof.
  intros Hinv. split.
  - intros Hc. destruct (Z.eq_dec (first s) 0) as [Hf|Hf].
    + destruct Hinv as (Hz & _). tauto.
    + rewrite count_nonempty in Hc by assumption.
      destruct Hinv as (_ & Hle & _). lia.
  - intros [Hf _]. unfold count. rewrite Hf. reflexivity.
Qed.

Lemma count_range s : inv s -> 0 <= count s < U64.modulus.
Proof.
  intros Hinv. destruct (Z.eq_dec (first s) 0) as [Hf|Hf].
  - unfold count. rewrite Hf. simpl. u64_lia.
  - rewrite count_nonempty by assumption.
    destruct Hinv as (Hz & Hle & Hfr & Hlr). u64_lia.
Qed.

Lemma append_inv s e :
  inv s -> index e <> 0 -> U64.inRange (index e) ->
  (first s <> 0 -> first s <= index e) ->
  inv (append s e).
Proof.
  intros (Hz & Hle & Hf & Hl) Hne Hr Hord. unfold inv, append. simpl.
  destruct (Z.eqb_spec (first s) 0) as [H0|H0]; u64_lia.
Qed.

Lemma append_empty s e :
  first s = 0 -> first (append s e) = index e /\ last (append s e) = index e.
Proof. intros H. unfold append. simpl. rewrite H. split; reflexivity. Qed.

Lemma deleteLTE_fields s i s' :
  inv s -> U64.inRange i -> deleteLTE s i = Some s' ->
  first s <> 0 /\ first s - 1 <= i <= last s /\
  (i = last s -> first s' = 0 /\ last s' = 0) /\
  (i <> last s -> first s' = i + 1 /\ last s' = last s) /\
  log s' = drop (Z.to_nat (i - first s + 1)) (log s).
Proof.
  intros Hinv Hi. unfold deleteLTE.
  destruct (Z.eqb_spec (count s) 0) as [Hc|Hc]; [discriminate|].
  assert (Hf : first s <> 0).
  { intros Hf. apply Hc. unfold count. rewrite Hf. reflexivity. }
  rewrite count_nonempty by assumption.
  destruct Hinv as (Hz & Hle & Hfr & Hlr).
  rewrite Z.gtb_ltb.
  destruct (Z.ltb_spec (last s - first s + 1) (U64.add (U64.sub i (first s)) 1))
    as [Hgt|Hn]; [discriminate|].
  assert (Hrange : first s - 1 <= i <= last s) by u64_lia.
  assert (Hnval : U64.add (U64.sub i (first s)) 1 = i - first s + 1) by u64_lia.
  rewrite Hnval. unfold logDeleteFirst.
  destruct (i - first s + 1 <=? Z.of_nat (length (log s))); [|discriminate].
  destruct (Z.eqb_spec i (last s)) as [He|He]; intros [= <-]; simpl.
  - repeat split; try lia; try assumption.
  - assert (U64.add i 1 = i + 1) by u64_lia.
    repeat split; try lia; try assumption.
Qed.

Lemma deleteGTE_fields s i s' :
  inv s -> U64.inRange i -> deleteGTE s i = Some s' ->
  first s <> 0 /\
  (i = first s -> first s' = 0 /\ last s' = 0) /\
  (i <> first s ->
     first s' = first s /\ last s' = U64.sub i 1 /\
     first s <= U64.sub i 1 <= last s) /\
  log s' = take (length (log s) - Z.to_nat (U64.add (U64.sub (last s) i) 1)) (log s).
Proof.
  intros Hinv Hi. unfold deleteGTE.
  destruct (Z.eqb_spec (count s) 0) as [Hc|Hc]; [discriminate|].
  assert (Hf : first s <> 0).
  { intros Hf. apply Hc. unfold count. rewrite Hf. reflexivity. }
  rewrite count_nonempty by assumption.
  destruct Hinv as (Hz & Hle & Hfr & Hlr).
  rewrite Z.gtb_ltb.
  destruct (Z.ltb_spec (last s - first s + 1) (U64.add (U64.sub (last s) i) 1))
    as [Hgt|Hn]; [discriminate|].
  unfold logDeleteLast.
  destruct (U64.add (U64.sub (last s) i) 1 <=? Z.of_nat (length (log s))); [|discriminate].
  destruct (Z.eqb_spec i (first s)) as [He|He]; intros [= <-]; simpl.
  - repeat split; try lia; try assumption.
  - assert (first s <= U64.sub i 1 <= last s) by u64_lia.
    repeat split; try lia; try assumption.
Qed.

Lemma deleteLTE_inv s i s' :
  inv s -> U64.inRange i -> deleteLTE s i = Some s' -> inv s'.
Proof.
  intros Hinv Hi Hd.
  destruct (deleteLTE_fields s i s' Hinv Hi Hd) as (Hf & Hr & Hlast & Hother & _).
  destruct Hinv as (Hz & Hle & Hfr & Hlr).
  destruct (Z.eq_dec i (last s)) as [He|He].
  - destruct (Hlast He) as [E1 E2]. unfold inv. u64_lia.
  - destruct (Hother He) as [E1 E2]. unfold inv. u64_lia.
Qed.

Lemma deleteGTE_inv s i s' :
  inv s -> U64.inRange i -> deleteGTE s i = Some s' -> inv s'.
Proof.
  intros Hinv Hi Hd.
  destruct (deleteGTE_fields s i s' Hinv Hi Hd) as (Hf & Hfirst & Hother & _).
  destruct Hinv as (Hz & Hle & Hfr & Hlr).
  destruct (Z.eq_dec i (first s)) as [He|He].
  - destruct (Hfirst He) as [E1 E2]. unfold inv. u64_lia.
  - destruct (Hother He) as (E1 & E2 & Hb). unfold inv.
    pose proof (U64_sub_range i 1) as Hsr. rewrite E1, E2.
    unfold U64.inRange in *. lia.
Qed.
Lemma init_inv l : logWellFormed l -> inv (init (mkStorage 0 0 l)).
Proof.
  intros Hl. unfold init. simpl.
  destruct (head l) as [ef|] eqn:Hh; [|unfold inv; simpl; u64_lia].
  destruct (list.last l) as [el|] eqn:Hlast; [|unfold inv; simpl; u64_lia].
  rewrite head_lookup in Hh. rewrite last_lookup in Hlast.
  destruct (Hl _ _ Hh) as (e0 & He0 & Hpos & _ & Hr0).
  destruct (Hl _ _ Hlast) as (e1 & He1 & _ & Hidx & Hr1).
  rewrite head_lookup in He0, He1.
  assert (e0 = ef) by congruence. assert (e1 = ef) by congruence. subst e0 e1.
  unfold inv. simpl. unfold U64.inRange in *. lia.
Qed.

Lemma init_wf l : logWellFormed l -> wf (init (mkStorage 0 0 l)).
Proof.
  intros Hl. split; [apply init_inv, Hl|].
  pose proof (init_inv l Hl) as Hinv. revert Hinv.
  unfold init. simpl.
  destruct (head l) as [ef|] eqn:Hh.
  - destruct (list.last l) as [el|] eqn:Hlast.
    + intros Hinv.
      rewrite head_lookup in Hh. pose proof Hlast as Hlast'.
      rewrite last_lookup in Hlast'.
      destruct (Hl _ _ Hh) as (e0 & He0 & Hpos & _ & Hr0).
      destruct (Hl _ _ Hlast') as (e1 & He1 & _ & Hidx & Hr1).
      rewrite head_lookup in He0, He1.
      assert (e0 = ef) by congruence. assert (e1 = ef) by congruence. subst e0 e1.
      assert (Hlen : (0 < length l)%nat) by (apply lookup_lt_Some in Hh; lia).
      split.
      * rewrite count_nonempty by (assumption || (simpl; lia)). simpl. lia.
      * intros k e Hk. simpl in *.
        destruct (Hl _ _ Hk) as (e2 & He2 & _ & Hidx2 & _).
        rewrite head_lookup in He2. assert (e2 = ef) by congruence. subst e2. lia.
    + rewrite head_lookup in Hh. apply lookup_lt_Some in Hh.
      rewrite last_lookup in Hlast. apply lookup_ge_None in Hlast. lia.
  - destruct l; [|discriminate]. intros _. split; [reflexivity|].
    intros k e Hk. simpl in Hk. rewrite lookup_nil in Hk. discriminate.
Qed.

Lemma append_wf s e :
  wf s -> index e <> 0 -> U64.inRange (index e) ->
  (first s <> 0 -> index e = last s + 1) ->
  wf (append s e).
Proof.
  intros (Hinv & Hlen & Hcont) Hne Hr Hnext.
  assert (Hinv' : inv (append s e)).
  { apply append_inv; try assumption. intros Hf. rewrite (Hnext Hf).
    destruct Hinv as (_ & Hle & _). lia. }
  split; [exact Hinv'|].
  destruct (Z.eq_dec (first s) 0) as [Hf|Hf].
  - assert (Hc : count s = 0) by (unfold count; rewrite Hf; reflexivity).
    assert (Hnil : log s = []) by (apply length_zero_iff_nil; lia).
    split.
    + rewrite count_nonempty; [|exact Hinv'|].
      * unfold append. simpl. rewrite Hf, Hnil. simpl. lia.
      * unfold append. simpl. rewrite Hf. simpl. exact Hne.
    + intros k e' Hk. unfold append in *. simpl in *. rewrite Hf, Hnil in *. simpl in *.
      destruct k; simpl in Hk; [|rewrite lookup_nil in Hk; discriminate].
      injection Hk as <-. lia.
  - pose proof (count_nonempty s Hinv Hf) as Hc. specialize (Hnext Hf).
    assert (Hfa : first (append s e) = first s).
    { unfold append. simpl. destruct (Z.eqb_spec (first s) 0); [contradiction|reflexivity]. }
    split.
    + rewrite count_nonempty; [|exact Hinv'|rewrite Hfa; exact Hf].
      rewrite Hfa. unfold append. simpl. rewrite length_app. simpl. lia.
    + intros k e' Hk. rewrite Hfa. unfold append in Hk. simpl in Hk.
      destruct (decide (k < length (log s))%nat) as [Hlt|Hge].
      * rewrite lookup_app_l in Hk by assumption. apply Hcont, Hk.
      * rewrite lookup_app_r in Hk by lia.
        destruct (k - length (log s))%nat eqn:Hd; simpl in Hk;
          [|rewrite lookup_nil in Hk; discriminate].
        injection Hk as <-. lia.
Qed.

Lemma deleteLTE_wf s i s' :
  wf s -> U64.inRange i -> deleteLTE s i = Some s' -> wf s'.
Proof.
  intros (Hinv & Hlen & Hcont) Hi Hd.
  pose proof (deleteLTE_inv s i s' Hinv Hi Hd) as Hinv'.
  destruct (deleteLTE_fields s i s' Hinv Hi Hd) as (Hf & Hr & Hlast & Hother & Hlog).
  rewrite count_nonempty in Hlen by assumption.
  destruct Hinv as (Hz & Hle & Hfr & Hlr). unfold U64.inRange in Hfr, Hlr.
  split; [exact Hinv'|].
  destruct (Z.eq_dec i (last s)) as [He|He].
  - destruct (Hlast He) as [E1 E2]. split.
    + unfold count. rewrite E1. simpl. rewrite Hlog, length_drop. lia.
    + intros k e Hk. rewrite Hlog in Hk. apply lookup_lt_Some in Hk.
      rewrite length_drop in Hk. lia.
  - destruct (Hother He) as [E1 E2]. split.
    + rewrite count_nonempty by (assumption || lia).
      rewrite E1, E2, Hlog, length_drop. lia.
    + intros k e Hk. rewrite Hlog, lookup_drop in Hk.
      rewrite E1, (Hcont _ _ Hk). lia.
Qed.

Lemma deleteGTE_wf s i s' :
  wf s -> U64.inRange i -> deleteGTE s i = Some s' -> wf s'.
Proof.
  intros (Hinv & Hlen & Hcont) Hi Hd.
  pose proof (deleteGTE_inv s i s' Hinv Hi Hd) as Hinv'.
  destruct (deleteGTE_fields s i s' Hinv Hi Hd) as (Hf & Hfirst & Hother & Hlog).
  rewrite count_nonempty in Hlen by assumption.
  destruct Hinv as (Hz & Hle & Hfr & Hlr).
  split; [exact Hinv'|].
  destruct (Z.eq_dec i (first s)) as [He|He].
  - destruct (Hfirst He) as [E1 E2]. split.
    + unfold count. rewrite E1. simpl. rewrite Hlog, length_take.
      assert (U64.add (U64.sub (last s) i) 1 = last s - first s + 1) by u64_lia.
      lia.
    + intros k e Hk. rewrite Hlog in Hk. apply lookup_lt_Some in Hk.
      rewrite length_take in Hk.
      assert (U64.add (U64.sub (last s) i) 1 = last s - first s + 1) by u64_lia.
      lia.
  - destruct (Hother He) as (E1 & E2 & Hb). split.
    + rewrite count_nonempty by (assumption || lia).
      rewrite E1, E2, Hlog, length_take.
      assert (U64.add (U64.sub (last s) i) 1 = last s - U64.sub i 1) by u64_lia.
      lia.
    + intros k e Hk. rewrite Hlog in Hk.
      apply lookup_take_Some in Hk. destruct Hk as [Hk _].
      rewrite E1. apply Hcont, Hk.
Qed.

Lemma deleteLTE_last s :
  wf s -> first s <> 0 ->
  exists s', deleteLTE s (last s) = Some s' /\ first s' = 0 /\ last s' = 0 /\ log s' = [].
Proof.
  intros (Hinv & Hlen & Hcont) Hf.
  pose proof (count_nonempty s Hinv Hf) as Hc.
  destruct Hinv as (Hz & Hle & Hfr & Hlr).
  unfold deleteLTE. rewrite Hc.
  destruct (Z.eqb_spec (last s - first s + 1) 0); [lia|].
  assert (Hn : U64.add (U64.sub (last s) (first s)) 1 = last s - first s + 1) by u64_lia.
  rewrite Hn, Z.gtb_ltb, Z.ltb_irrefl.
  unfold logDeleteFirst.
  destruct (Z.leb_spec (last s - first s + 1) (Z.of_nat (length (log s)))); [|lia].
  rewrite Z.eqb_refl. eexists. split; [reflexivity|]. simpl.
  repeat split. apply drop_ge. lia.
Qed.

Lemma deleteGTE_first s :
  wf s -> first s <> 0 ->
  exists s', deleteGTE s (first s) = Some s' /\ first s' = 0 /\ last s' = 0 /\ log s' = [].
Proof.
  intros (Hinv & Hlen & Hcont) Hf.
  pose proof (count_nonempty s Hinv Hf) as Hc.
  destruct Hinv as (Hz & Hle & Hfr & Hlr).
  unfold deleteGTE. rewrite Hc.
  destruct (Z.eqb_spec (last s - first s + 1) 0); [lia|].
  assert (Hn : U64.add (U64.sub (last s) (first s)) 1 = last s - first s + 1) by u64_lia.
  rewrite Hn, Z.gtb_ltb, Z.ltb_irrefl.
  unfold logDeleteLast.
  destruct (Z.leb_spec (last s - first s + 1) (Z.of_nat (length (log s)))); [|lia].
  rewrite Z.eqb_refl. eexists. split; [reflexivity|]. simpl.
  repeat split.
  match goal with |- take ?n _ = _ => replace n with 0%nat by lia end.
  reflexivity.
Qed.
End StorageFacts.

Section StorageClaims.
Local Open Scope Z_scope.
Import Storage.

Lemma inv_empty : inv empty.
Proof. unfold inv, empty. simpl. u64_lia. Qed.

(** C8. The storage facade keeps [first = 0] exactly when [last = 0]
    across [init], [append], [deleteLTE] and [deleteGTE] (entries never
    carry index zero, and an entry is appended at or after [first]);
    [count] is zero exactly when both are zero and [last - first + 1]
    otherwise; [deleteLTE(last)] and [deleteGTE(first)] reset both to zero;
    [append] on an empty store sets both to the index of the entry. *)
Theorem storage_first_last_invariant :
  inv empty /\
  (forall s, inv s -> (first s = 0 <-> last s = 0)) /\
  (forall l, logWellFormed l -> inv (init (mkStorage 0 0 l))) /\
  (forall s e,
     inv s -> index e <> 0 -> U64.inRange (index e) ->
     (first s <> 0 -> first s <= index e) ->
     inv (append s e)) /\
  (forall s i s', inv s -> U64.inRange i -> deleteLTE s i = Some s' -> inv s') /\
  (forall s i s', inv s -> U64.inRange i -> deleteGTE s i = Some s' -> inv s') /\
  (forall s,
     inv s ->
     (count s = 0 <-> first s = 0 /\ last s = 0) /\
     (count s <> 0 -> count s = last s - first s + 1)) /\
  (forall s,
     wf s -> first s <> 0 ->
     exists s', deleteLTE s (last s) = Some s' /\ first s' = 0 /\ last s' = 0) /\
  (forall s,
     wf s -> first s <> 0 ->
     exists s', deleteGTE s (first s) = Some s' /\ first s' = 0 /\ last s' = 0) /\
  (forall s e,
     first s = 0 -> first (append s e) = index e /\ last (append s e) = index e).
Proof.
  split; [exact inv_empty|].
  split; [intros s (Hz & _); exact Hz|].
  split; [exact init_inv|].
  split; [exact append_inv|].
  split; [exact deleteLTE_inv|].
  split; [exact deleteGTE_inv|].
  split.
  { intros s Hinv. split; [apply count_zero_iff, Hinv|].
    intros Hc. apply count_nonempty; [exact Hinv|].
    intros Hf. apply Hc. unfold count. rewrite Hf. reflexivity. }
  split.
  { intros s Hwf Hf. destruct (deleteLTE_last s Hwf Hf) as (s' & H1 & H2 & H3 & _). eauto. }
  split.
  { intros s Hwf Hf. destruct (deleteGTE_first s Hwf Hf) as (s' & H1 & H2 & H3 & _). eauto. }
  exact append_empty.
Qed.

(** A store holding the entries 5, 6 and 7. *)
Lemma wf_sample :
  wf (mkStorage 5 7 [mkEntry 5 1 entryNop []; mkEntry 6 1 entryUpdate [];
                     mkEntry 7 2 entryUpdate []]).
Proof.
  split; [|split].
  - unfold inv. simpl. u64_lia.
  - reflexivity.
  - intros k e Hk. simpl in *.
    destruct k as [|[|[|k]]]; simpl in Hk; try (injection Hk as <-; reflexivity).
    rewrite lookup_nil in Hk. discriminate.
Defined.

Lemma storage_first_last_invariant_witness :
  let s := mkStorage 5 7 [mkEntry 5 1 entryNop []; mkEntry 6 1 entryUpdate [];
                          mkEntry 7 2 entryUpdate []] in
  inv (append s (mkEntry 8 2 entryUpdate [])) /\
  (forall s', deleteLTE s 6 = Some s' -> inv s') /\
  (forall s', deleteGTE s 6 = Some s' -> inv s') /\
  (count s <> 0 -> count s = last s - first s + 1) /\
  (exists s', deleteLTE s (last s) = Some s' /\ first s' = 0 /\ last s' = 0) /\
  (exists s', deleteGTE s (first s) = Some s' /\ first s' = 0 /\ last s' = 0) /\
  first (append empty (mkEntry 1 1 entryNop [])) = 1 /\
  last (append empty (mkEntry 1 1 entryNop [])) = 1.
Proof.
  intros s.
  destruct storage_first_last_invariant
    as (_ & _ & _ & Happ & Hlte & Hgte & Hcount & Hdl & Hdg & Hae).
  assert (Hinv : inv s) by (apply wf_sample).
  split; [apply Happ; [exact Hinv | simpl; lia | simpl; u64_lia | simpl; lia]|].
  split; [intros s'; apply Hlte; [exact Hinv | u64_lia]|].
  split; [intros s'; apply Hgte; [exact Hinv | u64_lia]|].
  split; [apply (Hcount s Hinv)|].
  split; [apply Hdl; [apply wf_sample | simpl; lia]|].
  split; [apply Hdg; [apply wf_sample | simpl; lia]|].
  apply Hae. reflexivity.
Defined.

Example storage_sample_deleteLTE :
  deleteLTE (mkStorage 5 7 [mkEntry 5 1 entryNop []; mkEntry 6 1 entryUpdate [];
                            mkEntry 7 2 entryUpdate []]) 6
  = Some (mkStorage 7 7 [mkEntry 7 2 entryUpdate []]).
Proof. reflexivity. Qed.
End StorageClaims.

(** ** The catch-up phase of the replication worker *)

Section CatchUp.
Local Open Scope Z_scope.
Import Storage Member.

Lemma getEntry_wf s i :
  wf s -> first s <> 0 -> first s <= i <= last s ->
  exists e, getEntry s i = Some e /\ index e = i.
Proof.
  intros (Hinv & Hlen & Hcont) Hf Hi.
  rewrite count_nonempty in Hlen by assumption.
  destruct Hinv as (Hz & Hle & Hfr & Hlr).
  unfold getEntry.
  assert (Hoff : U64.sub i (first s) = i - first s) by u64_lia.
  rewrite Hoff.
  destruct (lookup_lt_is_Some_2 (log s) (Z.to_nat (i - first s))) as [e He]; [lia|].
  exists e. split; [exact He|]. rewrite (Hcont _ _ He). lia.
Qed.

Lemma zero_entries_range ni :
  U64.inRange ni -> U64.add (U64.sub (U64.sub ni 1) ni) 1 = 0.
Proof. intros H. u64_lia. Qed.

(** The request of a catch-up pass carries no entry and points at the
    entry before [nextIndex]. *)
Lemma fillEntries_zero s req ni :
  1 <= ni < U64.modulus ->
  wf s ->
  (ni <> 1 -> first s <> 0 /\ first s <= ni - 1 <= last s) ->
  exists req',
    fillEntries s req ni (U64.sub ni 1) = Some req' /\
    entries req' = [] /\ prevLogIndex req' = ni - 1 /\
    reqTerm req' = reqTerm req /\ leaderCommitIndex req' = leaderCommitIndex req.
Proof.
  intros Hni Hwf Hstored. unfold fillEntries.
  rewrite zero_entries_range by (unfold U64.inRange; lia). simpl.
  destruct (Z.eqb_spec ni 1) as [H1|H1].
  - simpl. eexists. split; [reflexivity|]. simpl. repeat split. lia.
  - destruct (Hstored H1) as [Hf Hr].
    assert (Hsub : U64.sub ni 1 = ni - 1) by u64_lia.
    rewrite Hsub.
    destruct (getEntry_wf s (ni - 1) Hwf Hf Hr) as (e & He & Hidx).
    rewrite He. simpl. eexists. split; [reflexivity|]. simpl. repeat split. exact Hidx.
Qed.

(** C5. A pass of the catch-up loop sends an AppendEntries without entries
    and with [prevLogIndex = nextIndex - 1]; on success [matchIndex]
    becomes that [prevLogIndex]; on a mismatch [nextIndex] becomes
    [max(min(nextIndex - 1, resp.lastLogIndex + 1), 1)], which is at least
    1 and below the old [nextIndex] unless that was 1 already. *)
Theorem catchUp_pass_spec m matchIndex req o :
  U64.add matchIndex 1 <> nextIndex m ->
  1 <= nextIndex m < U64.modulus ->
  wf (mstorage m) ->
  (nextIndex m <> 1 ->
     first (mstorage m) <> 0 /\
     first (mstorage m) <= nextIndex m - 1 <= last (mstorage m)) ->
  exists req' r,
    catchUpPass m matchIndex req o = Some (req', r) /\
    entries req' = [] /\
    prevLogIndex req' = nextIndex m - 1 /\
    (forall os,
       catchUp (o :: os) m matchIndex req
       = match r with
         | Continue m' mi' req'' => catchUp os m' mi' req''
         | done => Some done
         end) /\
    (stop o = true -> r = Return m) /\
    (stop o = false -> success (resp o) = true ->
       exists m',
         r = Break m' (prevLogIndex req') req' /\
         matchIndexShared m' = prevLogIndex req' /\
         nextIndex m' = nextIndex m) /\
    (stop o = false -> success (resp o) = false ->
       exists m',
         (r = Return m' \/ r = Continue m' matchIndex req') /\
         nextIndex m'
         = Z.max (Z.min (nextIndex m - 1) (U64.add (lastLogIndex (resp o)) 1)) 1 /\
         1 <= nextIndex m' /\
         (2 <= nextIndex m -> nextIndex m' < nextIndex m) /\
         matchIndexShared m' = matchIndexShared m).
Proof.
  intros Hguard Hni Hwf Hstored.
  destruct (fillEntries_zero (mstorage m) req (nextIndex m) Hni Hwf Hstored)
    as (req' & Hfill & Hent & Hprev & _).
  assert (Hsub : U64.sub (nextIndex m) 1 = nextIndex m - 1) by u64_lia.
  assert (Hpass : exists r, catchUpPass m matchIndex req o = Some (req', r)).
  { unfold catchUpPass. rewrite Hfill. simpl.
    destruct (stop o); [eauto|]. destruct (success (resp o)); [eauto|].
    destruct (stopAfter o); eauto. }
  destruct Hpass as [r Hr]. exists req', r.
  split; [exact Hr|]. split; [exact Hent|]. split; [exact Hprev|].
  split.
  { intros os. simpl.
    destruct (Z.eqb_spec (U64.add matchIndex 1) (nextIndex m)); [contradiction|].
    rewrite Hr. simpl. destruct r; reflexivity. }
  unfold catchUpPass in Hr. rewrite Hfill in Hr. simpl in Hr.
  split; [|split].
  - intros Hs. rewrite Hs in Hr. congruence.
  - intros Hs Hok. rewrite Hs, Hok in Hr. injection Hr as <-.
    eexists. split; [reflexivity|]. split; reflexivity.
  - intros Hs Hok. rewrite Hs, Hok in Hr.
    rewrite Util_max_spec, Util_min_spec, Hsub in Hr.
    pose proof (U64_add_range (lastLogIndex (resp o)) 1) as Hhint.
    unfold U64.inRange in Hhint.
    destruct (stopAfter o); injection Hr as <-; eexists;
      (split; [eauto|]); simpl; repeat split; lia.
Qed.
End CatchUp.

Section CatchUpWitness.
Local Open Scope Z_scope.
Import Storage Member.

Lemma wf_sampleLog : wf (mkStorage 1 3 Samples.sampleLog).
Proof.
  split; [|split].
  - unfold inv. simpl. u64_lia.
  - reflexivity.
  - intros k e Hk. simpl in *.
    destruct k as [|[|[|k]]]; simpl in Hk; try (injection Hk as <-; reflexivity).
    rewrite lookup_nil in Hk. discriminate.
Defined.

Example catchUpPass_mismatch :
  catchUpPass (mkMember (mkStorage 1 3 Samples.sampleLog) 4 0 []) 0
              (mkReq 2 "a" 0 3 2 [])
              (mkOutcome (mkResp 2 false 1) false false false)
  = Some (mkReq 2 "a" 0 3 2 [],
          Continue (mkMember (mkStorage 1 3 Samples.sampleLog) 2 0 []) 0 (mkReq 2 "a" 0 3 2 [])).
Proof. reflexivity. Qed.

Example catchUp_two_passes :
  catchUp [mkOutcome (mkResp 2 false 1) false false false;
           mkOutcome (mkResp 2 true 1) false false false]
          (mkMember (mkStorage 1 3 Samples.sampleLog) 4 0 []) 0 (mkReq 2 "a" 0 3 2 [])
  = Some (Break (mkMember (mkStorage 1 3 Samples.sampleLog) 2 1 [1]) 1 (mkReq 2 "a" 0 1 1 [])).
Proof. reflexivity. Qed.

Lemma catchUp_pass_spec_witness :
  exists req' r,
    catchUpPass (mkMember (mkStorage 1 3 Samples.sampleLog) 4 0 []) 0
                (mkReq 2 "a" 0 3 2 [])
                (mkOutcome (mkResp 2 false 1) false false false)
    = Some (req', r) /\
    entries req' = [] /\ prevLogIndex req' = 3.
Proof.
  destruct (catchUp_pass_spec (mkMember (mkStorage 1 3 Samples.sampleLog) 4 0 []) 0
              (mkReq 2 "a" 0 3 2 [])
              (mkOutcome (mkResp 2 false 1) false false false))
    as (req' & r & Hr & Hent & Hprev & _).
  - vm_compute. discriminate.
  - simpl. u64_lia.
  - exact wf_sampleLog.
  - intros _. simpl. lia.
  - exists req', r. split; [exact Hr|]. split; [exact Hent|]. exact Hprev.
Defined.
End CatchUpWitness.

(** ** Validation of a configuration *)

Section ValidateFacts.
Local Open Scope Z_scope.
Import Conf.

Lemma countVoters_filter nodes acc :
  countVoters nodes acc
  = acc + Z.of_nat (length (filter (fun p : ID * Node => Voter p.2 = true) nodes)).
Proof.
  revert acc. induction nodes as [|[nid n] rest IH]; intros acc; simpl.
  - lia.
  - rewrite filter_cons. simpl. destruct (Voter n) eqn:Hv.
    + rewrite decide_True by reflexivity. rewrite IH. simpl length. lia.
    + rewrite decide_False by discriminate. apply IH.
Qed.

(** The order in which the map yields its nodes does not matter to the
    count of voters. *)
Lemma countVoters_Permutation nodes nodes' acc :
  nodes ≡ₚ nodes' -> countVoters nodes acc = countVoters nodes' acc.
Proof.
  intros Hp. rewrite !countVoters_filter. now rewrite Hp.
Qed.

Lemma numVoters_nonneg c : 0 <= numVoters c.
Proof. unfold numVoters. rewrite countVoters_filter. lia. Qed.

Variable splitHostPort : string -> (string * string) + error.
Variable atoi : string -> option Z.

(** C10. Once every node has passed the per-node checks, [validate]
    answers "zero voters" exactly when the configuration has one voter; a
    configuration without any voter passes, so a validated configuration
    may have an empty voter set. *)
Theorem validate_rejects_exactly_one_voter :
  (forall nodes c,
     validateNodes splitHostPort atoi nodes ∅ = None ->
     numVoters c = 1 ->
     validateIn splitHostPort atoi nodes c = Some (errorsNew "zero voters")) /\
  (forall nodes c,
     validateNodes splitHostPort atoi nodes ∅ = None ->
     numVoters c <> 1 ->
     validateIn splitHostPort atoi nodes c = None) /\
  (forall nodes c,
     validateNodes splitHostPort atoi nodes ∅ = None ->
     numVoters c = 0 ->
     validateIn splitHostPort atoi nodes c = None) /\
  (forall nodes c,
     validateIn splitHostPort atoi nodes c = None -> numVoters c <> 1) /\
  (validate splitHostPort atoi (mkConfig ∅ 1 1) = None /\
   numVoters (mkConfig ∅ 1 1) = 0).
Proof.
  repeat split.
  - intros nodes c Hn Hv. unfold validateIn. rewrite Hn, Hv. reflexivity.
  - intros nodes c Hn Hv. unfold validateIn. rewrite Hn.
    destruct (Z.eqb_spec (numVoters c) 1); [contradiction|reflexivity].
  - intros nodes c Hn Hv. unfold validateIn. rewrite Hn, Hv. reflexivity.
  - intros nodes c Hval Hv. unfold validateIn in Hval.
    destruct (validateNodes splitHostPort atoi nodes ∅); [discriminate|].
    rewrite Hv in Hval. discriminate.
Qed.
End ValidateFacts.

Section ValidateWitness.
Local Open Scope Z_scope.
Import Conf Samples.

Example validate_single_voter_rejected :
  validate sampleSplitHostPort sampleAtoi (configOf [nodeA] 1 1)
  = Some (errorsNew "zero voters").
Proof. vm_compute. reflexivity. Qed.

Example validate_no_voter_accepted :
  validate sampleSplitHostPort sampleAtoi (configOf [nodeD] 1 1) = None /\
  numVoters (configOf [nodeD] 1 1) = 0.
Proof. vm_compute. split; reflexivity. Qed.

Example validate_three_voters_accepted :
  validate sampleSplitHostPort sampleAtoi (configOf [nodeA; nodeB; nodeC] 1 1) = None.
Proof. vm_compute. reflexivity. Qed.

Lemma validate_rejects_exactly_one_voter_witness :
  validateIn sampleSplitHostPort sampleAtoi [("a", nodeA)] (configOf [nodeA] 1 1)
  = Some (errorsNew "zero voters") /\
  validateIn sampleSplitHostPort sampleAtoi [("d", nodeD)] (configOf [nodeD] 1 1)
  = None.
Proof.
  destruct (validate_rejects_exactly_one_voter sampleSplitHostPort sampleAtoi)
    as (Hone & _ & Hzero & _).
  split.
  - apply Hone; vm_compute; reflexivity.
  - apply Hzero; vm_compute; reflexivity.
Defined.
End ValidateWitness.

(** ** The leader: commit advancement and lease *)

Section LeaderFacts.
Local Open Scope Z_scope.
Import Leader.

Lemma sortDecr_length (s : list Z) : length (Util.sortDecr s) = length s.
Proof. unfold Util.sortDecr. now rewrite merge_sort_Permutation. Qed.



Variable fsmApply : leaderState -> leaderState.
Hypothesis fsmApply_frame : keepsCommitView fsmApply.


End LeaderFacts.

Section LeaseFacts.
Local Open Scope Z_scope.
Import Leader.


Lemma timeSub_exact now t :
  Time.minDuration <= now - t <= Time.maxDuration -> Time.sub now t = now - t.
Proof.
  intros H. unfold Time.sub. rewrite Z.gtb_ltb.
  destruct (Z.ltb_spec Time.maxDuration (now - t)); [lia|].
  destruct (Z.ltb_spec (now - t) Time.minDuration); [lia|reflexivity].
Qed.

End LeaseFacts.

Section LeaderWitness.
Local Open Scope Z_scope.
Import Leader Samples.

Lemma sampleFsmApply_frame : keepsCommitView sampleFsmApply.
Proof. intros l. repeat split. Defined.

Example sample_commit_advances :
  majorityMatchIndex (sampleLeader 0) = Some 5 /\
  (commitIndex <$> commitAndApplyOnMajority sampleFsmApply 2 (sampleLeader 0)) = Some 5.
Proof. vm_compute. split; reflexivity. Qed.

(** With the no-op of the term at index 6 the same majority index 5 is
    from an earlier term and is not committed. *)
Example sample_commit_held_back :
  let l := withStartIndex 6 (sampleLeader 0) in
  commitAndApplyOnMajority sampleFsmApply 2 l = Some l.
Proof. vm_compute. reflexivity. Qed.


Example sample_lease_kept :
  onLeaseTick (noContactC + 2000000000) (sampleLeader 0)
  = Some (sampleLeader 0).
Proof. vm_compute. reflexivity. Qed.

Example sample_lease_within_window :
  onLeaseTick (noContactC + 2000000000) (sampleLeader (noContactC + 1500000000))
  = Some (sampleLeader (noContactC + 1500000000)).
Proof. vm_compute. reflexivity. Qed.

Example sample_lease_lost :
  (fun l => (state l, leaderID l))
    <$> onLeaseTick (noContactC + 2000000000) (sampleLeader noContactC)
  = Some (Follower, "").
Proof. vm_compute. reflexivity. Qed.


End LeaderWitness.

(** ** The majority match index *)

Section SortedFacts.
Local Open Scope Z_scope.

Global Instance decr_trans : Transitive Util.decr.
Proof. intros x y z. unfold Util.decr. lia. Qed.

Global Instance decr_total : Total Util.decr.
Proof. intros x y. unfold Util.decr. lia. Qed.

Global Instance decr_antisymm : AntiSymm (=) Util.decr.
Proof. intros x y. unfold Util.decr. lia. Qed.

Lemma sortDecr_sorted s : StronglySorted Util.decr (Util.sortDecr s).
Proof. apply StronglySorted_merge_sort; apply _. Qed.

Lemma sortDecr_Permutation s : Util.sortDecr s ≡ₚ s.
Proof. apply merge_sort_Permutation. Qed.

(** Sorting depends on the elements only, not on their order. *)
Lemma sortDecr_proper s s' : s ≡ₚ s' -> Util.sortDecr s = Util.sortDecr s'.
Proof.
  intros Hp. apply (StronglySorted_unique Util.decr); try apply sortDecr_sorted.
  now rewrite !sortDecr_Permutation.
Qed.





(** The [k]-th largest element is unique. *)
Lemma isKthLargest_unique (k : nat) (xs : list Z) (x y : Z) :
  LdrShip.isKthLargest k xs x -> LdrShip.isKthLargest k xs y -> x = y.
Proof.
  intros (_ & Hxgt & Hxge) (_ & Hygt & Hyge).
  destruct (Z.lt_total x y) as [Hlt|[Heq|Hlt]]; [exfalso|exact Heq|exfalso].
  - assert (Hsub : (length (filter (fun z => (y <= z)%Z) xs)
                    <= length (filter (fun z => (x < z)%Z) xs))%nat).
    { clear -Hlt. induction xs as [|z xs IH]; [reflexivity|].
      rewrite !filter_cons.
      destruct (decide (y <= z)), (decide (x < z)); simpl; lia. }
    lia.
  - assert (Hsub : (length (filter (fun z => (x <= z)%Z) xs)
                    <= length (filter (fun z => (y < z)%Z) xs))%nat).
    { clear -Hlt. induction xs as [|z xs IH]; [reflexivity|].
      rewrite !filter_cons.
      destruct (decide (x <= z)), (decide (y < z)); simpl; lia. }
    lia.
Qed.
End SortedFacts.

Section MajorityMatchIndex.
Local Open Scope Z_scope.
Import Conf LdrShip.

Lemma votersFollowed_cons l p nodes :
  votersFollowed l (p :: nodes) -> votersFollowed l nodes.
Proof. intros H q Hq. apply H. now right. Qed.

Lemma votersFollowed_Permutation l nodes nodes' :
  nodes ≡ₚ nodes' -> votersFollowed l nodes -> votersFollowed l nodes'.
Proof. intros Hp H q Hq. apply H. now rewrite Hp. Qed.

Lemma collectMatched_spec l nodes :
  votersFollowed l nodes ->
  collectMatched l nodes = Some (voterIndices l nodes).
Proof.
  induction nodes as [|[nid n] nodes IH]; intros Hf; [reflexivity|].
  specialize (IH (votersFollowed_cons _ _ _ Hf)).
  unfold voterIndices in *. cbn [collectMatched omap list_omap].
  unfold voterIndex at 1. cbn [snd].
  destruct (Voter n) eqn:Hv; [|exact IH].
  destruct (decide (nodeID n = id (raft l))) as [Hself|Hpeer].
  - cbn [mbind option_bind]. rewrite IH. reflexivity.
  - destruct (Hf (nid, n)) as [f Hflr]; [now left | exact Hv | exact Hpeer |].
    cbn [snd] in Hflr. rewrite Hflr. cbn [fmap option_fmap option_map mbind option_bind].
    rewrite IH. reflexivity.
Qed.


Lemma voterIndices_Permutation l nodes nodes' :
  nodes ≡ₚ nodes' -> voterIndices l nodes ≡ₚ voterIndices l nodes'.
Proof. intros Hp. unfold voterIndices. now rewrite Hp. Qed.

(** The result does not depend on the order in which the map yields the
    nodes. *)
Lemma majorityMatchIndexIn_Permutation l nodes nodes' :
  nodes ≡ₚ nodes' -> votersFollowed l nodes ->
  majorityMatchIndexIn nodes' l = majorityMatchIndexIn nodes l.
Proof.
  intros Hp Hf. unfold majorityMatchIndexIn.
  rewrite (collectMatched_spec l nodes Hf).
  rewrite (collectMatched_spec l nodes' (votersFollowed_Permutation _ _ _ Hp Hf)).
  cbn [mbind option_bind].
  pose proof (voterIndices_Permutation l _ _ Hp) as Hv.
  rewrite <- (sortDecr_proper _ _ Hv).
  rewrite <- (Permutation_length Hp), <- (Permutation_length Hv). reflexivity.
Qed.

Lemma collectMatched_cons l nid n rest :
  collectMatched l ((nid, n) :: rest)
  = if Voter n then
      v ← voterIndex l (nid, n); vs ← collectMatched l rest; Some (v :: vs)
    else collectMatched l rest.
Proof.
  cbn [collectMatched]. unfold voterIndex. cbn [snd].
  destruct (Voter n); reflexivity.
Qed.

Lemma voterIndices_cons l p rest :
  voterIndices l (p :: rest)
  = match voterIndex l p with
    | Some v => v :: voterIndices l rest
    | None => voterIndices l rest
    end.
Proof. reflexivity. Qed.

(** The indices that are read are those of the voters only. *)
Lemma voterIndices_voters_only l l' nodes :
  id (raft l') = id (raft l) ->
  lastLogIndex (raft l') = lastLogIndex (raft l) ->
  (forall p, p ∈ nodes -> Voter p.2 = true ->
             matchIndex <$> flrs l' !! nodeID p.2 = matchIndex <$> flrs l !! nodeID p.2) ->
  voterIndices l' nodes = voterIndices l nodes /\
  collectMatched l' nodes = collectMatched l nodes.
Proof.
  intros Hid Hlast. induction nodes as [|[nid n] nodes IH]; intros Hsame.
  - split; reflexivity.
  - destruct IH as [IHv IHc]; [intros p Hp; apply Hsame; now right|].
    assert (Hhead : voterIndex l' (nid, n) = voterIndex l (nid, n)).
    { unfold voterIndex. cbn [snd]. rewrite Hid, Hlast.
      destruct (Voter n) eqn:Hv; [|reflexivity].
      destruct (decide (nodeID n = id (raft l))); [reflexivity|].
      apply (Hsame (nid, n)); [now left | exact Hv]. }
    rewrite !voterIndices_cons, !collectMatched_cons, Hhead, IHv, IHc.
    split; reflexivity.
Qed.

End MajorityMatchIndex.

Section MajorityMatchIndexWitness.
Local Open Scope Z_scope.
Import Conf LdrShip Samples.

Example sample_majorityMatchIndex :
  majorityMatchIndex (sampleLdrShip 9) = Some 5 /\
  majorityMatchIndex (sampleLdrShip 0) = Some 5.
Proof. vm_compute. split; reflexivity. Qed.

(** Without a voter the slot that is read was never written. *)
Example majorityMatchIndex_no_voter :
  majorityMatchIndex
    (mkLdrShip (withConfigs (mkConfigs (configOf [nodeD] 1 1) (configOf [nodeD] 1 1))
                  sampleRaft)
       true 5 [] (sampleFlrs 9) false)
  = Some 0.
Proof. vm_compute. reflexivity. Qed.


End MajorityMatchIndexWitness.

(** ** The apply loop *)

Section ApplyLoop.
Local Open Scope Z_scope.
Import Fsm.





Lemma selectSend_no_shutdown ne r :
  shutdown r = [] -> selectSend ne r = Next (send ne r).
Proof. intros H. unfold selectSend. rewrite H. reflexivity. Qed.











End ApplyLoop.

Section ApplyLoopClaims.
Local Open Scope Z_scope.
Import Fsm.

End ApplyLoopClaims.

Section ApplyLoopWitness.
Local Open Scope Z_scope.
Import Fsm Samples.

(** The leader applies 4 and 5, then sends the query queued at index 6. *)
Example sample_apply_leader :
  observe (applyCommitted 3 (sampleFsmRaft []) (Some sampleQueue))
  = Some (5, [4; 6], Some []).
Proof. vm_compute. reflexivity. Qed.

(** A follower reads the entries from the log. *)
Example sample_apply_follower :
  observe (applyCommitted 3 (sampleFsmRaft []) None) = Some (5, [4], None).
Proof. vm_compute. reflexivity. Qed.

(** A shutdown seen at the first send ends the loop before index 4 is
    counted as applied. *)
Example sample_apply_shutdown :
  observe (applyCommitted 3 (sampleFsmRaft [true]) (Some sampleQueue))
  = Some (3, [], Some [5; 6]).
Proof. vm_compute. reflexivity. Qed.


End ApplyLoopWitness.

(** ** The leader's entry store *)

Section Iterate.
Context {A : Type} (body : A -> option (flow A)) (R : A -> A -> Prop).
Hypothesis R_trans : forall a b c, R a b -> R b c -> R a c.
Hypothesis body_R :
  forall a f, body a = Some f ->
              match f with Next a' | Leave a' => R a a' end.

(** What every pass preserves, the loop preserves. *)
Lemma iterate_preserves fuel :
  forall a a', iterate body fuel a = Done a' -> R a a'.
Proof.
  induction fuel as [|fuel IH]; intros a a' Hrun; [discriminate|].
  cbn [iterate] in Hrun.
  destruct (body a) as [[a1|a1]|] eqn:Hb; [| |discriminate].
  - eapply R_trans; [exact (body_R _ _ Hb)|]. apply IH, Hrun.
  - injection Hrun as <-. exact (body_R _ _ Hb).
Qed.
End Iterate.

Section StoreEntryFacts.
Local Open Scope Z_scope.
Import Conf LdrShip.

Lemma sameLog_refl l : sameLog l l.
Proof. repeat split. Qed.

Lemma sameLog_trans l1 l2 l3 : sameLog l1 l2 -> sameLog l2 l3 -> sameLog l1 l3.
Proof. intros (A1 & A2 & A3) (B1 & B2 & B3). repeat split; congruence. Qed.

Lemma applyEntry_log ne r :
  storage (applyEntry ne r) = storage r /\
  lastLogIndex (applyEntry ne r) = lastLogIndex r /\
  lastLogTerm (applyEntry ne r) = lastLogTerm r /\
  lastApplied (applyEntry ne r) = lastApplied r /\
  commitIndex (applyEntry ne r) = commitIndex r.
Proof.
  unfold applyEntry. destruct (neTyp ne); try (repeat split; fail);
    destruct (closing r) as [|[|] c]; repeat split.
Qed.

Lemma drainNonLog_log q :
  forall r f,
    drainNonLog q r = Some f ->
    match f with
    | Next (r', _) | Leave (r', _) =>
        storage r' = storage r /\ lastLogIndex r' = lastLogIndex r /\
        lastLogTerm r' = lastLogTerm r /\ lastApplied r' = lastApplied r /\
        commitIndex r' = commitIndex r
    end.
Proof.
  induction q as [|ne rest IH]; intros r f Hd.
  - injection Hd as <-. repeat split.
  - cbn [drainNonLog] in Hd. destruct (nentry ne) as [e|]; [|discriminate].
    cbn [mbind option_bind] in Hd.
    destruct (_ && _).
    + destruct (closing r) as [|[|] c].
      * specialize (IH _ _ Hd). destruct f as [[r' q']|[r' q']]; exact IH.
      * injection Hd as <-. repeat split.
      * specialize (IH _ _ Hd). destruct f as [[r' q']|[r' q']]; exact IH.
    + injection Hd as <-. repeat split.
Qed.

Lemma applyPass_log l f :
  applyPass l = Some f ->
  match f with Next l' | Leave l' => sameLog l l' end.
Proof.
  unfold applyPass.
  destruct (drainNonLog (newEntries l) (raft l)) as [d|] eqn:Hd; [|discriminate].
  cbn [mbind option_bind]. pose proof (drainNonLog_log _ _ _ Hd) as Hlog.
  destruct d as [[r q]|[r q]].
  - destruct Hlog as (H1 & H2 & H3 & _).
    destruct (_ >? _).
    + intros [= <-]. repeat split; assumption.
    + destruct (match q with [] => _ | _ => _ end) as [[ne q']|]; [|discriminate].
      cbn [mbind option_bind].
      destruct (match nentry ne with Some _ => _ | None => _ end) as [e|]; [|discriminate].
      cbn [mbind option_bind]. intros [= <-].
      destruct (applyEntry_log (mkNewEntry (Some e) (task ne)) r) as (A1 & A2 & A3 & _).
      repeat split; simpl; congruence.
  - destruct Hlog as (H1 & H2 & H3 & _). intros [= <-]. repeat split; assumption.
Qed.

Lemma applyCommitted_log fuel l l' :
  applyCommitted fuel l = Done l' -> sameLog l l'.
Proof.
  apply (iterate_preserves applyPass sameLog sameLog_trans applyPass_log).
Qed.

Lemma setCommitIndex_log n r :
  storage (setCommitIndex n r) = storage r /\
  lastLogIndex (setCommitIndex n r) = lastLogIndex r /\
  lastLogTerm (setCommitIndex n r) = lastLogTerm r /\
  commitIndex (setCommitIndex n r) = n.
Proof.
  unfold setCommitIndex. destruct (_ && _); [|repeat split].
  destruct (_ && _); repeat split.
Qed.

Lemma onMajorityCommit_log fuel :
  forall l l', onMajorityCommit fuel l = Done l' -> sameLog l l'.
Proof.
  induction fuel as [|fuel IH]; intros l l' Hrun; [discriminate|].
  cbn [onMajorityCommit] in Hrun.
  destruct (majorityMatchIndex l) as [n|]; [|discriminate].
  destruct (_ && _); [|injection Hrun as <-; apply sameLog_refl].
  destruct (applyCommitted fuel _) as [l1| |] eqn:Ha; try discriminate.
  apply applyCommitted_log in Ha.
  destruct (setCommitIndex_log n (raft l)) as (S1 & S2 & S3 & _).
  assert (Hl1 : sameLog l l1).
  { destruct Ha as (A1 & A2 & A3). simpl in A1, A2, A3. repeat split; congruence. }
  destruct (voter (broadcast false l1)).
  - eapply sameLog_trans; [exact Hl1|]. apply (IH _ _) in Hrun.
    destruct Hrun as (B1 & B2 & B3). repeat split; assumption.
  - injection Hrun as <-. destruct Hl1 as (B1 & B2 & B3). repeat split; assumption.
Qed.

Lemma notifyFlr_log fuel c l l' :
  notifyFlr fuel c l = Done l' -> sameLog l l'.
Proof.
  unfold notifyFlr. destruct (voter _).
  - intros Hrun. apply onMajorityCommit_log in Hrun.
    destruct Hrun as (B1 & B2 & B3). repeat split; assumption.
  - intros [= <-]. repeat split.
Qed.
End StoreEntryFacts.

Section LdrApplyReturns.
Local Open Scope Z_scope.
Import Conf LdrShip.

Lemma drainNonLog_readable q :
  forall r,
    Forall (fun ne => is_Some (nentry ne)) q ->
    exists f, drainNonLog q r = Some f /\
              match f with
              | Next (_, q') | Leave (_, q') =>
                  Forall (fun ne => is_Some (nentry ne)) q'
              end.
Proof.
  induction q as [|ne rest IH]; intros r Hq.
  - eexists. split; [reflexivity|]. constructor.
  - pose proof Hq as Hq'. apply Forall_cons in Hq' as [[e He] Hrest].
    cbn [drainNonLog]. rewrite He. cbn [mbind option_bind].
    destruct (_ && _); [|eexists; split; [reflexivity | exact Hq]].
    destruct (closing r) as [|[|] c]; try (apply IH, Hrest).
    eexists. split; [reflexivity | exact Hrest].
Qed.

Lemma applyPass_readable_ldr l :
  readable l ->
  0 <= lastApplied (raft l) < U64.maxUint64 ->
  commitIndex (raft l) < U64.maxUint64 ->
  exists f, applyPass l = Some f /\
            match f with
            | Next l' =>
                readable l' /\
                lastApplied (raft l') = lastApplied (raft l) + 1 /\
                lastApplied (raft l) < commitIndex (raft l) /\
                commitIndex (raft l') = commitIndex (raft l)
            | Leave _ => True
            end.
Proof.
  intros [Hq Hlog] Hl Hc. unfold applyPass.
  destruct (drainNonLog_readable (newEntries l) (raft l) Hq) as (d & Hd & Hdq).
  rewrite Hd. cbn [mbind option_bind].
  pose proof (drainNonLog_log _ _ _ Hd) as Hfr.
  destruct d as [[r q]|[r q]]; [|eexists; split; [reflexivity | exact I]].
  destruct Hfr as (F1 & F2 & F3 & F4 & F5).
  assert (Hadd : U64.add (lastApplied r) 1 = lastApplied (raft l) + 1)
    by (rewrite F4; u64_lia).
  rewrite Hadd, Z.gtb_ltb.
  destruct (Z.ltb_spec (commitIndex r) (lastApplied (raft l) + 1));
    [eexists; split; [reflexivity | exact I]|].
  destruct (Hlog (lastApplied (raft l) + 1)) as [es Hes]; [lia|].
  assert (Hfront : exists ne q' e,
            match q with
            | elem :: rest =>
                nentry elem ≫= (fun e0 =>
                  if index e0 =? lastApplied (raft l) + 1
                  then Some (elem, rest) else Some (zeroNewEntry, q))
            | [] => Some (zeroNewEntry, q)
            end = Some (ne, q') /\
            match nentry ne with
            | Some e0 => Some e0
            | None => Storage.getEntry (storage r) (lastApplied (raft l) + 1)
            end = Some e /\
            Forall (fun ne => is_Some (nentry ne)) q').
  { destruct q as [|elem rest].
    - exists zeroNewEntry, [], es. split; [reflexivity|]. split; [|constructor].
      simpl. rewrite F1. exact Hes.
    - pose proof Hdq as Hdq'. apply Forall_cons in Hdq' as [[e0 He0] Hrest].
      rewrite He0. cbn [mbind option_bind].
      destruct (index e0 =? lastApplied (raft l) + 1).
      + exists elem, rest, e0. split; [reflexivity|]. split; [now rewrite He0 | exact Hrest].
      + exists zeroNewEntry, (elem :: rest), es. split; [reflexivity|].
        split; [simpl; rewrite F1; exact Hes | exact Hdq]. }
  destruct Hfront as (ne & q' & e & Hfront & He & Hq').
  rewrite Hfront. cbn [mbind option_bind]. rewrite He. cbn [mbind option_bind].
  eexists. split; [reflexivity|].
  destruct (applyEntry_log (mkNewEntry (Some e) (task ne)) r) as (A1 & A2 & A3 & A4 & A5).
  cbn [raft withNewEntries withRaft lastApplied commitIndex withLastApplied].
  assert (Hadd' : U64.add (lastApplied (applyEntry (mkNewEntry (Some e) (task ne)) r)) 1
                  = lastApplied (raft l) + 1) by (rewrite A4; exact Hadd).
  split; [|split; [exact Hadd'|split; [lia|congruence]]].
  split; [exact Hq'|].
  intros i Hi. cbn [raft withNewEntries withRaft lastApplied commitIndex withLastApplied storage] in *.
  rewrite A1, F1. apply Hlog. rewrite Hadd', A5, F5 in Hi. lia.
Qed.

(** With a readable queue and log, indices short of the largest [uint64],
    and fuel beyond the number of entries to apply, the apply loop of the
    leader returns. *)
Lemma applyCommitted_returns_ldr fuel :
  forall l,
    readable l ->
    0 <= lastApplied (raft l) < U64.maxUint64 ->
    commitIndex (raft l) < U64.maxUint64 ->
    (Z.to_nat (commitIndex (raft l) - lastApplied (raft l)) < fuel)%nat ->
    exists l', applyCommitted fuel l = Done l'.
Proof.
  unfold applyCommitted.
  induction fuel as [|fuel IH]; intros l Hread Hl Hc Hfuel; [lia|].
  cbn [iterate].
  destruct (applyPass_readable_ldr l Hread Hl Hc) as (f & Hf & Hfprop).
  rewrite Hf. destruct f as [l1|l1]; [|eauto].
  destruct Hfprop as (Hr1 & Hla & Hlt & Hci).
  apply IH; [exact Hr1 | lia | lia | lia].
Qed.
End LdrApplyReturns.

Section StoreEntryClaims.
Local Open Scope Z_scope.
Import Conf LdrShip.

Variable decodeNodes : list Byte.byte -> option (gmap string Node).

Lemma storeEntry_nonlog fuel appendResult ne l e0 :
  nentry ne = Some e0 ->
  typ e0 = entryRead \/ typ e0 = entryBarrier ->
  storeEntry decodeNodes fuel appendResult ne l
  = match applyCommitted fuel
            (withNewEntries (newEntries l ++ [mkNewEntry (Some (assigned l e0)) (task ne)]) l)
    with
    | Done l' => Done (l', Some (assigned l e0), None)
    | Panic => Panic
    | OutOfFuel => OutOfFuel
    end.
Proof.
  intros He Htyp. unfold storeEntry. rewrite He. cbv zeta.
  change (typ (assigned l e0)) with (typ e0).
  replace (bool_decide (typ e0 = entryRead) || bool_decide (typ e0 = entryBarrier))
    with true; [reflexivity|].
  symmetry. apply orb_true_iff.
  destruct Htyp as [H|H]; [left | right]; apply bool_decide_eq_true; exact H.
Qed.

Lemma storeEntry_log_entry fuel appendResult ne l l' stored err :
  storeEntry decodeNodes fuel appendResult ne l = Done (l', stored, err) ->
  exists e0,
    nentry ne = Some e0 /\ stored = Some (assigned l e0) /\
    ((Storage.log (storage (raft l')) = Storage.log (storage (raft l)) /\
      (typ e0 = entryRead \/ typ e0 = entryBarrier \/
       transferInProgress l = true \/ is_Some appendResult)) \/
     (Storage.log (storage (raft l'))
      = Storage.log (storage (raft l)) ++ [assigned l e0] /\
      lastLogIndex (raft l') = U64.add (lastLogIndex (raft l)) 1 /\
      lastLogTerm (raft l') = term (raft l) /\
      (typ e0 = entryNop \/ typ e0 = entryUpdate \/ typ e0 = entryConfig) /\
      transferInProgress l = false /\ appendResult = None)).
Proof.
  unfold storeEntry. destruct (nentry ne) as [e0|]; [|discriminate].
  cbv zeta. change (typ (assigned l e0)) with (typ e0).
  intros Hrun. exists e0. split; [reflexivity|].
  destruct (bool_decide (typ e0 = entryRead) || bool_decide (typ e0 = entryBarrier)) eqn:Hnonlog.
  - destruct (applyCommitted fuel _) as [l1| |] eqn:Ha; try discriminate.
    injection Hrun as <- <- <-. split; [reflexivity|]. left.
    apply applyCommitted_log in Ha. destruct Ha as (A1 & _). simpl in A1.
    split; [now rewrite A1|].
    apply orb_true_iff in Hnonlog.
    destruct Hnonlog as [H|H]; apply bool_decide_eq_true in H; tauto.
  - assert (Htyp : typ e0 = entryNop \/ typ e0 = entryUpdate \/ typ e0 = entryConfig).
    { apply orb_false_iff in Hnonlog. destruct Hnonlog as [H1 H2].
      apply bool_decide_eq_false in H1, H2. unfold entryRead in H1.
      destruct (typ e0); tauto. }
    cbn [transferInProgress withNewEntries] in Hrun.
    destruct (transferInProgress l) eqn:Htr.
    + injection Hrun as <- <- <-. split; [reflexivity|]. left. simpl. tauto.
    + destruct appendResult as [aerr|].
      * injection Hrun as <- <- <-. split; [reflexivity|]. left. simpl.
        split; [reflexivity|]. right. right. right. eauto.
      * match type of Hrun with
        | match ?c with Some _ => _ | None => _ end = _ =>
            destruct c as [lc|] eqn:Hconf; [|discriminate]
        end.
        destruct (notifyFlr fuel _ lc) as [l2| |] eqn:Hn; try discriminate.
        injection Hrun as <- <- <-. split; [reflexivity|]. right.
        apply notifyFlr_log in Hn. destruct Hn as (N1 & N2 & N3).
        assert (Hlc : storage (raft lc)
                      = Storage.append (storage (raft l)) (assigned l e0) /\
                      lastLogIndex (raft lc) = U64.add (lastLogIndex (raft l)) 1 /\
                      lastLogTerm (raft lc) = term (raft l)).
        { destruct (decide (typ e0 = entryConfig)).
          - destruct (decode decodeNodes _) as [config|]; [|discriminate].
            cbn [mbind option_bind] in Hconf. injection Hconf as <-. repeat split.
          - injection Hconf as <-. repeat split. }
        destruct Hlc as (L1 & L2 & L3).
        rewrite N1, N2, N3, L1, L2, L3. simpl. tauto.
Qed.

(** C3. A read or a barrier handed to [storeEntry] is queued with the
    index after [lastLogIndex] and the apply loop is run on it: nothing
    is appended, and the log, [lastLogIndex] and [lastLogTerm] are as
    before; with a readable queue and log the call returns. Whenever
    [storeEntry] returns, the log is as before or longer by the one
    entry, and it is longer only for a no-op, a command or a config. *)
Theorem storeEntry_nonlog_not_persisted :
  (forall fuel appendResult ne l e0,
     nentry ne = Some e0 ->
     typ e0 = entryRead \/ typ e0 = entryBarrier ->
     let queued :=
       withNewEntries (newEntries l ++ [mkNewEntry (Some (assigned l e0)) (task ne)]) l in
     index (assigned l e0) = U64.add (lastLogIndex (raft l)) 1 /\
     (forall l' stored err,
        storeEntry decodeNodes fuel appendResult ne l = Done (l', stored, err) ->
        applyCommitted fuel queued = Done l' /\
        stored = Some (assigned l e0) /\ err = None /\
        storage (raft l') = storage (raft l) /\
        lastLogIndex (raft l') = lastLogIndex (raft l) /\
        lastLogTerm (raft l') = lastLogTerm (raft l)) /\
     (readable queued ->
      0 <= lastApplied (raft l) < U64.maxUint64 ->
      commitIndex (raft l) < U64.maxUint64 ->
      (Z.to_nat (commitIndex (raft l) - lastApplied (raft l)) < fuel)%nat ->
      exists l',
        storeEntry decodeNodes fuel appendResult ne l
        = Done (l', Some (assigned l e0), None))) /\
  (forall fuel appendResult ne l l' stored err,
     storeEntry decodeNodes fuel appendResult ne l = Done (l', stored, err) ->
     exists e,
       stored = Some e /\
       (Storage.log (storage (raft l')) = Storage.log (storage (raft l)) \/
        (Storage.log (storage (raft l')) = Storage.log (storage (raft l)) ++ [e] /\
         (typ e = entryNop \/ typ e = entryUpdate \/ typ e = entryConfig) /\
         index e = U64.add (lastLogIndex (raft l)) 1))).
Proof.
  split.
  - intros fuel appendResult ne l e0 He Htyp queued.
    split; [reflexivity|]. split.
    + intros l' stored err Hrun.
      rewrite (storeEntry_nonlog fuel appendResult ne l e0 He Htyp) in Hrun.
      fold queued in Hrun.
      destruct (applyCommitted fuel queued) as [l1| |] eqn:Ha; try discriminate.
      injection Hrun as <- <- <-.
      apply applyCommitted_log in Ha. destruct Ha as (A1 & A2 & A3).
      repeat split; assumption.
    + intros Hread Hl Hc Hfuel.
      rewrite (storeEntry_nonlog fuel appendResult ne l e0 He Htyp). fold queued.
      destruct (applyCommitted_returns_ldr fuel queued Hread Hl Hc Hfuel) as [l' Hl'].
      rewrite Hl'. eauto.
  - intros fuel appendResult ne l l' stored err Hrun.
    destruct (storeEntry_log_entry _ _ _ _ _ _ _ Hrun) as (e0 & _ & Hst & Hcases).
    exists (assigned l e0). split; [exact Hst|].
    destruct Hcases as [[Hlog _]|(Hlog & _ & _ & Htyp & _)]; [left; exact Hlog|].
    right. split; [exact Hlog|]. split; [exact Htyp | reflexivity].
Qed.
End StoreEntryClaims.

Section StoreEntryWitness.
Local Open Scope Z_scope.
Import Conf LdrShip Samples.

(** A read submitted while index 4 and 5 are not yet committed stays in
    the queue under index 6; the log keeps its five entries. *)
Example sample_store_read :
  observeStore (storeEntry (fun _ => None) 3 None
                  (mkNewEntry (Some (mkEntry 0 0 entryRead [])) 7) (sampleLdrShip 9))
  = Some ([1; 2; 3; 4; 5], 5, [6], [], None).
Proof. vm_compute. reflexivity. Qed.

(** A barrier submitted when everything is applied goes to the state
    machine at once; the log keeps its five entries. *)
Example sample_store_barrier :
  observeStore (storeEntry (fun _ => None) 5 None
                  (mkNewEntry (Some (mkEntry 0 0 entryBarrier [])) 7)
                  (withRaft (withLastApplied 5 (withCommitIndex 5 sampleRaft))
                     (sampleLdrShip 9)))
  = Some ([1; 2; 3; 4; 5], 5, [], [6], None).
Proof. vm_compute. reflexivity. Qed.

(** A command is appended at index 6. *)
Example sample_store_update :
  observeStore (storeEntry (fun _ => None) 6 None
                  (mkNewEntry (Some (mkEntry 0 0 entryUpdate [])) 7) (sampleLdrShip 9))
  = Some ([1; 2; 3; 4; 5; 6], 6, [6], [4], None).
Proof. vm_compute. reflexivity. Qed.

Lemma sample_queued_readable :
  readable
    (withNewEntries
       (newEntries (sampleLdrShip 9)
        ++ [mkNewEntry (Some (assigned (sampleLdrShip 9) (mkEntry 0 0 entryRead []))) 7])
       (sampleLdrShip 9)).
Proof.
  split.
  - simpl. repeat constructor; eauto.
  - intros i Hi. simpl in Hi. lia.
Defined.

Lemma storeEntry_nonlog_not_persisted_witness :
  exists l',
    storeEntry (fun _ => None) 3 None
      (mkNewEntry (Some (mkEntry 0 0 entryRead [])) 7) (sampleLdrShip 9)
    = Done (l', Some (assigned (sampleLdrShip 9) (mkEntry 0 0 entryRead [])), None) /\
    storage (raft l') = storage (raft (sampleLdrShip 9)).
Proof.
  destruct (storeEntry_nonlog_not_persisted (fun _ => None)) as [Hnonlog _].
  destruct (Hnonlog 3%nat None (mkNewEntry (Some (mkEntry 0 0 entryRead [])) 7)
              (sampleLdrShip 9) (mkEntry 0 0 entryRead []))
    as (_ & Hframe & Hreturns).
  - reflexivity.
  - left. reflexivity.
  - destruct Hreturns as [l' Hl'].
    + exact sample_queued_readable.
    + simpl. u64_lia.
    + simpl. u64_lia.
    + simpl. lia.
    + exists l'. split; [exact Hl'|].
      destruct (Hframe l' _ _ Hl') as (_ & _ & _ & Hst & _). exact Hst.
Defined.
End StoreEntryWitness.

(** ** Configuration change *)

Section ChangeConfigFacts.
Local Open Scope Z_scope.
Import Conf LdrShip.

Lemma elem_of_votersOf c nid : nid ∈ votersOf c <-> isVoter c nid = true.
Proof.
  unfold votersOf, isVoter. rewrite elem_of_dom. split.
  - intros [n Hn]. apply map_lookup_filter_Some in Hn as [Hn Hv].
    rewrite Hn. exact Hv.
  - destruct (Nodes c !! nid) as [n|] eqn:Hn; [|discriminate].
    intros Hv. exists n. apply map_lookup_filter_Some. split; assumption.
Qed.

(** The loop leaves in each set what the other does not have. *)
Lemma removeCommon_order order :
  forall cur new,
    removeCommon order cur new
    = (cur ∖ (list_to_set order ∩ new), new ∖ list_to_set order).
Proof.
  induction order as [|v order IH]; intros cur new; cbn [removeCommon].
  - f_equal; set_solver.
  - destruct (decide (v ∈ new)) as [Hin|Hout]; rewrite IH; f_equal;
      apply set_eq; intros x; set_solver.
Qed.

Lemma removeCommon_spec cur new :
  removeCommon (elements cur) cur new = (cur ∖ new, new ∖ cur).
Proof.
  rewrite removeCommon_order. rewrite list_to_set_elements_L.
  f_equal; set_solver.
Qed.
End ChangeConfigFacts.

Section ChangeConfigClaims.
Local Open Scope Z_scope.
Import Conf LdrShip.

Variable encodeNodes : gmap string Node -> list Byte.byte.
Variable decodeNodes : list Byte.byte -> option (gmap string Node).
Variable splitHostPort : string -> (string * string) + error.
Variable atoi : string -> option Z.
Variable syncRepls : Config -> ldrShip -> ldrShip.

(** Whatever error the task is answered with at once, the leader is as
    before: nothing was stored and [Latest] did not move. *)
Lemma changeConfig_error_keeps_state fuel appendResult newConf task l l' err :
  changeConfig encodeNodes decodeNodes splitHostPort atoi syncRepls fuel appendResult newConf task l = Done (l', Some err) -> l' = l.
Proof.
  unfold changeConfig.
  destruct (negb (IsCommitted _)); [intros [= <- _]; reflexivity|].
  destruct (_ <? _); [intros [= <- _]; reflexivity|].
  destruct (negb _); [intros [= <- _]; reflexivity|].
  destruct (validate _ _ _); [intros [= <- _]; reflexivity|].
  rewrite removeCommon_spec.
  destruct (_ >? 0); [intros [= <- _]; reflexivity|].
  destruct (_ >? 1); [intros [= <- _]; reflexivity|].
  destruct (storeEntry _ _ _ _ _) as [[[l1 st] e]| |]; discriminate.
Qed.

(** The checks that come after the three on indices and after
    validation. *)
Lemma changeConfig_voter_checks fuel appendResult newConf task l :
  IsCommitted (configs (raft l)) = true ->
  startIndex l <= commitIndex (raft l) ->
  Index newConf = Index (Latest (configs (raft l))) ->
  validate splitHostPort atoi newConf = None ->
  let cur := votersOf (Latest (configs (raft l))) in
  let new := votersOf newConf in
  (new ∖ cur <> ∅ -> changeConfig encodeNodes decodeNodes splitHostPort atoi syncRepls fuel appendResult newConf task l = Done (l, Some errNewVoters)) /\
  (new ∖ cur = ∅ -> (1 < size (cur ∖ new))%nat ->
   changeConfig encodeNodes decodeNodes splitHostPort atoi syncRepls fuel appendResult newConf task l = Done (l, Some errTwoVotersLost)).
Proof.
  intros Hcommitted Hready Hindex Hvalid cur new.
  unfold changeConfig. rewrite Hcommitted. cbn [negb].
  destruct (Z.ltb_spec (commitIndex (raft l)) (startIndex l)); [lia|].
  rewrite Hindex, Z.eqb_refl. cbn [negb]. rewrite Hvalid.
  rewrite removeCommon_spec. fold cur new.
  split.
  - intros Hnew.
    assert (size (new ∖ cur) <> 0%nat)
      by (intros Hz; apply size_empty_iff in Hz; apply Hnew; set_solver).
    rewrite Z.gtb_ltb. destruct (Z.ltb_spec 0 (Z.of_nat (size (new ∖ cur)))); [reflexivity|lia].
  - intros Hnone Hlost. rewrite Hnone, size_empty, !Z.gtb_ltb.
    change (0 <? Z.of_nat 0) with false. cbv iota. destruct (Z.ltb_spec 1 (Z.of_nat (size (cur ∖ new)))); [reflexivity|lia].
Qed.

Lemma changeConfig_always_error_on_voter_checks fuel appendResult newConf task l :
  let cur := votersOf (Latest (configs (raft l))) in
  let new := votersOf newConf in
  new ∖ cur <> ∅ \/ (1 < size (cur ∖ new))%nat ->
  exists err, changeConfig encodeNodes decodeNodes splitHostPort atoi syncRepls fuel appendResult newConf task l = Done (l, Some err).
Proof.
  intros cur new Hbad. unfold changeConfig.
  destruct (negb (IsCommitted _)); [eauto|].
  destruct (_ <? _); [eauto|].
  destruct (negb _); [eauto|].
  destruct (validate _ _ _); [eauto|].
  rewrite removeCommon_spec. fold cur new.
  rewrite !Z.gtb_ltb.
  destruct (Z.ltb_spec 0 (Z.of_nat (size (new ∖ cur)))); [eauto|].
  destruct (Z.ltb_spec 1 (Z.of_nat (size (cur ∖ new)))); [eauto|].
  exfalso. destruct Hbad as [Hnew|Hlost]; [|lia].
  assert (size (new ∖ cur) <> 0%nat)
    by (intros Hz; apply size_empty_iff in Hz; apply Hnew; set_solver).
  lia.
Qed.

(** C6. [changeConfig] answers [ErrConfigChangeInProgress] when
    [Latest.Index <> Committed.Index]; an error, [ErrNotCommitReady] when
    the first check passes, when [commitIndex < startIndex]; an error
    when the proposed configuration has a voter that is not a voter yet,
    and an error when more than one voter loses its vote, each with a
    message of its own when the earlier checks pass; the four errors are
    distinct, and with every error the leader state is as before. *)
Theorem changeConfig_preconditions fuel appendResult newConf task l :
  let cur := votersOf (Latest (configs (raft l))) in
  let new := votersOf newConf in
  (Index (Latest (configs (raft l))) <> Index (Committed (configs (raft l))) ->
   changeConfig encodeNodes decodeNodes splitHostPort atoi syncRepls fuel appendResult newConf task l = Done (l, Some ErrConfigChangeInProgress)) /\
  (commitIndex (raft l) < startIndex l ->
   exists err,
     changeConfig encodeNodes decodeNodes splitHostPort atoi syncRepls fuel appendResult newConf task l = Done (l, Some err) /\
     (Index (Latest (configs (raft l))) = Index (Committed (configs (raft l))) ->
      err = ErrNotCommitReady)) /\
  ((exists nid, isVoter newConf nid = true /\
                isVoter (Latest (configs (raft l))) nid = false) ->
   exists err,
     changeConfig encodeNodes decodeNodes splitHostPort atoi syncRepls fuel appendResult newConf task l = Done (l, Some err) /\
     (Index (Latest (configs (raft l))) = Index (Committed (configs (raft l))) ->
      startIndex l <= commitIndex (raft l) ->
      Index newConf = Index (Latest (configs (raft l))) ->
      validate splitHostPort atoi newConf = None ->
      err = errNewVoters)) /\
  ((1 < size (cur ∖ new))%nat ->
   exists err,
     changeConfig encodeNodes decodeNodes splitHostPort atoi syncRepls fuel appendResult newConf task l = Done (l, Some err) /\
     (Index (Latest (configs (raft l))) = Index (Committed (configs (raft l))) ->
      startIndex l <= commitIndex (raft l) ->
      Index newConf = Index (Latest (configs (raft l))) ->
      validate splitHostPort atoi newConf = None ->
      new ∖ cur = ∅ ->
      err = errTwoVotersLost)) /\
  (forall l' err,
     changeConfig encodeNodes decodeNodes splitHostPort atoi syncRepls fuel appendResult newConf task l = Done (l', Some err) ->
     l' = l /\
     Storage.log (storage (raft l')) = Storage.log (storage (raft l)) /\
     Latest (configs (raft l')) = Latest (configs (raft l))) /\
  (ErrConfigChangeInProgress <> ErrNotCommitReady /\
   ErrConfigChangeInProgress <> errNewVoters /\
   ErrConfigChangeInProgress <> errTwoVotersLost /\
   ErrNotCommitReady <> errNewVoters /\
   ErrNotCommitReady <> errTwoVotersLost /\
   errNewVoters <> errTwoVotersLost).
Proof.
  intros cur new.
  assert (Hcommitted_iff :
            IsCommitted (configs (raft l)) = true <->
            Index (Latest (configs (raft l))) = Index (Committed (configs (raft l)))).
  { unfold IsCommitted. apply Z.eqb_eq. }
  split; [|split; [|split; [|split; [|split]]]].
  - intros Hne. unfold changeConfig.
    destruct (IsCommitted (configs (raft l))) eqn:Hc; [|reflexivity].
    exfalso. apply Hne, Hcommitted_iff. reflexivity.
  - intros Hlt. unfold changeConfig.
    destruct (IsCommitted (configs (raft l))) eqn:Hc; cbn [negb].
    + destruct (Z.ltb_spec (commitIndex (raft l)) (startIndex l)); [|lia].
      eexists. split; [reflexivity|]. reflexivity.
    + eexists. split; [reflexivity|]. intros Heq.
      apply Hcommitted_iff in Heq. congruence.
  - intros (nid & Hnew & Hcur).
    assert (Hne : new ∖ cur <> ∅).
    { assert (nid ∈ new ∖ cur); [|set_solver].
      apply elem_of_difference. split.
      - apply elem_of_votersOf, Hnew.
      - intros Hin. apply elem_of_votersOf in Hin. congruence. }
    destruct (changeConfig_always_error_on_voter_checks fuel appendResult newConf task l)
      as [err Herr]; [left; exact Hne|].
    exists err. split; [exact Herr|].
    intros Hc Hready Hidx Hvalid. apply Hcommitted_iff in Hc.
    destruct (changeConfig_voter_checks fuel appendResult newConf task l
                Hc Hready Hidx Hvalid) as [Hfirst _].
    rewrite (Hfirst Hne) in Herr. congruence.
  - intros Hlost.
    destruct (changeConfig_always_error_on_voter_checks fuel appendResult newConf task l)
      as [err Herr]; [right; exact Hlost|].
    exists err. split; [exact Herr|].
    intros Hc Hready Hidx Hvalid Hnone. apply Hcommitted_iff in Hc.
    destruct (changeConfig_voter_checks fuel appendResult newConf task l
                Hc Hready Hidx Hvalid) as [_ Hsecond].
    rewrite (Hsecond Hnone Hlost) in Herr. congruence.
  - intros l' err Hrun.
    rewrite (changeConfig_error_keeps_state _ _ _ _ _ _ _ Hrun). repeat split.
  - unfold errNewVoters, errTwoVotersLost. repeat split; discriminate.
Qed.
End ChangeConfigClaims.

Section ChangeConfigWitness.
Local Open Scope Z_scope.
Import Conf LdrShip Samples.

(** A change while the previous one is not committed. *)
Example sample_change_in_progress :
  let l := withRaft (withConfigs (mkConfigs (configOf [nodeA; nodeB; nodeC] 1 1)
                                            (configOf [nodeA; nodeB; nodeC; nodeD] 4 1))
                       (raft readyLdrShip)) readyLdrShip in
  sampleChangeConfig (configOf [nodeA; nodeB; nodeC] 4 1) l
  = Done (l, Some ErrConfigChangeInProgress).
Proof. vm_compute. reflexivity. Qed.

(** A change before the no-op of the term is committed. *)
Example sample_change_not_ready :
  sampleChangeConfig (configOf [nodeA; nodeB; nodeC] 1 1) (sampleLdrShip 5)
  = Done (sampleLdrShip 5, Some ErrNotCommitReady).
Proof. vm_compute. reflexivity. Qed.

(** "d" proposed as a voter at once. *)
Example sample_change_new_voter :
  sampleChangeConfig fourVoters readyLdrShip = Done (readyLdrShip, Some errNewVoters).
Proof. vm_compute. reflexivity. Qed.

(** "b" and "c" lose their vote in one change. *)
Example sample_change_two_voters_lost :
  sampleChangeConfig (configOf [nodeA; nodeDVoter] 1 1) fourVoterLdrShip
  = Done (fourVoterLdrShip, Some errTwoVotersLost).
Proof. vm_compute. reflexivity. Qed.

(** "c" alone loses its vote: the config entry is stored at index 6 and
    [Latest] moves to it. *)
Example sample_change_stored :
  (fun o => match o with
            | Done (l, err) =>
                Some (index <$> Storage.log (storage (raft l)),
                      Index (Latest (configs (raft l))), err)
            | _ => None
            end)
    (sampleChangeConfig (configOf [nodeA; nodeB; nodeD] 1 1) readyLdrShip)
  = Some ([1; 2; 3; 4; 5; 6], 6, None).
Proof. vm_compute. reflexivity. Qed.

Lemma changeConfig_preconditions_witness :
  exists err,
    sampleChangeConfig fourVoters readyLdrShip = Done (readyLdrShip, Some err).
Proof.
  destruct (changeConfig_preconditions sampleEncodeNodes sampleDecodeNodes
              sampleSplitHostPort sampleAtoi sampleSyncRepls 6 None fourVoters 9
              readyLdrShip)
    as (_ & _ & Hnew & _).
  destruct Hnew as (err & Herr & _).
  - exists "d". split; vm_compute; reflexivity.
  - exists err. exact Herr.
Defined.
End ChangeConfigWitness.

(** ** Commit advancement and lease of the later leader *)

Section LdrCommitFacts.
Local Open Scope Z_scope.
Import Conf LdrShip.

Lemma commitView_refl l : commitView l l.
Proof. repeat split. Qed.

Lemma commitView_trans l1 l2 l3 :
  commitView l1 l2 -> commitView l2 l3 -> commitView l1 l3.
Proof.
  intros (A1 & A2 & A3 & A4 & A5) (B1 & B2 & B3 & B4 & B5).
  repeat split; try congruence; intros k; rewrite B4; apply A4.
Qed.

Lemma majorityMatchIndex_commitView l l' :
  commitView l l' -> majorityMatchIndex l' = majorityMatchIndex l.
Proof.
  intros (Hid & Hlast & Hlatest & Hflrs & _).
  unfold majorityMatchIndex, majorityMatchIndexIn. rewrite Hlatest.
  destruct (voterIndices_voters_only l l'
              (map_to_list (Nodes (Latest (configs (raft l))))) Hid Hlast)
    as [_ Hc]; [intros p _ _; apply Hflrs|].
  rewrite Hc. reflexivity.
Qed.

Lemma applyEntry_view ne r :
  id (applyEntry ne r) = id r /\ configs (applyEntry ne r) = configs r.
Proof.
  unfold applyEntry. destruct (neTyp ne); try (split; reflexivity);
    destruct (closing r) as [|[|] c]; split; reflexivity.
Qed.

Lemma drainNonLog_view q :
  forall r f,
    drainNonLog q r = Some f ->
    match f with
    | Next (r', _) | Leave (r', _) => id r' = id r /\ configs r' = configs r
    end.
Proof.
  induction q as [|ne rest IH]; intros r f Hd.
  - injection Hd as <-. split; reflexivity.
  - cbn [drainNonLog] in Hd. destruct (nentry ne) as [e|]; [|discriminate].
    cbn [mbind option_bind] in Hd.
    destruct (_ && _).
    + destruct (closing r) as [|[|] c].
      * specialize (IH _ _ Hd). destruct f as [[r' q']|[r' q']]; exact IH.
      * injection Hd as <-. split; reflexivity.
      * specialize (IH _ _ Hd). destruct f as [[r' q']|[r' q']]; exact IH.
    + injection Hd as <-. split; reflexivity.
Qed.

Lemma applyPass_view l f :
  applyPass l = Some f ->
  match f with
  | Next l' | Leave l' =>
      commitView l l' /\ commitIndex (raft l') = commitIndex (raft l) /\
      voter l' = voter l
  end.
Proof.
  unfold applyPass.
  destruct (drainNonLog (newEntries l) (raft l)) as [d|] eqn:Hd; [|discriminate].
  cbn [mbind option_bind].
  pose proof (drainNonLog_log _ _ _ Hd) as Hlog.
  pose proof (drainNonLog_view _ _ _ Hd) as Hview.
  destruct d as [[r q]|[r q]].
  - destruct Hlog as (_ & H2 & _ & _ & H5). destruct Hview as [V1 V2].
    destruct (_ >? _).
    + intros [= <-]. unfold commitView. simpl. rewrite V1, V2, H2, H5. repeat split.
    + destruct (match q with [] => _ | _ => _ end) as [[ne q']|]; [|discriminate].
      cbn [mbind option_bind].
      destruct (match nentry ne with Some _ => _ | None => _ end) as [e|]; [|discriminate].
      cbn [mbind option_bind]. intros [= <-].
      destruct (applyEntry_log (mkNewEntry (Some e) (task ne)) r) as (_ & A2 & _ & _ & A5).
      destruct (applyEntry_view (mkNewEntry (Some e) (task ne)) r) as [W1 W2].
      unfold commitView. simpl. rewrite W1, W2, A2, A5, V1, V2, H2, H5. repeat split.
  - destruct Hlog as (_ & H2 & _ & _ & H5). destruct Hview as [V1 V2].
    intros [= <-]. unfold commitView. simpl. rewrite V1, V2, H2, H5. repeat split.
Qed.

Lemma applyCommitted_view fuel l l' :
  applyCommitted fuel l = Done l' ->
  commitView l l' /\ commitIndex (raft l') = commitIndex (raft l) /\ voter l' = voter l.
Proof.
  apply (iterate_preserves applyPass
           (fun a b => commitView a b /\ commitIndex (raft b) = commitIndex (raft a)
                       /\ voter b = voter a)).
  - intros a b c (A1 & A2 & A3) (B1 & B2 & B3).
    split; [eapply commitView_trans; eassumption|]. split; congruence.
  - exact applyPass_view.
Qed.

Lemma setCommitIndex_view n r :
  id (setCommitIndex n r) = id r /\
  Latest (configs (setCommitIndex n r)) = Latest (configs r).
Proof.
  unfold setCommitIndex. destruct (_ && _); [|split; reflexivity].
  destruct (_ && _); split; reflexivity.
Qed.

Lemma broadcast_view c l :
  commitView l (broadcast c l) /\
  commitIndex (raft (broadcast c l)) = commitIndex (raft l) /\
  voter (broadcast c l) = voter l.
Proof.
  unfold commitView, broadcast. simpl. repeat split.
  intros k. rewrite lookup_fmap. destruct (flrs l !! k); reflexivity.
Qed.

(** The commit step of [ldrShip] has the gate of [commitAndApplyOnMajority]:
    [commitIndex] becomes the majority index [n] exactly when
    [n > commitIndex] and [n >= startIndex]. *)
Lemma onMajorityCommit_gate fuel :
  forall l l' n,
    majorityMatchIndex l = Some n ->
    onMajorityCommit fuel l = Done l' ->
    (n > commitIndex (raft l) /\ n >= startIndex l -> commitIndex (raft l') = n) /\
    (~ (n > commitIndex (raft l) /\ n >= startIndex l) -> l' = l).
Proof.
  induction fuel as [|fuel IH]; intros l l' n Hn Hrun; [discriminate|].
  cbn [onMajorityCommit] in Hrun. rewrite Hn in Hrun.
  destruct ((n >? commitIndex (raft l)) && (n >=? startIndex l)) eqn:Hgate.
  - apply andb_true_iff in Hgate. destruct Hgate as [Hgt Hge].
    rewrite Z.gtb_ltb in Hgt. apply Z.ltb_lt in Hgt.
    rewrite Z.geb_leb in Hge. apply Z.leb_le in Hge.
    split; [intros _|intros Hno; exfalso; apply Hno; lia].
    set (l0 := withRaft (setCommitIndex n (raft l)) l) in *.
    assert (Hv0 : commitView l l0 /\ commitIndex (raft l0) = n).
    { destruct (setCommitIndex_log n (raft l)) as (_ & S2 & _ & S4).
      destruct (setCommitIndex_view n (raft l)) as [V1 V2].
      unfold commitView, l0. simpl. rewrite V1, V2, S2, S4. repeat split. }
    destruct Hv0 as [Hv0 Hc0].
    destruct (applyCommitted fuel l0) as [l1| |] eqn:Ha; try discriminate.
    destruct (applyCommitted_view _ _ _ Ha) as (Hv1 & Hc1 & _).
    destruct (broadcast_view false l1) as (Hv2 & Hc2 & _).
    set (l2 := broadcast false l1) in *.
    assert (Hv : commitView l l2)
      by (eapply commitView_trans; [|exact Hv2]; eapply commitView_trans; eassumption).
    assert (Hc : commitIndex (raft l2) = n) by congruence.
    destruct (voter l2).
    + assert (Hn2 : majorityMatchIndex l2 = Some n)
        by (rewrite (majorityMatchIndex_commitView _ _ Hv); exact Hn).
      destruct (IH _ _ _ Hn2 Hrun) as [_ Hsame].
      rewrite Hsame; [exact Hc|]. rewrite Hc. lia.
    + injection Hrun as <-. exact Hc.
  - injection Hrun as <-.
    apply andb_false_iff in Hgate.
    split; [|reflexivity].
    intros [Hgt Hge]. exfalso. destruct Hgate as [Hg|Hg].
    + rewrite Z.gtb_ltb in Hg. apply Z.ltb_ge in Hg. lia.
    + rewrite Z.geb_leb in Hg. apply Z.leb_gt in Hg. lia.
Qed.

Lemma countQuorum_spec l nodes :
  forall voters reachable,
    (forall p, p ∈ nodes -> Voter p.2 = true -> p.1 <> id (raft l) ->
               is_Some (flrs l !! p.1)) ->
    countQuorum l nodes voters reachable
    = Some (voters + Z.of_nat (length (filter (fun p : ID * Node => Voter p.2 = true) nodes)),
            reachable
            + Z.of_nat (length (filter
                (fun p : ID * Node =>
                   Voter p.2 = true /\
                   (p.1 = id (raft l) \/
                    (noContact <$> flrs l !! p.1) = Some 0)) nodes))).
Proof.
  induction nodes as [|[nid n] nodes IH]; intros voters reachable Hf.
  - simpl. f_equal. f_equal; lia.
  - assert (Hrest : forall p, p ∈ nodes -> Voter p.2 = true -> p.1 <> id (raft l) ->
                              is_Some (flrs l !! p.1))
      by (intros p Hp; apply Hf; now right).
    cbn [countQuorum]. rewrite !filter_cons. cbn [fst snd].
    destruct (Voter n) eqn:Hv.
    + rewrite (decide_True (P := true = true)) by reflexivity.
      destruct (decide (nid = id (raft l))) as [Hself|Hpeer].
      * cbn [mbind option_bind]. rewrite IH by exact Hrest.
        rewrite (decide_True (P := true = true /\ _)) by tauto.
        simpl length. f_equal. f_equal; lia.
      * destruct (Hf (nid, n)) as [f Hflr]; [now left | exact Hv | exact Hpeer |].
        cbn [fst] in Hflr. rewrite Hflr.
        cbn [fmap option_fmap option_map mbind option_bind].
        rewrite IH by exact Hrest. unfold Time.isZero.
        destruct (Z.eqb_spec (noContact f) 0) as [Hz|Hz].
        -- rewrite (decide_True (P := true = true /\ _)) by (rewrite Hz; tauto).
           simpl length. f_equal. f_equal; lia.
        -- rewrite (decide_False (P := true = true /\ _)).
           ++ simpl length. f_equal. f_equal; lia.
           ++ intros [_ [Hs|Hs]]; [contradiction|]. injection Hs as Hs. contradiction.
    + rewrite (decide_False (P := false = true)) by discriminate.
      rewrite (decide_False (P := false = true /\ _)) by (intros [Hc _]; discriminate).
      apply IH, Hrest.
Qed.

(** When the timer of [ldrShip] fires the leader counts the voters that
    are itself or have no failed contact on record, and steps down when
    they are fewer than the quorum. *)
Lemma onTimeout_spec l :
  let nodes : list (ID * Node) := map_to_list (Nodes (Latest (configs (raft l)))) in
  (forall p, p ∈ nodes -> Voter p.2 = true -> p.1 <> id (raft l) ->
             is_Some (flrs l !! p.1)) ->
  let reachable :=
    Z.of_nat (length (filter
      (fun p : ID * Node =>
         Voter p.2 = true /\
         (p.1 = id (raft l) \/ (noContact <$> flrs l !! p.1) = Some 0)) nodes)) in
  exists l',
    onTimeout l = Some l' /\
    (reachable < quorum (Latest (configs (raft l))) ->
     state (raft l') = Follower /\ leader (raft l') = "") /\
    (quorum (Latest (configs (raft l))) <= reachable ->
     state (raft l') = state (raft l) /\ leader (raft l') = leader (raft l)).
Proof.
  intros nodes Hf reachable.
  assert (Hq : 0 + Z.of_nat (length (filter (fun p : ID * Node => Voter p.2 = true) nodes))
               = numVoters (Latest (configs (raft l)))).
  { unfold numVoters. rewrite countVoters_filter. reflexivity. }
  assert (Hrun : onTimeout l
                 = if reachable >=? numVoters (Latest (configs (raft l))) / 2 + 1
                   then Some (if timerActive (raft l)
                              then withRaft (withTimerActive false (raft l)) l else l)
                   else Some (withRaft (withRole Follower "" (raft l)) l)).
  { unfold onTimeout, checkQuorum. fold nodes.
    rewrite (countQuorum_spec l nodes 0 0 Hf). cbn [mbind option_bind].
    rewrite Hq. reflexivity. }
  rewrite Hrun. unfold quorum. rewrite Z.geb_leb.
  destruct (Z.leb_spec (numVoters (Latest (configs (raft l))) / 2 + 1) reachable).
  - destruct (timerActive (raft l)); eexists; (split; [reflexivity|]);
      (split; [lia|]); intros _; split; reflexivity.
  - eexists. split; [reflexivity|]. split; [|lia].
    intros _. split; reflexivity.
Qed.
End LdrCommitFacts.

(** * Further properties *)

(** ** The storage facade: reading what was written *)

Section StorageReads.
Local Open Scope Z_scope.
Import Storage.

Lemma getEntry_offset s i :
  inv s -> first s <= i -> U64.inRange i ->
  getEntry s i = log s !! Z.to_nat (i - first s).
Proof.
  intros (Hz & Hle & Hf & Hl) Hi Hr. unfold getEntry.
  replace (U64.sub i (first s)) with (i - first s) by u64_lia. reflexivity.
Qed.

Lemma wf_length s : wf s -> first s <> 0 ->
  Z.of_nat (length (log s)) = last s - first s + 1.
Proof. intros (Hinv & Hlen & _) Hf. rewrite Hlen. now apply count_nonempty. Qed.

Lemma wf_empty_log s : wf s -> first s = 0 -> log s = [].
Proof.
  intros (Hinv & Hlen & _) Hf. apply length_zero_iff_nil.
  unfold count in Hlen. rewrite Hf in Hlen. simpl in Hlen. lia.
Qed.

Lemma getEntry_append_new s e :
  wf s -> index e <> 0 -> U64.inRange (index e) ->
  (first s <> 0 -> index e = last s + 1) ->
  getEntry (append s e) (index e) = Some e.
Proof.
  intros Hwf Hne Hr Hnext. pose proof Hwf as (Hinv & _ & _).
  destruct Hinv as (Hz & Hle & Hfr & Hlr).
  unfold getEntry, append. cbn [first log].
  destruct (Z.eqb_spec (first s) 0) as [Hf|Hf].
  - rewrite (wf_empty_log s Hwf Hf).
    replace (U64.sub (index e) (index e)) with 0 by u64_lia. reflexivity.
  - pose proof (wf_length s Hwf Hf) as Hlen. specialize (Hnext Hf).
    replace (U64.sub (index e) (first s)) with (Z.of_nat (length (log s))) by u64_lia.
    rewrite Nat2Z.id. rewrite lookup_app_r by lia.
    now rewrite Nat.sub_diag.
Qed.

Lemma getEntry_append_old s e i :
  wf s -> first s <> 0 -> first s <= i <= last s ->
  getEntry (append s e) i = getEntry s i.
Proof.
  intros Hwf Hf Hi. pose proof (wf_length s Hwf Hf) as Hlen.
  unfold getEntry, append. cbn [first log].
  destruct (Z.eqb_spec (first s) 0); [contradiction|].
  destruct Hwf as ((Hz & Hle & Hfr & Hlr) & _).
  assert (Hoff : U64.sub i (first s) = i - first s) by u64_lia.
  rewrite Hoff. apply lookup_app_l. lia.
Qed.

Lemma deleteLTE_is_Some s i :
  wf s -> U64.inRange i ->
  (is_Some (deleteLTE s i) <-> first s <> 0 /\ first s - 1 <= i <= last s).
Proof.
  intros Hwf Hi. pose proof Hwf as (Hinv & Hlen & _). split.
  - intros [s' Hs'].
    destruct (deleteLTE_fields s i s' Hinv Hi Hs') as (Hf & Hr & _). auto.
  - intros [Hf Hr]. pose proof (count_nonempty s Hinv Hf) as Hc.
    destruct Hinv as (Hz & Hle & Hfr & Hlr).
    unfold deleteLTE. rewrite Hc.
    destruct (Z.eqb_spec (last s - first s + 1) 0); [lia|].
    assert (Hn : U64.add (U64.sub i (first s)) 1 = i - first s + 1) by u64_lia.
    rewrite Hn, Z.gtb_ltb.
    destruct (Z.ltb_spec (last s - first s + 1) (i - first s + 1)); [lia|].
    unfold logDeleteFirst.
    destruct (Z.leb_spec (i - first s + 1) (Z.of_nat (length (log s)))); [|lia].
    destruct (i =? last s); eauto.
Qed.

Lemma deleteLTE_keeps s i s' j :
  wf s -> U64.inRange i -> deleteLTE s i = Some s' ->
  i < j <= last s -> getEntry s' j = getEntry s j.
Proof.
  intros Hwf Hi Hd Hj. pose proof Hwf as (Hinv & _ & _).
  destruct (deleteLTE_fields s i s' Hinv Hi Hd) as (Hf & Hr & _ & Hother & Hlog).
  pose proof (deleteLTE_inv s i s' Hinv Hi Hd) as Hinv'.
  destruct (Hother ltac:(lia)) as [E1 E2].
  pose proof Hinv as (Hz & Hle & Hfr & Hlr). unfold U64.inRange in *.
  rewrite (getEntry_offset s' j Hinv') by (unfold U64.inRange; lia).
  rewrite (getEntry_offset s j Hinv) by (unfold U64.inRange; lia).
  rewrite Hlog, lookup_drop, E1. f_equal. lia.
Qed.

Lemma deleteGTE_is_Some s i :
  wf s -> U64.inRange i ->
  (is_Some (deleteGTE s i) <->
   first s <> 0 /\
   (first s <= i <= last s + 1 \/ (i = 0 /\ last s = U64.maxUint64))).
Proof.
  intros Hwf Hi. pose proof Hwf as (Hinv & Hlen & _).
  destruct (Z.eq_dec (first s) 0) as [Hf|Hf].
  - split; [|tauto]. intros [s' Hs'].
    destruct (deleteGTE_fields s i s' Hinv Hi Hs') as (Hf' & _). contradiction.
  - pose proof (count_nonempty s Hinv Hf) as Hc.
    pose proof Hinv as (Hz & Hle & Hfr & Hlr).
    unfold deleteGTE. rewrite Hc.
    destruct (Z.eqb_spec (last s - first s + 1) 0); [lia|].
    rewrite Z.gtb_ltb. unfold logDeleteLast. rewrite Hlen, Hc.
    destruct (Z.ltb_spec (last s - first s + 1) (U64.add (U64.sub (last s) i) 1)) as [Hbig|Hfit].
    + split; [intros [? [=]]|]. intros [_ Hcases]. exfalso. u64_lia.
    + destruct (Z.leb_spec (U64.add (U64.sub (last s) i) 1) (last s - first s + 1)); [|lia].
      split; [|destruct (i =? first s); eauto].
      intros _. split; [exact Hf|]. u64_lia.
Qed.

Lemma deleteGTE_keeps s i s' j :
  wf s -> U64.inRange i -> deleteGTE s i = Some s' ->
  first s <= j < i -> j <= last s -> getEntry s' j = getEntry s j.
Proof.
  intros Hwf Hi Hd Hj Hjl. pose proof Hwf as (Hinv & _ & _).
  destruct (deleteGTE_fields s i s' Hinv Hi Hd) as (Hf & _ & Hother & Hlog).
  pose proof (deleteGTE_inv s i s' Hinv Hi Hd) as Hinv'.
  destruct (Hother ltac:(lia)) as (E1 & E2 & Hb).
  pose proof (wf_length s Hwf Hf) as Hlen.
  pose proof Hinv as (Hz & Hle & Hfr & Hlr). unfold U64.inRange in *.
  rewrite (getEntry_offset s' j Hinv') by (unfold U64.inRange; lia).
  rewrite (getEntry_offset s j Hinv) by (unfold U64.inRange; lia).
  rewrite Hlog, E1. apply lookup_take_lt.
  assert (Hn : U64.add (U64.sub (last s) i) 1 <= last s - j) by u64_lia.
  pose proof (U64_add_range (U64.sub (last s) i) 1) as Hnr. unfold U64.inRange in Hnr.
  lia.
Qed.
End StorageReads.

Section StorageExtras.
Local Open Scope Z_scope.
Import Storage.

(** X1. The facade stays well formed: after [init] on a well-formed log,
    and across [append] of the entry after [last] (or of any entry with a
    non-zero index on an empty store), [deleteLTE] and [deleteGTE], the
    number of stored entries is [count] and the k-th stored entry has the
    index [first + k]. *)
Theorem storage_count_matches_log :
  (forall l, logWellFormed l -> wf (init (mkStorage 0 0 l))) /\
  (forall s e,
     wf s -> index e <> 0 -> U64.inRange (index e) ->
     (first s <> 0 -> index e = last s + 1) ->
     wf (append s e)) /\
  (forall s i s', wf s -> U64.inRange i -> deleteLTE s i = Some s' -> wf s') /\
  (forall s i s', wf s -> U64.inRange i -> deleteGTE s i = Some s' -> wf s').
Proof.
  split; [exact init_wf|]. split; [exact append_wf|].
  split; [exact deleteLTE_wf | exact deleteGTE_wf].
Qed.

Lemma storage_count_matches_log_witness :
  let s := mkStorage 5 7 [mkEntry 5 1 entryNop []; mkEntry 6 1 entryUpdate [];
                          mkEntry 7 2 entryUpdate []] in
  wf (append s (mkEntry 8 2 entryUpdate [])) /\
  (forall s', deleteLTE s 6 = Some s' -> wf s') /\
  (forall s', deleteGTE s 6 = Some s' -> wf s').
Proof.
  intros s.
  destruct storage_count_matches_log as (_ & Happ & Hlte & Hgte).
  split; [apply Happ; [apply wf_sample | simpl; lia | simpl; u64_lia | simpl; lia]|].
  split; [intros s'; apply Hlte; [apply wf_sample | u64_lia]|].
  intros s'; apply Hgte; [apply wf_sample | u64_lia].
Defined.

(** X2. An appended entry is read back under its index, and every entry
    stored before is still read as it was. *)
Theorem getEntry_after_append s e :
  wf s -> index e <> 0 -> U64.inRange (index e) ->
  (first s <> 0 -> index e = last s + 1) ->
  getEntry (append s e) (index e) = Some e /\
  (forall i, first s <> 0 -> first s <= i <= last s ->
             getEntry (append s e) i = getEntry s i).
Proof.
  intros Hwf Hne Hr Hnext. split.
  - now apply getEntry_append_new.
  - intros i Hf Hi. now apply getEntry_append_old.
Qed.

Lemma getEntry_after_append_witness :
  let s := mkStorage 5 7 [mkEntry 5 1 entryNop []; mkEntry 6 1 entryUpdate [];
                          mkEntry 7 2 entryUpdate []] in
  let e := mkEntry 8 2 entryUpdate [] in
  getEntry (append s e) 8 = Some e /\
  (forall i, first s <> 0 -> first s <= i <= last s ->
             getEntry (append s e) i = getEntry s i).
Proof.
  intros s e.
  apply (getEntry_after_append s e);
    [apply wf_sample | simpl; lia | simpl; u64_lia | simpl; lia].
Defined.

(** X3. On a well-formed store [deleteLTE(i)] returns, rather than
    panics, exactly when the store is not empty and
    [first - 1 <= i <= last]; it then leaves [last - i] entries, and every
    entry after [i] is read as before. *)
Theorem deleteLTE_removes_prefix s i :
  wf s -> U64.inRange i ->
  (is_Some (deleteLTE s i) <-> first s <> 0 /\ first s - 1 <= i <= last s) /\
  (forall s',
     deleteLTE s i = Some s' ->
     count s' = last s - i /\
     (forall j, i < j <= last s -> getEntry s' j = getEntry s j)).
Proof.
  intros Hwf Hi. split; [now apply deleteLTE_is_Some|].
  intros s' Hd. split.
  - pose proof Hwf as (Hinv & _ & _).
    destruct (deleteLTE_fields s i s' Hinv Hi Hd) as (Hf & Hr & Hlast & Hother & _).
    pose proof (deleteLTE_inv s i s' Hinv Hi Hd) as Hinv'.
    destruct (Z.eq_dec i (last s)) as [He|He].
    + destruct (Hlast He) as [E1 _]. unfold count. rewrite E1. simpl. lia.
    + destruct (Hother He) as [E1 E2].
      destruct Hinv as (_ & _ & Hfr & _). unfold U64.inRange in Hfr.
      rewrite (count_nonempty s' Hinv') by lia. lia.
  - intros j Hj. now apply (deleteLTE_keeps s i s' j).
Qed.

Lemma deleteLTE_removes_prefix_witness :
  let s := mkStorage 5 7 [mkEntry 5 1 entryNop []; mkEntry 6 1 entryUpdate [];
                          mkEntry 7 2 entryUpdate []] in
  (is_Some (deleteLTE s 6) <-> first s <> 0 /\ first s - 1 <= 6 <= last s) /\
  (forall s',
     deleteLTE s 6 = Some s' ->
     count s' = last s - 6 /\
     (forall j, 6 < j <= last s -> getEntry s' j = getEntry s j)).
Proof.
  intros s. apply (deleteLTE_removes_prefix s 6); [apply wf_sample | u64_lia].
Defined.

(** X4. On a well-formed store [deleteGTE(i)] returns, rather than
    panics, exactly when the store is not empty and
    [first <= i <= last + 1], or [i] is zero and [last] is the largest
    [uint64] (where [last - i + 1] wraps to zero); every entry before [i]
    is then read as before. *)
Theorem deleteGTE_removes_suffix s i :
  wf s -> U64.inRange i ->
  (is_Some (deleteGTE s i) <->
   first s <> 0 /\
   (first s <= i <= last s + 1 \/ (i = 0 /\ last s = U64.maxUint64))) /\
  (forall s',
     deleteGTE s i = Some s' ->
     forall j, first s <= j < i -> j <= last s -> getEntry s' j = getEntry s j).
Proof.
  intros Hwf Hi. split; [now apply deleteGTE_is_Some|].
  intros s' Hd j Hj Hjl. now apply (deleteGTE_keeps s i s' j).
Qed.

Lemma deleteGTE_removes_suffix_witness :
  let s := mkStorage 5 7 [mkEntry 5 1 entryNop []; mkEntry 6 1 entryUpdate [];
                          mkEntry 7 2 entryUpdate []] in
  (is_Some (deleteGTE s 6) <->
   first s <> 0 /\
   (first s <= 6 <= last s + 1 \/ (6 = 0 /\ last s = U64.maxUint64))) /\
  (forall s',
     deleteGTE s 6 = Some s' ->
     forall j, first s <= j < 6 -> j <= last s -> getEntry s' j = getEntry s j).
Proof.
  intros s. apply (deleteGTE_removes_suffix s 6); [apply wf_sample | u64_lia].
Defined.

(** X5. On a well-formed store [lastEntry] never answers an error: it
    answers nil when the store is empty and otherwise the entry stored
    last, whose index is [last]. *)
Theorem lastEntry_is_entry_at_last s :
  wf s ->
  (first s = 0 -> Restart.lastEntry s = Some None) /\
  (first s <> 0 ->
     exists e, Restart.lastEntry s = Some (Some e) /\
               index e = last s /\ getEntry s (last s) = Some e).
Proof.
  intros Hwf. split.
  - intros Hf. unfold Restart.lastEntry, count. rewrite Hf. reflexivity.
  - intros Hf. pose proof Hwf as (Hinv & Hlen & Hcont).
    pose proof (wf_length s Hwf Hf) as Hl.
    pose proof Hinv as (Hz & Hle & Hfr & Hlr).
    destruct (getEntry_wf s (last s) Hwf Hf ltac:(lia)) as (e & He & Hidx).
    exists e. split; [|split; assumption].
    unfold Restart.lastEntry. rewrite count_nonempty by assumption.
    destruct (Z.eqb_spec (last s - first s + 1) 0); [lia|].
    rewrite (getEntry_offset s (last s) Hinv) in He by (try assumption; lia).
    rewrite last_lookup.
    replace (Nat.pred (length (log s))) with (Z.to_nat (last s - first s)) by lia.
    rewrite He. reflexivity.
Qed.

Lemma lastEntry_is_entry_at_last_witness :
  let s := mkStorage 5 7 [mkEntry 5 1 entryNop []; mkEntry 6 1 entryUpdate [];
                          mkEntry 7 2 entryUpdate []] in
  exists e, Restart.lastEntry s = Some (Some e) /\
            index e = last s /\ getEntry s (last s) = Some e.
Proof.
  intros s. apply (lastEntry_is_entry_at_last s); [apply wf_sample | simpl; lia].
Defined.
End StorageExtras.


(** ** The replication worker *)

Section FillEntries.
Local Open Scope Z_scope.
Import Storage Member.

Lemma getEntry_beyond s i :
  wf s -> first s <> 0 -> last s < i -> U64.inRange i -> getEntry s i = None.
Proof.
  intros Hwf Hf Hi Hr. pose proof (wf_length s Hwf Hf) as Hlen.
  destruct Hwf as ((Hz & Hle & Hfr & Hlr) & _).
  unfold getEntry. apply lookup_ge_None_2.
  assert (U64.sub i (first s) = i - first s) by u64_lia. lia.
Qed.

Lemma fillEntries_range s req lo hi :
  wf s -> first s <> 0 ->
  first s <= lo -> lo <= hi -> hi <= last s ->
  (lo = 1 \/ first s <= lo - 1) ->
  exists req',
    fillEntries s req lo hi = Some req' /\
    reqTerm req' = reqTerm req /\ leaderID req' = leaderID req /\
    leaderCommitIndex req' = leaderCommitIndex req /\
    prevLogIndex req' = lo - 1 /\
    (lo = 1 -> prevLogTerm req' = 0) /\
    (lo <> 1 -> term <$> getEntry s (lo - 1) = Some (prevLogTerm req')) /\
    Z.of_nat (length (entries req')) = hi - lo + 1 /\
    (forall k e, entries req' !! k = Some e ->
                 getEntry s (lo + Z.of_nat k) = Some e /\ index e = lo + Z.of_nat k).
Proof.
  intros Hwf Hf Hlo Hle Hhi Hprev.
  pose proof Hwf as ((Hz & Hfl & Hfr & Hlr) & _).
  assert (Hn : U64.add (U64.sub hi lo) 1 = hi - lo + 1) by u64_lia.
  assert (Hall : Forall (is_Some ∘ (fun i => getEntry s (U64.add lo i))) (seqZ 0 (hi - lo + 1))).
  { apply Forall_seqZ. intros i Hi. simpl.
    assert (Hadd : U64.add lo i = lo + i) by u64_lia. rewrite Hadd.
    destruct (getEntry_wf s (lo + i) Hwf Hf ltac:(lia)) as (e & He & _).
    rewrite He. eauto. }
  destruct (mapM_is_Some_2 _ _ Hall) as [es Hes].
  assert (Hlen : Z.of_nat (length es) = hi - lo + 1).
  { rewrite <- (length_mapM _ _ _ Hes), length_seqZ. lia. }
  assert (Hlook : forall k e, es !! k = Some e ->
            getEntry s (lo + Z.of_nat k) = Some e /\ index e = lo + Z.of_nat k).
  { intros k e Hk. apply mapM_Some_1 in Hes.
    destruct (Forall2_lookup_r _ _ _ _ _ Hes Hk) as (i & Hi & Hget).
    apply lookup_seqZ in Hi. destruct Hi as [-> Hi].
    assert (Hadd : U64.add lo (0 + Z.of_nat k) = lo + Z.of_nat k) by u64_lia.
    rewrite Hadd in Hget. split; [exact Hget|].
    destruct (getEntry_wf s (lo + Z.of_nat k) Hwf Hf ltac:(lia)) as (e' & He' & Hidx).
    congruence. }
  unfold fillEntries. rewrite Hn, Hes.
  destruct (Z.eqb_spec lo 1) as [H1|H1].
  - cbn [mbind option_bind fst snd]. eexists. split; [reflexivity|].
    cbn [reqTerm leaderID leaderCommitIndex prevLogIndex prevLogTerm entries].
    repeat split; try reflexivity; try assumption; try lia.
    all: intros; try contradiction; try lia; try (eapply Hlook; eassumption).
  - assert (Hsub : U64.sub lo 1 = lo - 1) by u64_lia. rewrite Hsub.
    destruct (getEntry_wf s (lo - 1) Hwf Hf ltac:(lia)) as (e & He & Hidx).
    rewrite He. cbn [mbind option_bind fst snd]. eexists. split; [reflexivity|].
    cbn [reqTerm leaderID leaderCommitIndex prevLogIndex prevLogTerm entries].
    repeat split; try reflexivity; try assumption; try lia.
    all: intros; try lia; try (eapply Hlook; eassumption);
      try (rewrite He; reflexivity).
Qed.

Lemma fillEntries_beyond s req lo hi :
  wf s -> first s <> 0 -> first s <= lo -> lo <= hi -> last s < hi ->
  U64.inRange hi -> fillEntries s req lo hi = None.
Proof.
  intros Hwf Hf Hlo Hle Hhi Hr.
  pose proof Hwf as ((Hz & Hfl & Hfr & Hlr) & _).
  assert (Hn : U64.add (U64.sub hi lo) 1 = hi - lo + 1) by u64_lia.
  assert (Hnone : mapM (fun i => getEntry s (U64.add lo i)) (seqZ 0 (hi - lo + 1)) = None).
  { apply mapM_None_2, Exists_exists. exists (hi - lo). split.
    - apply elem_of_seqZ. lia.
    - assert (Hadd : U64.add lo (hi - lo) = hi) by u64_lia. rewrite Hadd.
      now apply getEntry_beyond. }
  unfold fillEntries. rewrite Hn, Hnone.
  destruct (if lo =? 1 then _ else _); reflexivity.
Qed.

(** X6. [fillEntries(req, min, max)] on a range of stored entries fills
    the request with the entries [min..max] in order, and with the index
    and term of the entry before [min] (zero and zero for [min = 1]); the
    other fields of the request are kept. It panics when [max] is beyond
    the last stored entry. *)
Theorem fillEntries_fills_range s req lo hi :
  wf s -> first s <> 0 -> first s <= lo -> lo <= hi ->
  (lo = 1 \/ first s <= lo - 1) ->
  (hi <= last s ->
   exists req',
     fillEntries s req lo hi = Some req' /\
     reqTerm req' = reqTerm req /\ leaderID req' = leaderID req /\
     leaderCommitIndex req' = leaderCommitIndex req /\
     prevLogIndex req' = lo - 1 /\
     (lo = 1 -> prevLogTerm req' = 0) /\
     (lo <> 1 -> term <$> getEntry s (lo - 1) = Some (prevLogTerm req')) /\
     Z.of_nat (length (entries req')) = hi - lo + 1 /\
     (forall k e, entries req' !! k = Some e ->
                  getEntry s (lo + Z.of_nat k) = Some e /\ index e = lo + Z.of_nat k)) /\
  (last s < hi -> U64.inRange hi -> fillEntries s req lo hi = None).
Proof.
  intros Hwf Hf Hlo Hle Hprev. split.
  - intros Hhi. now apply fillEntries_range.
  - intros Hhi Hr. now apply fillEntries_beyond.
Qed.

Lemma fillEntries_fills_range_witness :
  let s := mkStorage 1 3 Samples.sampleLog in
  let req := mkReq 2 "a" 0 0 0 [] in
  (exists req',
     fillEntries s req 2 3 = Some req' /\
     prevLogIndex req' = 1 /\ Z.of_nat (length (entries req')) = 2) /\
  fillEntries s req 2 4 = None.
Proof.
  intros s req. split.
  - destruct (fillEntries_fills_range s req 2 3) as [Hok _];
      [exact wf_sampleLog | simpl; lia | simpl; lia | lia | right; simpl; lia |].
    destruct Hok as (req' & H1 & _ & _ & _ & H2 & _ & _ & H3 & _); [simpl; lia|].
    exists req'. auto.
  - destruct (fillEntries_fills_range s req 2 4) as [_ Hno];
      [exact wf_sampleLog | simpl; lia | simpl; lia | lia | right; simpl; lia |].
    apply Hno; [simpl; lia | u64_lia].
Defined.
End FillEntries.

Section CatchUpLoop.
Local Open Scope Z_scope.
Import Storage Member.

(** X7. The catch-up loop of [replicate] on a log that starts at index 1:
    when the loop is left for the steady state, [matchIndex + 1] equals
    [nextIndex] (the comment at the head of the loop); [nextIndex] has
    not gone up and is still at least 1, and the storage is untouched. *)
Theorem catchUp_exit_invariant os m matchIndex req m' mi' req' :
  wf (mstorage m) ->
  1 <= nextIndex m < U64.modulus ->
  (nextIndex m <> 1 ->
     first (mstorage m) = 1 /\ nextIndex m - 1 <= last (mstorage m)) ->
  catchUp os m matchIndex req = Some (Break m' mi' req') ->
  U64.add mi' 1 = nextIndex m' /\
  1 <= nextIndex m' <= nextIndex m /\
  mstorage m' = mstorage m.
Proof.
  revert m matchIndex req.
  induction os as [|o os IH]; intros m matchIndex req Hwf Hni Hlog Hrun.
  - simpl in Hrun.
    destruct (Z.eqb_spec (U64.add matchIndex 1) (nextIndex m)) as [Hg|Hg];
      [|discriminate].
    injection Hrun as <- <- <-. repeat split; [exact Hg | lia | lia].
  - simpl in Hrun.
    destruct (Z.eqb_spec (U64.add matchIndex 1) (nextIndex m)) as [Hg|Hg].
    { injection Hrun as <- <- <-. repeat split; [exact Hg | lia | lia]. }
    assert (Hstored : nextIndex m <> 1 ->
              first (mstorage m) <> 0 /\
              first (mstorage m) <= nextIndex m - 1 <= last (mstorage m)).
    { intros H1. destruct (Hlog H1) as [Hf Hl]. lia. }
    destruct (fillEntries_zero (mstorage m) req (nextIndex m) Hni Hwf Hstored)
      as (rq & Hfill & _ & Hprev & _).
    unfold catchUpPass in Hrun. rewrite Hfill in Hrun.
    cbn [mbind option_bind] in Hrun.
    destruct (stop o); [discriminate|].
    destruct (success (resp o)).
    + cbn [snd] in Hrun. injection Hrun as <- <- <-.
      cbn [nextIndex mstorage setMatchIndex]. rewrite Hprev.
      repeat split; [u64_lia | lia | lia].
    + destruct (stopAfter o); [discriminate|]. cbn [snd] in Hrun.
      assert (Hsub : U64.sub (nextIndex m) 1 = nextIndex m - 1) by u64_lia.
      pose proof (U64_add_range (lastLogIndex (resp o)) 1) as Hrange.
      unfold U64.inRange in Hrange.
      apply IH in Hrun; cbn [nextIndex mstorage] in *;
        rewrite ?Util_max_spec, ?Util_min_spec, ?Hsub in *.
      * destruct Hrun as (H1 & H2 & H3). repeat split; [exact H1 | lia | lia | exact H3].
      * exact Hwf.
      * lia.
      * intros Hn1. destruct (Hlog ltac:(lia)) as [Hf Hl]. lia.
Qed.

Lemma catchUp_exit_invariant_witness :
  let m := mkMember (mkStorage 1 3 Samples.sampleLog) 4 0 [] in
  let m' := mkMember (mkStorage 1 3 Samples.sampleLog) 2 1 [1] in
  U64.add 1 1 = nextIndex m' /\
  1 <= nextIndex m' <= nextIndex m /\
  mstorage m' = mstorage m.
Proof.
  intros m m'.
  apply (catchUp_exit_invariant
           [mkOutcome (mkResp 2 false 1) false false false;
            mkOutcome (mkResp 2 true 1) false false false]
           m 0 (mkReq 2 "a" 0 3 2 []) m' 1 (mkReq 2 "a" 0 1 1 [])).
  - exact wf_sampleLog.
  - simpl. u64_lia.
  - intros _. simpl. lia.
  - reflexivity.
Defined.
End CatchUpLoop.

Section SteadyState.
Local Open Scope Z_scope.
Import Storage Member Replicate.

(** X8. The request of a steady-state pass, entered with
    [matchIndex + 1 = nextIndex]: while entries up to [lastIndex] are
    pending it carries the stored entries from [nextIndex] on, at most
    [maxAppendEntries] of them and not beyond [lastIndex], after the entry
    [matchIndex]; otherwise it is a heartbeat without entries whose
    [prevLogIndex] is [lastIndex] and whose [prevLogTerm] is the leader's
    term. *)
Theorem setupRequest_batch m matchIndex lastIndex req :
  wf (mstorage m) -> first (mstorage m) <> 0 ->
  0 <= matchIndex -> matchIndex + 1 = nextIndex m ->
  first (mstorage m) <= nextIndex m ->
  (matchIndex = 0 \/ first (mstorage m) <= matchIndex) ->
  lastIndex <= last (mstorage m) ->
  nextIndex m + Util.maxAppendEntries <= U64.modulus ->
  (matchIndex < lastIndex ->
   exists req',
     setupRequest m matchIndex lastIndex req = Some req' /\
     reqTerm req' = reqTerm req /\ leaderCommitIndex req' = leaderCommitIndex req /\
     prevLogIndex req' = matchIndex /\
     Z.of_nat (length (entries req'))
     = Z.min (lastIndex - matchIndex) Util.maxAppendEntries /\
     (forall k e, entries req' !! k = Some e ->
                  getEntry (mstorage m) (nextIndex m + Z.of_nat k) = Some e /\
                  index e = nextIndex m + Z.of_nat k /\ index e <= lastIndex)) /\
  (lastIndex <= matchIndex ->
   setupRequest m matchIndex lastIndex req
   = Some (mkReq (reqTerm req) (leaderID req) (leaderCommitIndex req)
                 lastIndex (reqTerm req) [])).
Proof.
  intros Hwf Hf Hm Hinv Hfirst Hprev Hlast Hroom. split.
  - intros Hpending. unfold setupRequest.
    destruct (Z.ltb_spec matchIndex lastIndex); [|lia].
    rewrite Util_min_spec.
    assert (Hmax : U64.sub (U64.add (nextIndex m) Util.maxAppendEntries) 1
                   = nextIndex m + Util.maxAppendEntries - 1).
    { unfold Util.maxAppendEntries in *. u64_lia. }
    rewrite Hmax.
    set (hi := Z.min lastIndex (nextIndex m + Util.maxAppendEntries - 1)).
    assert (Hhi : nextIndex m <= hi /\ hi <= lastIndex /\
                  hi - nextIndex m + 1 = Z.min (lastIndex - matchIndex) Util.maxAppendEntries).
    { unfold hi, Util.maxAppendEntries. lia. }
    destruct Hhi as (Hlo & Hle & Hcount).
    destruct (fillEntries_range (mstorage m) req (nextIndex m) hi)
      as (req' & Hfill & Ht & _ & Hc & Hp & _ & _ & Hlen & Hlook);
      [assumption | assumption | assumption | assumption | lia | lia |].
    exists req'. split; [exact Hfill|]. split; [exact Ht|]. split; [exact Hc|].
    split; [lia|]. split; [lia|].
    intros k e Hk. destruct (Hlook k e Hk) as [Hget Hidx].
    split; [exact Hget|]. split; [exact Hidx|].
    apply lookup_lt_Some in Hk. lia.
  - intros Hidle. unfold setupRequest.
    destruct (Z.ltb_spec matchIndex lastIndex); [lia|reflexivity].
Qed.

Lemma setupRequest_batch_witness :
  let m := mkMember (mkStorage 1 3 Samples.sampleLog) 2 1 [1] in
  let req := mkReq 2 "a" 0 1 1 [] in
  exists req',
    setupRequest m 1 3 req = Some req' /\
    prevLogIndex req' = 1 /\
    Z.of_nat (length (entries req')) = Z.min (3 - 1) Util.maxAppendEntries.
Proof.
  intros m req.
  destruct (setupRequest_batch m 1 3 req) as [Hbatch _];
    [exact wf_sampleLog | simpl; lia | lia | reflexivity | simpl; lia
    | right; simpl; lia | simpl; lia | vm_compute; discriminate |].
  destruct Hbatch as (req' & H1 & _ & _ & H2 & H3 & _); [lia|].
  exists req'. auto.
Defined.
End SteadyState.

Section Contact.
Local Open Scope Z_scope.
Import Replicate.

Lemma contactRun_app calls calls' nc :
  contactRun (calls ++ calls') nc = contactRun calls' (contactRun calls nc).
Proof. unfold contactRun. apply foldl_app. Qed.

Lemma contactRun_failures calls nc :
  Forall (fun c => c.1 = false) calls -> nc <> 0 -> contactRun calls nc = nc.
Proof.
  intros Hall Hnc. induction Hall as [|[ok t] calls Hok _ IH]; [reflexivity|].
  simpl in Hok. subst ok. unfold contactRun in *. cbn [foldl fst snd].
  unfold recordContact at 2. unfold Time.isZero.
  destruct (Z.eqb_spec nc 0); [contradiction|]. exact IH.
Qed.

(** X9. The bookkeeping of [appendEntries] over a sequence of calls, the
    clock never showing the zero time: [noContact] is zero after a call
    that succeeded, and after failures it is the time of the first
    failure since the last success; without a success in between, a
    failure time recorded earlier is kept. *)
Theorem noContact_first_failure_since_success pre t fails nc :
  Forall (fun c => c.1 = false /\ c.2 <> 0) fails ->
  contactRun (pre ++ [(true, t)]) nc = 0 /\
  contactRun (pre ++ (true, t) :: fails) nc = from_option snd 0 (head fails) /\
  (nc <> 0 -> contactRun fails nc = nc).
Proof.
  intros Hfails.
  assert (Hok : contactRun (pre ++ [(true, t)]) nc = 0).
  { rewrite contactRun_app. reflexivity. }
  split; [exact Hok|]. split.
  - replace (pre ++ (true, t) :: fails) with ((pre ++ [(true, t)]) ++ fails)
      by (rewrite <- app_assoc; reflexivity).
    rewrite contactRun_app, Hok.
    destruct Hfails as [|[ok t1] fails [Hf Ht] Hrest]; [reflexivity|].
    simpl in Hf, Ht. subst ok. cbn [head from_option snd].
    change (contactRun ((false, t1) :: fails) 0) with (contactRun fails t1).
    apply contactRun_failures; [|exact Ht].
    eapply Forall_impl; [exact Hrest|]. intros c [Hc _]. exact Hc.
  - intros Hnc. apply contactRun_failures; [|exact Hnc].
    eapply Forall_impl; [exact Hfails|]. intros c [Hc _]. exact Hc.
Qed.

Lemma noContact_first_failure_since_success_witness :
  contactRun ([(false, 5)] ++ [(true, 7)]) 3 = 0 /\
  contactRun ([(false, 5)] ++ (true, 7) :: [(false, 9); (false, 11)]) 3 = 9 /\
  (3 <> 0 -> contactRun [(false, 9); (false, 11)] 3 = 3).
Proof.
  apply (noContact_first_failure_since_success [(false, 5)] 7 [(false, 9); (false, 11)] 3).
  repeat constructor; simpl; lia.
Defined.
End Contact.

Section ConnectionPool.
Local Open Scope Z_scope.
Import ConnPools.

Lemma last_removelast {A} (l : list A) x :
  list.last l = Some x -> l = removelast l ++ [x].
Proof.
  induction l as [|y l IH]; [discriminate|].
  destruct l as [|z l].
  - simpl. intros [= ->]. reflexivity.
  - intros Hl. change (list.last (y :: z :: l)) with (list.last (z :: l)) in Hl.
    change (removelast (y :: z :: l)) with (y :: removelast (z :: l)).
    simpl. f_equal. apply IH, Hl.
Qed.

Lemma getConn_spec dialed m :
  (connPool_ m = [] /\ getConn dialed m = (dialed, m)) \/
  (exists conn,
     list.last (connPool_ m) = Some conn /\
     getConn dialed m
     = (Some conn, mkPool (removelast (connPool_ m)) (maxConns m) (closed m))).
Proof.
  unfold getConn. destruct (connPool_ m) as [|c cs] eqn:Hp.
  - left. split; reflexivity.
  - right. destruct (decide (length (c :: cs) = 0%nat)) as [Hz|_]; [discriminate|].
    destruct (list.last (c :: cs)) as [conn|] eqn:Hl.
    + exists conn. split; reflexivity.
    + apply last_None in Hl. discriminate.
Qed.

(** X10. One [doRPC] of a member whose pool is within [maxConns]: the pool
    stays within [maxConns]; no connection is lost, each one that was
    pooled, closed or freshly dialed being pooled or closed afterwards;
    the call succeeds exactly when a connection was at hand, pooled or
    dialed, and the RPC went through; and after a failed RPC the
    connection used is closed, not pooled again. *)
Theorem doRPC_pool_bounded_no_leak dialed rpcFails m :
  Z.of_nat (length (connPool_ m)) <= maxConns m ->
  let '(ok, m') := doRPC dialed rpcFails m in
  maxConns m' = maxConns m /\
  Z.of_nat (length (connPool_ m')) <= maxConns m /\
  connPool_ m' ++ closed m'
  ≡ₚ connPool_ m ++ closed m
     ++ (if decide (connPool_ m = []) then option_list dialed else []) /\
  (ok = true <-> rpcFails = false /\ (connPool_ m <> [] \/ is_Some dialed)) /\
  (rpcFails = true -> connPool_ m' = removelast (connPool_ m)).
Proof.
  intros Hbound. unfold doRPC.
  destruct (getConn_spec dialed m) as [[Hempty Hget]|(conn & Hlast & Hget)];
    rewrite Hget.
  - rewrite Hempty in Hbound |- *. rewrite decide_True by reflexivity.
    cbn [length] in Hbound.
    destruct dialed as [conn|]; [destruct rpcFails|].
    + cbn [connPool_ maxConns closed option_list]. rewrite ?Hempty.
      split; [reflexivity|]. split; [exact Hbound|].
      split; [reflexivity|]. split; [|reflexivity].
      split; [discriminate|]. intros [? _]. discriminate.
    + unfold returnConn. rewrite Hempty. cbn [length].
      destruct (Z.ltb_spec (Z.of_nat 0) (maxConns m));
        cbn [connPool_ maxConns closed option_list]; rewrite ?Hempty.
      * split; [reflexivity|]. split; [simpl; lia|].
        split; [simpl; apply Permutation_cons_append|].
        split; [|discriminate]. split; [intros _; split; eauto|reflexivity].
      * split; [reflexivity|]. split; [simpl; lia|].
        split; [reflexivity|].
        split; [|discriminate]. split; [intros _; split; eauto|reflexivity].
    + cbn [option_list]. rewrite ?Hempty. split; [reflexivity|].
      split; [exact Hbound|].
      split; [rewrite app_nil_r; reflexivity|].
      split; [|reflexivity].
      split; [discriminate|]. intros [_ [H|[? H]]]; [contradiction|discriminate].
  - pose proof (last_removelast _ _ Hlast) as Hsplit.
    assert (Hne : connPool_ m <> []).
    { intros Hnil. rewrite Hnil in Hlast. discriminate. }
    rewrite decide_False by exact Hne. rewrite app_nil_r.
    assert (Hlen : length (connPool_ m) = S (length (removelast (connPool_ m)))).
    { rewrite Hsplit at 1. rewrite length_app. simpl. lia. }
    destruct rpcFails.
    + cbn [connPool_ maxConns closed].
      split; [reflexivity|]. split; [lia|].
      split.
      { rewrite Hsplit at 2. rewrite <- !app_assoc. apply Permutation_app_head.
        simpl. symmetry. apply Permutation_cons_append. }
      split; [|reflexivity]. split; [discriminate|]. intros [? _]. discriminate.
    + unfold returnConn. cbn [connPool_ maxConns closed].
      destruct (Z.ltb_spec (Z.of_nat (length (removelast (connPool_ m)))) (maxConns m));
        [|lia].
      cbn [connPool_ maxConns closed]. rewrite <- Hsplit.
      split; [reflexivity|]. split; [exact Hbound|].
      split; [reflexivity|]. split; [|discriminate].
      split; [intros _; split; [reflexivity|left; exact Hne]|reflexivity].
Qed.

Lemma doRPC_pool_bounded_no_leak_witness :
  let m := mkPool [4%nat; 7%nat] 3 [] in
  let '(ok, m') := doRPC (Some 9%nat) true m in
  maxConns m' = maxConns m /\
  Z.of_nat (length (connPool_ m')) <= maxConns m /\
  connPool_ m' ++ closed m'
  ≡ₚ connPool_ m ++ closed m
     ++ (if decide (connPool_ m = []) then option_list (Some 9%nat) else []) /\
  (ok = true <-> true = false /\ (connPool_ m <> [] \/ is_Some (Some 9%nat))) /\
  (true = true -> connPool_ m' = removelast (connPool_ m)).
Proof.
  intros m. apply (doRPC_pool_bounded_no_leak (Some 9%nat) true m). simpl. lia.
Defined.
End ConnectionPool.

Section Retry.
Local Open Scope Z_scope.
Import Member Replicate.

Variable backoff : Z -> Z.

Lemma retryLoop_spec atts req f w nc r :
  retryLoop backoff atts req f w nc = Some r ->
  exists pre a post,
    atts = pre ++ a :: post /\
    Forall retriedAfter pre /\
    (failed a = false \/ stopSeen a = true) /\
    retResp r = attResp a /\
    waits r = w ++ ((fun i => backoff (U64.wrap (f + i))) <$> seqZ 1 (Z.of_nat (length pre))) /\
    retStop r = failed a || (respTerm (attResp a) >? reqTerm req) /\
    newTermSent r
    = (if negb (failed a) && (respTerm (attResp a) >? reqTerm req) && negb (stopSeen a)
       then Some (respTerm (attResp a)) else None) /\
    (failed a = false -> retNoContact r = 0).
Proof.
  revert f w nc. induction atts as [|a atts IH]; intros f w nc Hrun; [discriminate|].
  cbn [retryLoop] in Hrun.
  destruct (failed a) eqn:Hfa.
  - destruct (stopSeen a) eqn:Hsa.
    + injection Hrun as <-. exists [], a, atts. cbn.
      rewrite Hfa, Hsa, app_nil_r. repeat split; auto. discriminate.
    + apply IH in Hrun.
      destruct Hrun as (pre & b & post & -> & Hpre & Hb & Hresp & Hw & Hstop & Hnew & Hnc).
      exists (a :: pre), b, post.
      split; [reflexivity|]. split; [constructor; [split; assumption | exact Hpre]|].
      split; [exact Hb|]. split; [exact Hresp|].
      split; [|split; [exact Hstop|split; [exact Hnew|exact Hnc]]].
      rewrite Hw, <- app_assoc. f_equal. cbn [length].
      rewrite Nat2Z.inj_succ, <- Z.add_1_r.
      rewrite (seqZ_cons 1 (Z.of_nat (length pre) + 1)) by lia.
      rewrite fmap_cons. cbn [app].
      apply (f_equal2 cons); [reflexivity|].
      replace (Z.succ 1) with (1 + 1) by lia.
      replace (Z.pred (Z.of_nat (length pre) + 1)) with (Z.of_nat (length pre)) by lia.
      rewrite <- (fmap_add_seqZ 1 1), <- list_fmap_compose.
      apply list_fmap_ext. intros _ i _. cbn. f_equal.
      unfold U64.add, U64.wrap. rewrite Zplus_mod_idemp_l. f_equal. lia.
  - exists [], a, atts. cbn [app length Z.of_nat seqZ].
    destruct (Z.gtb (respTerm (attResp a)) (reqTerm req)) eqn:Hterm;
      injection Hrun as <-; cbn; rewrite ?Hfa, ?Hterm, ?app_nil_r;
      repeat split; auto; destruct (stopSeen a); reflexivity.
Qed.

Lemma retryLoop_returns atts req f w nc :
  is_Some (retryLoop backoff atts req f w nc)
  <-> Exists (fun a => failed a = false \/ stopSeen a = true) atts.
Proof.
  revert f w nc. induction atts as [|a atts IH]; intros f w nc.
  - split; [intros [? [=]] | intros H; inversion H].
  - cbn [retryLoop]. rewrite Exists_cons.
    destruct (failed a) eqn:Hfa; [destruct (stopSeen a) eqn:Hsa|].
    + split; eauto.
    + rewrite IH. split; [auto|]. intros [[H|H]|H]; [discriminate|discriminate|exact H].
    + destruct (respTerm (attResp a) >? reqTerm req); split; eauto.
Qed.

(** X11. [retryAppendEntries] sends the request again until a call goes
    through or the stop signal is seen: it returns exactly when there is
    such an attempt, with the response of the first one; before the k-th
    retry it waits [backoff(k)]; it answers "not stopped" only for a call
    that went through with a term not above the request's, the member is
    then marked reachable; and it posts a new term only when the call
    went through with a term above the request's and the stop signal was
    not seen. *)
Theorem retryAppendEntries_until_reply_or_stop atts req nc :
  Z.of_nat (length atts) < U64.modulus ->
  (is_Some (retryAppendEntries backoff atts req nc)
   <-> Exists (fun a => failed a = false \/ stopSeen a = true) atts) /\
  (forall r,
     retryAppendEntries backoff atts req nc = Some r ->
     exists pre a post,
       atts = pre ++ a :: post /\
       Forall retriedAfter pre /\
       (failed a = false \/ stopSeen a = true) /\
       retResp r = attResp a /\
       waits r = backoff <$> seqZ 1 (Z.of_nat (length pre)) /\
       (retStop r = false <->
        failed a = false /\ respTerm (attResp a) <= reqTerm req) /\
       (retStop r = false -> retNoContact r = 0) /\
       (forall t, newTermSent r = Some t <->
                  failed a = false /\ stopSeen a = false /\
                  t = respTerm (attResp a) /\ reqTerm req < t)).
Proof.
  intros Hlen. split; [apply retryLoop_returns|].
  intros r Hrun. apply retryLoop_spec in Hrun.
  destruct Hrun as (pre & a & post & Hatts & Hpre & Ha & Hresp & Hw & Hstop & Hnew & Hnc).
  exists pre, a, post.
  split; [exact Hatts|]. split; [exact Hpre|]. split; [exact Ha|]. split; [exact Hresp|].
  assert (Hstop' : retStop r = false <->
                   failed a = false /\ respTerm (attResp a) <= reqTerm req).
  { rewrite Hstop, orb_false_iff, Z.gtb_ltb, Z.ltb_ge. reflexivity. }
  split; [|split; [exact Hstop'|split]].
  - rewrite Hw. cbn [app]. apply list_fmap_ext. intros k i Hi. cbn.
    apply lookup_seqZ in Hi. f_equal.
    rewrite Hatts, length_app in Hlen. cbn [length] in Hlen.
    apply U64_wrap_small. unfold U64.inRange. lia.
  - intros Hs. apply Hnc, Hstop', Hs.
  - intros t. rewrite Hnew. rewrite Z.gtb_ltb.
    destruct (failed a), (Z.ltb_spec (reqTerm req) (respTerm (attResp a))), (stopSeen a);
      cbn; split; try (intros [=]); try (intros (? & ? & ? & ?));
      subst; try discriminate; try lia; auto.
Qed.

(** X12. A steady-state pass of [replicate] after the reply: when the
    retry loop answers "not stopped", an unsuccessful response fails the
    assertion that its term is above the request's, for the loop has
    already returned "stop" on every such response; a successful one sets
    [nextIndex] to [resp.lastLogIndex + 1] and [matchIndex] to
    [resp.lastLogIndex], so that [matchIndex + 1 = nextIndex] again, and
    leaves the storage alone. *)
Theorem steady_pass_after_reply atts req nc r m stopAtNotify :
  retryAppendEntries backoff atts req nc = Some r ->
  (retStop r = true -> afterRequest m req r stopAtNotify = SteadyReturn) /\
  (retStop r = false -> success (retResp r) = false ->
     afterRequest m req r stopAtNotify = SteadyPanic) /\
  (retStop r = false -> success (retResp r) = true ->
     exists m',
       afterRequest m req r stopAtNotify
       = SteadyNext m' (lastLogIndex (retResp r)) req /\
       nextIndex m' = U64.add (lastLogIndex (retResp r)) 1 /\
       matchIndexShared m' = lastLogIndex (retResp r) /\
       mstorage m' = mstorage m /\
       (stopAtNotify = false -> updates m' = updates m ++ [lastLogIndex (retResp r)])).
Proof.
  intros Hrun. apply retryLoop_spec in Hrun.
  destruct Hrun as (pre & a & post & _ & _ & _ & Hresp & _ & Hstop & _).
  unfold afterRequest. split; [|split].
  - intros ->. reflexivity.
  - intros Hs Hfail. rewrite Hs, Hfail. cbn.
    rewrite Hs in Hstop. symmetry in Hstop. apply orb_false_iff in Hstop.
    destruct Hstop as [_ Hterm]. rewrite Hresp, Hterm. reflexivity.
  - intros Hs Hok. rewrite Hs, Hok. cbn. eexists. split; [reflexivity|].
    cbn. repeat split. intros ->. reflexivity.
Qed.

End Retry.

Section RetryWitness.
Local Open Scope Z_scope.
Import Member Replicate.

Lemma retryAppendEntries_until_reply_or_stop_witness :
  let atts := [mkAttempt (mkResp 0 false 0) true 5 false;
               mkAttempt (mkResp 0 false 0) true 6 false;
               mkAttempt (mkResp 2 true 3) false 7 false] in
  is_Some (retryAppendEntries Samples.sampleBackoff atts (mkReq 2 "a" 0 1 1 []) 0)
  <-> Exists (fun a => failed a = false \/ stopSeen a = true) atts.
Proof.
  intros atts.
  apply (retryAppendEntries_until_reply_or_stop Samples.sampleBackoff atts (mkReq 2 "a" 0 1 1 []) 0).
  vm_compute. reflexivity.
Defined.

Lemma steady_pass_after_reply_witness :
  let atts := [mkAttempt (mkResp 0 false 0) true 5 false;
               mkAttempt (mkResp 2 false 3) false 7 false] in
  let req := mkReq 2 "a" 0 1 1 [] in
  let m := mkMember (Storage.mkStorage 1 3 Samples.sampleLog) 2 1 [1] in
  afterRequest m req (mkRetried (mkResp 2 false 3) false None [Samples.sampleBackoff 1] 0) false
  = SteadyPanic.
Proof.
  intros atts req m.
  apply (steady_pass_after_reply Samples.sampleBackoff atts req 0
           (mkRetried (mkResp 2 false 3) false None [Samples.sampleBackoff 1] 0) m false);
    reflexivity.
Defined.
End RetryWitness.

(** ** The apply loop on a follower, and the loop of the state machine *)

Section FollowerApplyFacts.
Local Open Scope Z_scope.
Import Conf Fsm FollowerApply.

Lemma committedCommands_step r e :
  lastApplied r < commitIndex r ->
  Storage.getEntry (storage r) (lastApplied r + 1) = Some e ->
  forall r1,
    storage r1 = storage r -> commitIndex r1 = commitIndex r ->
    lastApplied r1 = lastApplied r + 1 ->
    committedCommands r
    = (if isCommand e then [mkNewEntry (Some e) 0] else []) ++ committedCommands r1.
Proof.
  intros Hlt He r1 Hs Hc Hl. unfold committedCommands.
  rewrite (seqZ_cons (lastApplied r + 1)) by lia.
  cbn [omap list_omap]. rewrite He. cbn [mbind option_bind].
  rewrite Hs, Hc, Hl.
  replace (Z.succ (lastApplied r + 1)) with (lastApplied r + 1 + 1) by lia.
  replace (Z.pred (commitIndex r - lastApplied r))
    with (commitIndex r - (lastApplied r + 1)) by lia.
  destruct (isCommand e); reflexivity.
Qed.

(** X13. On a follower ([newEntries] nil) that is not shutting down and
    whose log holds every index after [lastApplied] up to [commitIndex],
    [applyCommitted] returns with [lastApplied = commitIndex], having sent
    on [fsmApplyCh] exactly the updates, queries and barriers stored at
    those indices, each once and in log order; no-ops and config entries
    are not sent, and the log is left alone. *)
Theorem follower_apply_sends_committed_commands fuel :
  forall r,
    shutdown r = [] ->
    0 <= lastApplied r <= commitIndex r -> U64.inRange (commitIndex r) ->
    (forall i, lastApplied r < i <= commitIndex r ->
               is_Some (Storage.getEntry (storage r) i)) ->
    (Z.to_nat (commitIndex r - lastApplied r) < fuel)%nat ->
    exists r',
      applyCommitted fuel r None = Done (r', None) /\
      lastApplied r' = commitIndex r /\ commitIndex r' = commitIndex r /\
      fsmApplyCh r' = fsmApplyCh r ++ committedCommands r /\
      storage r' = storage r.
Proof.
  unfold applyCommitted.
  induction fuel as [|fuel IH]; intros r Hsh Hl Hc Hlog Hfuel; [lia|].
  cbn [iterate applyPass drain mbind option_bind].
  rewrite Z.gtb_ltb.
  destruct (Z.ltb_spec (lastApplied r) (commitIndex r)) as [Hlt|Hge].
  - assert (Hnext : U64.add (lastApplied r) 1 = lastApplied r + 1) by u64_lia.
    destruct (Hlog (lastApplied r + 1) ltac:(lia)) as [e He].
    unfold nextEntry. cbn [mbind option_bind nentry zeroNewEntry task].
    rewrite Hnext, He. cbn [mbind option_bind].
    set (ne := mkNewEntry (Some e) 0).
    assert (Hstep : exists r1,
              applyEntry ne r = Next r1 /\ shutdown r1 = [] /\
              lastApplied r1 = lastApplied r /\ commitIndex r1 = commitIndex r /\
              storage r1 = storage r /\
              fsmApplyCh r1
              = fsmApplyCh r ++ (if isCommand e then [ne] else [])).
    { unfold applyEntry, isCommand, neTyp. cbn [nentry ne from_option].
      destruct (typ e); rewrite ?(selectSend_no_shutdown _ _ Hsh);
        eexists; (split; [reflexivity|]); cbn; rewrite ?app_nil_r; auto. }
    destruct Hstep as (r1 & -> & Hsh1 & Hl1 & Hc1 & Hs1 & Hch1).
    set (r2 := withLastApplied (U64.add (lastApplied r1) 1) r1).
    destruct (IH r2) as (r' & Hrun & Hla & Hci & Hch & Hst).
    + exact Hsh1.
    + cbn. rewrite Hl1, Hc1. u64_lia.
    + cbn. rewrite Hc1. exact Hc.
    + intros i Hi. cbn in Hi |- *. rewrite Hs1. apply Hlog.
      rewrite Hl1, Hc1 in Hi. u64_simpl. revert Hi. rewrite Hnext. lia.
    + cbn. rewrite Hl1, Hc1, Hnext. lia.
    + exists r'. split; [exact Hrun|].
      cbn in Hla, Hci, Hch, Hst.
      split; [congruence|]. split; [congruence|]. split; [|congruence].
      rewrite Hch, Hch1, <- app_assoc. f_equal.
      symmetry. apply (committedCommands_step r e Hlt He r2);
        cbn; rewrite ?Hl1; congruence.
  - exists r. split; [reflexivity|]. split; [lia|]. split; [reflexivity|].
    split; [|reflexivity].
    unfold committedCommands.
    replace (commitIndex r - lastApplied r) with 0 by lia.
    cbn. rewrite app_nil_r. reflexivity.
Qed.

Lemma follower_apply_sends_committed_commands_witness :
  let r := Samples.sampleFsmRaft [] in
  exists r',
    applyCommitted 3 r None = Done (r', None) /\
    lastApplied r' = commitIndex r /\ commitIndex r' = commitIndex r /\
    fsmApplyCh r' = fsmApplyCh r ++ committedCommands r /\
    storage r' = storage r.
Proof.
  intros r. apply (follower_apply_sends_committed_commands 3 r).
  - reflexivity.
  - simpl. lia.
  - simpl. u64_lia.
  - intros i Hi. simpl in Hi.
    assert (Hcases : i = 4 \/ i = 5) by lia.
    destruct Hcases as [-> | ->]; eexists; reflexivity.
  - simpl. lia.
Defined.

Example follower_apply_sample :
  committedCommands (Samples.sampleFsmRaft [])
  = [mkNewEntry (Some (mkEntry 4 1 entryUpdate [])) 0].
Proof. reflexivity. Qed.
End FollowerApplyFacts.

Section FsmLoopFacts.
Import FsmLoop.

Variables (S R : Type).
Variable Apply : S -> list Byte.byte -> S * R.

Lemma fsmLoop_app ch ch' acc :
  fsmLoop S R Apply (ch ++ ch') acc
  = acc' ← fsmLoop S R Apply ch acc; fsmLoop S R Apply ch' acc'.
Proof.
  revert acc. induction ch as [|ne ch IH]; intros acc; [reflexivity|].
  cbn [app fsmLoop]. destruct (fsmStep S R Apply acc ne); [apply IH|reflexivity].
Qed.

(** X14. [fsmLoop] on the entries the channel delivers: it gets through
    exactly when none of them lacks its entry (a nil dereference
    otherwise); it then answers every task once, in the order of arrival;
    the state machine has gone through the data of the updates and the
    queries, in that order, and through nothing else, barriers being
    answered without a call of [Apply]. *)
Theorem fsmLoop_applies_commands_in_order ch s out :
  (is_Some (fsmLoop S R Apply ch (s, out))
   <-> Forall (fun ne => is_Some (nentry ne)) ch) /\
  (forall s' out',
     fsmLoop S R Apply ch (s, out) = Some (s', out') ->
     s' = foldl (fun st cmd => (Apply st cmd).1) s (commandsOf ch) /\
     out'.*1 = out.*1 ++ (task <$> ch) /\
     length (filter (fun reply => is_Some reply.2) out')
     = (length (filter (fun reply => is_Some reply.2) out)
        + length (commandsOf ch))%nat).
Proof.
  revert s out. induction ch as [|ne ch IH]; intros s out.
  - split.
    + split; [constructor | eauto].
    + intros s' out' [= <- <-]. cbn. rewrite app_nil_r. auto.
  - cbn [fsmLoop]. unfold fsmStep. cbn [fst snd].
    destruct (nentry ne) as [e|] eqn:He; cbn [mbind option_bind].
    + unfold commandsOf. cbn [omap list_omap]. rewrite He. cbn [mbind option_bind].
      fold (commandsOf ch).
      destruct (bool_decide (typ e = entryUpdate) || bool_decide (typ e = entryQuery)).
      * destruct (Apply s (data e)) as [s1 resp] eqn:Hap.
        destruct (IH s1 (out ++ [(task ne, Some resp)])) as [Hsome Hrun].
        split.
        { rewrite Hsome, Forall_cons, He. split; [eauto | tauto]. }
        intros s' out' Hloop. destruct (Hrun s' out' Hloop) as (H1 & H2 & H3).
        cbn [foldl]. rewrite Hap. cbn [fst]. split; [exact H1|].
        split.
        { rewrite H2, fmap_app, <- app_assoc. reflexivity. }
        rewrite H3, filter_app, length_app.
        rewrite filter_cons_True by (cbn; eauto). cbn. lia.
      * destruct (IH s (out ++ [(task ne, None)])) as [Hsome Hrun].
        split.
        { rewrite Hsome, Forall_cons, He. split; [eauto | tauto]. }
        intros s' out' Hloop. destruct (Hrun s' out' Hloop) as (H1 & H2 & H3).
        split; [exact H1|].
        split.
        { rewrite H2, fmap_app, <- app_assoc. reflexivity. }
        rewrite H3, filter_app, length_app.
        rewrite filter_cons_False by (cbn; intros [? [=]]). cbn. lia.
    + split.
      * split; [intros [? [=]]|]. rewrite Forall_cons, He. intros [[? [=]] _].
      * intros s' out' [=].
Qed.
End FsmLoopFacts.

Section FsmLoopWitness.
Import FsmLoop.

Lemma fsmLoop_applies_commands_in_order_witness :
  (is_Some (fsmLoop _ _ Samples.sampleApply Samples.sampleChannel ([], []))
   <-> Forall (fun ne => is_Some (nentry ne)) Samples.sampleChannel) /\
  (forall s' out',
     fsmLoop _ _ Samples.sampleApply Samples.sampleChannel ([], []) = Some (s', out') ->
     s' = foldl (fun st cmd => (Samples.sampleApply st cmd).1) []
                (commandsOf Samples.sampleChannel) /\
     out'.*1 = [] ++ (task <$> Samples.sampleChannel) /\
     length (filter (fun reply => is_Some reply.2) out')
     = (0 + length (commandsOf Samples.sampleChannel))%nat).
Proof.
  apply (fsmLoop_applies_commands_in_order _ _ Samples.sampleApply
           Samples.sampleChannel [] []).
Defined.

Example fsmLoop_sample :
  fsmLoop _ _ Samples.sampleApply Samples.sampleChannel ([], [])
  = Some ([[Byte.x01]; [Byte.x02]], [(1, Some 0); (2, None); (3, Some 1)])%nat.
Proof. reflexivity. Qed.
End FsmLoopWitness.

(** ** Configurations *)

Section ConfFacts.
Local Open Scope Z_scope.
Import Conf LdrShip.

Lemma countVoters_size (m : gmap string Node) :
  countVoters (map_to_list m) 0
  = Z.of_nat (size (filter (fun p : string * Node => Voter p.2 = true) m)).
Proof.
  induction m as [|i x m Hi IH] using map_ind.
  - rewrite map_to_list_empty, map_filter_empty, map_size_empty. reflexivity.
  - rewrite (countVoters_Permutation _ _ 0 (map_to_list_insert m i x Hi)).
    rewrite countVoters_filter in IH. rewrite countVoters_filter, filter_cons.
    cbn [snd]. destruct (Voter x) eqn:Hv.
    + rewrite (decide_True (P := true = true)) by reflexivity.
      rewrite map_filter_insert_True by exact Hv.
      rewrite map_size_insert_None
        by (apply map_lookup_filter_None; left; exact Hi).
      cbn [length]. unfold ID in *. lia.
    + rewrite (decide_False (P := false = true)) by discriminate.
      rewrite map_filter_insert_not'; [unfold ID in *; lia | cbn; congruence |].
      intros y Hy. rewrite Hi in Hy. discriminate.
Qed.

Lemma numVoters_size c : numVoters c = Z.of_nat (size (votersOf c)).
Proof. unfold numVoters, votersOf. rewrite size_dom. apply countVoters_size. Qed.

Lemma isVoter_numVoters c nid : isVoter c nid = true -> 1 <= numVoters c.
Proof.
  intros Hv. apply elem_of_votersOf in Hv. rewrite numVoters_size.
  assert (size (votersOf c) <> 0%nat); [|lia].
  intros Hz. apply size_empty_iff in Hz. set_solver.
Qed.

(** X15. [numVoters] counts exactly the nodes for which [isVoter] holds,
    whatever the order in which the map is ranged over, and [quorum] is a
    strict majority of them: two quorums always share a voter. With at
    least one voter the quorum is at most the number of voters; without
    any it is 1, which no set of voters reaches. *)
Theorem quorum_is_majority_of_voters c :
  numVoters c = Z.of_nat (size (votersOf c)) /\
  (forall nid, nid ∈ votersOf c <-> isVoter c nid = true) /\
  (forall nodes, nodes ≡ₚ map_to_list (Nodes c) -> countVoters nodes 0 = numVoters c) /\
  numVoters c < 2 * quorum c /\
  2 * quorum c <= numVoters c + 2 /\
  (1 <= numVoters c -> 1 <= quorum c <= numVoters c) /\
  (numVoters c = 0 -> quorum c = 1).
Proof.
  split; [apply numVoters_size|]. split; [apply elem_of_votersOf|].
  split; [intros nodes Hp; apply countVoters_Permutation, Hp|].
  pose proof (numVoters_nonneg c) as Hn. unfold quorum.
  repeat split; intros; try (Z.div_mod_to_equations; lia).
Qed.

Example quorum_sample :
  numVoters Samples.sampleConfig = 3 /\ quorum Samples.sampleConfig = 2.
Proof. vm_compute. split; reflexivity. Qed.
End ConfFacts.

Section ValidateSound.
Local Open Scope Z_scope.
Import Conf.

Variable splitHostPort : string -> (string * string) + error.
Variable atoi : string -> option Z.

Lemma validateNode_None n :
  validateNode splitHostPort atoi n = None <->
  nodeID n <> "" /\ Addr n <> "" /\
  exists host sport port,
    splitHostPort (Addr n) = inl (host, sport) /\ atoi sport = Some port /\ 0 < port.
Proof.
  unfold validateNode.
  destruct (decide (nodeID n = "")) as [Hid|Hid]; [split; [discriminate|tauto]|].
  destruct (decide (Addr n = "")) as [Ha|Ha]; [split; [discriminate|tauto]|].
  destruct (splitHostPort (Addr n)) as [[host sport]|err].
  - destruct (atoi sport) as [port|] eqn:Hport.
    + destruct (Z.leb_spec port 0).
      * split; [discriminate|]. intros (_ & _ & h & s & p & [= <- <-] & Hp & Hpos).
        rewrite Hport in Hp. injection Hp as <-. lia.
      * split; [|reflexivity]. intros _. split; [exact Hid|]. split; [exact Ha|].
        exists host, sport, port. auto.
    + split; [discriminate|]. intros (_ & _ & h & s & p & [= <- <-] & Hp & _).
      rewrite Hport in Hp. discriminate.
  - split; [discriminate|]. intros (_ & _ & h & s & p & [=] & _).
Qed.

Lemma validateNodes_None nodes :
  forall addrs,
    validateNodes splitHostPort atoi nodes addrs = None <->
    Forall (fun p : ID * Node =>
              validateNode splitHostPort atoi p.2 = None /\ p.1 = nodeID p.2) nodes /\
    NoDup ((fun p : ID * Node => Addr p.2) <$> nodes) /\
    (forall p, p ∈ nodes -> Addr p.2 ∉ addrs).
Proof.
  induction nodes as [|[nid node] rest IH]; intros addrs.
  - cbn. split; [|reflexivity]. intros _. split; [constructor|].
    split; [constructor|]. intros p Hp. inversion Hp.
  - cbn [validateNodes]. rewrite Forall_cons, fmap_cons, NoDup_cons. cbn [fst snd].
    destruct (validateNode splitHostPort atoi node) as [err|] eqn:Hn.
    { split; [discriminate|]. intros [[[Hbad _] _] _]. discriminate. }
    destruct (decide (nid ≠ nodeID node)) as [Hid|Hid].
    { split; [discriminate|]. intros [[[_ Heq] _] _]. contradiction. }
    apply dec_stable in Hid.
    destruct (decide (Addr node ∈ addrs)) as [Hin|Hin].
    { split; [discriminate|]. intros (_ & _ & Hfresh).
      exfalso. apply (Hfresh (nid, node)); [left | exact Hin]. }
    rewrite IH. split.
    + intros (Hall & Hnd & Hfresh). split; [split; [split; [reflexivity|exact Hid]|exact Hall]|].
      split; [split; [|exact Hnd]|].
      * intros Hdup. apply list_elem_of_fmap in Hdup as (p & Hp & Hpin).
        apply (Hfresh p Hpin). rewrite <- Hp. set_solver.
      * intros p Hp. apply elem_of_cons in Hp as [->|Hp]; [exact Hin|].
        specialize (Hfresh p Hp). set_solver.
    + intros ((_ & Hall) & (Hnotin & Hnd) & Hfresh).
      split; [exact Hall|]. split; [exact Hnd|].
      intros p Hp Hbad. apply elem_of_union in Hbad as [Hbad|Hbad].
      * apply elem_of_singleton in Hbad. apply Hnotin.
        apply list_elem_of_fmap. exists p. split; [symmetry; exact Hbad | exact Hp].
      * apply (Hfresh p); [right; exact Hp | exact Hbad].
Qed.

Lemma NoDup_fmap_elem_inj {A B} (f : A -> B) (l : list A) x y :
  NoDup (f <$> l) -> x ∈ l -> y ∈ l -> f x = f y -> x = y.
Proof.
  induction l as [|a l IH]; intros Hnd Hx Hy Hf; [inversion Hx|].
  rewrite fmap_cons in Hnd. apply NoDup_cons in Hnd as [Ha Hnd].
  apply elem_of_cons in Hx as [->|Hx]; apply elem_of_cons in Hy as [->|Hy].
  - reflexivity.
  - exfalso. apply Ha. rewrite Hf. apply list_elem_of_fmap_2, Hy.
  - exfalso. apply Ha. rewrite <- Hf. apply list_elem_of_fmap_2, Hx.
  - apply IH; assumption.
Qed.

(** What [validate] asks of the nodes of a configuration. *)
Lemma validate_None c :
  validate splitHostPort atoi c = None <->
  (forall nid n, Nodes c !! nid = Some n ->
                 validateNode splitHostPort atoi n = None /\ nodeID n = nid) /\
  (forall id1 n1 id2 n2,
     Nodes c !! id1 = Some n1 -> Nodes c !! id2 = Some n2 ->
     Addr n1 = Addr n2 -> id1 = id2) /\
  numVoters c <> 1.
Proof.
  unfold validate, validateIn.
  pose proof (validateNodes_None (map_to_list (Nodes c)) ∅) as Hnodes.
  destruct (validateNodes splitHostPort atoi (map_to_list (Nodes c)) ∅) as [err|].
  - split; [discriminate|]. intros (Hok & Huniq & _).
    assert (Hnone : Some err = None); [|discriminate].
    apply Hnodes. split; [|split].
    + apply Forall_forall. intros [nid n] Hin. apply elem_of_map_to_list in Hin.
      destruct (Hok nid n Hin) as [H1 H2]. cbn. auto.
    + apply NoDup_fmap_2_strong; [|apply NoDup_map_to_list].
      intros [i1 n1] [i2 n2] H1 H2 Ha. cbn in Ha.
      apply elem_of_map_to_list in H1, H2.
      pose proof (Huniq i1 n1 i2 n2 H1 H2 Ha) as ->. congruence.
    + intros p _. set_solver.
  - destruct (proj1 Hnodes eq_refl) as (Hall & Hnd & _).
    assert (Hok : forall nid n, Nodes c !! nid = Some n ->
                    validateNode splitHostPort atoi n = None /\ nodeID n = nid).
    { intros nid n Hin. apply elem_of_map_to_list in Hin.
      rewrite Forall_forall in Hall. destruct (Hall _ Hin) as [H1 H2]. cbn in *. auto. }
    assert (Huniq : forall id1 n1 id2 n2,
              Nodes c !! id1 = Some n1 -> Nodes c !! id2 = Some n2 ->
              Addr n1 = Addr n2 -> id1 = id2).
    { intros i1 n1 i2 n2 H1 H2 Ha. apply elem_of_map_to_list in H1, H2.
      pose proof (NoDup_fmap_elem_inj _ _ (i1, n1) (i2, n2) Hnd H1 H2 Ha) as Heq.
      congruence. }
    destruct (Z.eqb_spec (numVoters c) 1) as [H1|H1].
    + split; [discriminate|]. intros (_ & _ & Hbad). contradiction.
    + split; [auto|reflexivity].
Qed.

(** X16. [validate] accepts a configuration exactly when every node has
    a non-empty ID equal to its key, a non-empty address whose port is a
    positive number, no two nodes share an address, and the number of
    voters is not one; which node it complains about first depends on the
    order of the map, whether it complains does not. *)
Theorem validate_accepts_iff c :
  validate splitHostPort atoi c = None <->
  (forall nid n,
     Nodes c !! nid = Some n ->
     nodeID n = nid /\ nid <> "" /\ Addr n <> "" /\
     exists host sport port,
       splitHostPort (Addr n) = inl (host, sport) /\ atoi sport = Some port /\
       0 < port) /\
  (forall id1 n1 id2 n2,
     Nodes c !! id1 = Some n1 -> Nodes c !! id2 = Some n2 ->
     Addr n1 = Addr n2 -> id1 = id2) /\
  numVoters c <> 1.
Proof.
  rewrite validate_None. split; intros (Hok & Huniq & Hv);
    (split; [|split; assumption]); intros nid n Hin;
    destruct (Hok nid n Hin) as [H1 H2].
  - apply validateNode_None in H1 as (Hid & Ha & Hport).
    split; [exact H2|]. split; [congruence|]. split; assumption.
  - split; [|exact H1]. apply validateNode_None.
    destruct H2 as (Hid & Ha & Hport). split; [congruence|]. split; assumption.
Qed.
End ValidateSound.

Section ValidateSoundWitness.
Local Open Scope Z_scope.
Import Conf Samples.

Lemma validate_accepts_iff_witness :
  let c := configOf [nodeA; nodeB; nodeC] 1 1 in
  validate sampleSplitHostPort sampleAtoi c = None <->
  (forall nid n,
     Nodes c !! nid = Some n ->
     nodeID n = nid /\ nid <> "" /\ Addr n <> "" /\
     exists host sport port,
       sampleSplitHostPort (Addr n) = inl (host, sport) /\ sampleAtoi sport = Some port /\
       0 < port) /\
  (forall id1 n1 id2 n2,
     Nodes c !! id1 = Some n1 -> Nodes c !! id2 = Some n2 ->
     Addr n1 = Addr n2 -> id1 = id2) /\
  numVoters c <> 1.
Proof.
  intros c. apply (validate_accepts_iff sampleSplitHostPort sampleAtoi c).
Defined.
End ValidateSoundWitness.

Section ConfOpsFacts.
Local Open Scope Z_scope.
Import Conf LdrShip ConfOps.

Variable splitHostPort : string -> (string * string) + error.
Variable atoi : string -> option Z.

Lemma nodeForAddrIn_spec nodes addr :
  match nodeForAddrIn nodes addr with
  | Some n => (exists nid, (nid, n) ∈ nodes) /\ Addr n = addr
  | None => forall p, p ∈ nodes -> Addr p.2 <> addr
  end.
Proof.
  induction nodes as [|[nid node] rest IH]; cbn [nodeForAddrIn].
  - intros p Hp. inversion Hp.
  - destruct (decide (Addr node = addr)) as [Ha|Ha].
    + split; [exists nid; left | exact Ha].
    + destruct (nodeForAddrIn rest addr) as [n|].
      * destruct IH as [[i Hi] Hn]. split; [exists i; right; exact Hi | exact Hn].
      * intros p Hp. apply elem_of_cons in Hp as [->|Hp]; [exact Ha | apply IH, Hp].
Qed.

(** X17. [nodeForAddr] on a configuration that [validate] accepts: it
    answers the node of the configuration with the given address, and
    "not found" exactly when no node has it; as addresses are unique the
    answer does not depend on the order in which the map is ranged
    over. *)
Theorem nodeForAddr_on_validated nodes c addr :
  nodes ≡ₚ map_to_list (Nodes c) ->
  validate splitHostPort atoi c = None ->
  (forall n,
     nodeForAddrIn nodes addr = Some n <->
     Nodes c !! nodeID n = Some n /\ Addr n = addr) /\
  (nodeForAddrIn nodes addr = None <->
   forall nid n, Nodes c !! nid = Some n -> Addr n <> addr) /\
  nodeForAddrIn nodes addr = nodeForAddrIn (map_to_list (Nodes c)) addr.
Proof.
  intros Hp Hval. apply validate_None in Hval as (Hok & Huniq & _).
  assert (Hone : forall l, l ≡ₚ map_to_list (Nodes c) ->
            (forall n, nodeForAddrIn l addr = Some n <->
                       Nodes c !! nodeID n = Some n /\ Addr n = addr) /\
            (nodeForAddrIn l addr = None <->
             forall nid n, Nodes c !! nid = Some n -> Addr n <> addr)).
  { intros l Hl.
    assert (Hin : forall nid n, (nid, n) ∈ l <-> Nodes c !! nid = Some n).
    { intros nid n. rewrite Hl. apply elem_of_map_to_list. }
    pose proof (nodeForAddrIn_spec l addr) as Hspec.
    destruct (nodeForAddrIn l addr) as [n0|].
    - destruct Hspec as [[i Hi] Ha]. apply Hin in Hi.
      destruct (Hok i n0 Hi) as [_ Hid]. subst i.
      split.
      + intros n. split.
        * intros [= <-]. split; assumption.
        * intros [Hn Hna]. f_equal.
          assert (Hsame : nodeID n0 = nodeID n).
          { apply (Huniq _ n0 _ n); [exact Hi | exact Hn | rewrite Ha, Hna; reflexivity]. }
          rewrite Hsame in Hi. rewrite Hi in Hn. injection Hn as ->. reflexivity.
      + split; [discriminate|]. intros Hnone. exfalso. apply (Hnone _ _ Hi Ha).
    - split.
      + intros n. split; [discriminate|]. intros [Hn Hna]. exfalso.
        apply (Hspec (nodeID n, n)); [apply Hin, Hn | exact Hna].
      + split; [|reflexivity]. intros _ nid n Hn.
        apply (Hspec (nid, n)). apply Hin, Hn. }
  destruct (Hone nodes Hp) as [Hsome Hnone]. split; [exact Hsome|]. split; [exact Hnone|].
  destruct (Hone (map_to_list (Nodes c)) (reflexivity _)) as [Hsome' Hnone'].
  destruct (nodeForAddrIn nodes addr) as [n|] eqn:Hres.
  - symmetry. apply Hsome', Hsome. reflexivity.
  - symmetry. apply Hnone', Hnone. reflexivity.
Qed.

(** X18. [bootstrap] succeeds exactly when the node has no configuration
    yet, the configuration [{nodes, index 1, term 1}] passes [validate],
    the node itself is a voter in it and the storage takes it; the node
    then holds it as [Latest], it has at least two voters, and a second
    [bootstrap] is answered [ErrAlreadyBootstrapped]. Every refusal leaves
    the node as it was. *)
Theorem bootstrap_once stored nodes r :
  let config := mkConfig nodes 1 1 in
  let '(r', reply) := bootstrap splitHostPort atoi stored nodes r in
  (reply = None <->
   IsBootstrap (configs r) = true /\
   validate splitHostPort atoi config = None /\
   isVoter config (id r) = true /\ stored = None) /\
  (reply <> None -> r' = r) /\
  (IsBootstrap (configs r) = false -> reply = Some ErrAlreadyBootstrapped) /\
  (reply = None ->
   Latest (configs r') = config /\
   Committed (configs r') = Latest (configs r) /\
   2 <= numVoters (Latest (configs r')) /\
   forall stored' nodes',
     bootstrap splitHostPort atoi stored' nodes' r'
     = (r', Some ErrAlreadyBootstrapped)).
Proof.
  intros config. unfold bootstrap. fold config.
  destruct (IsBootstrap (configs r)) eqn:Hb; cbn [negb].
  2:{ split; [split; [discriminate | intros [[=] _]]|].
      split; [reflexivity|]. split; [reflexivity | discriminate]. }
  destruct (validate splitHostPort atoi config) as [err|] eqn:Hval.
  { split; [split; [discriminate | intros (_ & [=] & _)]|].
    split; [reflexivity|]. split; discriminate. }
  unfold isVoter. cbn [Nodes config].
  change (Nodes config) with nodes.
  destruct (nodes !! id r) as [self|] eqn:Hself.
  2:{ split; [split; [discriminate | intros (_ & _ & [=] & _)]|].
      split; [reflexivity|]. split; discriminate. }
  destruct (Voter self) eqn:Hv; cbn [negb].
  2:{ split; [split; [discriminate | intros (_ & _ & [=] & _)]|].
      split; [reflexivity|]. split; discriminate. }
  destruct stored as [err|].
  { split; [split; [discriminate | intros (_ & _ & _ & [=])]|].
    split; [reflexivity|]. split; discriminate. }
  split; [split; auto|]. split; [intros H; contradiction|]. split; [discriminate|].
  intros _. cbn. split; [reflexivity|]. split; [reflexivity|]. split.
  - assert (Hvoter : isVoter config (id r) = true).
    { unfold isVoter. cbn. rewrite Hself. exact Hv. }
    pose proof (isVoter_numVoters _ _ Hvoter) as H1.
    apply validate_None in Hval as (_ & _ & Hne). lia.
  - intros stored' nodes'. reflexivity.
Qed.

(** X19. A configuration change on a node, from the change to its end:
    [changeConfig(new)] keeps the old [Latest] as [Committed] and makes
    [new] the [Latest]; [revertConfig] then puts the old [Latest] back;
    [setCommitIndex(i)] instead commits [new] as soon as [i] reaches its
    index and not before, and turns a leader that does not vote in [new]
    into a follower without a leader at that moment, and at no other. *)
Theorem config_change_commit_or_revert new r i :
  Index new <> Index (Latest (configs r)) ->
  let r1 := raftChangeConfig new r in
  configs r1 = mkConfigs (Latest (configs r)) new /\
  IsCommitted (configs r1) = false /\
  configs (revertConfig r1) = mkConfigs (Latest (configs r)) (Latest (configs r)) /\
  commitIndex (setCommitIndex i r1) = i /\
  (Index new <= i ->
   configs (setCommitIndex i r1) = mkConfigs new new /\
   IsCommitted (configs (setCommitIndex i r1)) = true) /\
  (i < Index new -> configs (setCommitIndex i r1) = configs r1) /\
  (Index new <= i /\ state r = Leader /\ isVoter new (id r) = false ->
   state (setCommitIndex i r1) = Follower /\ leader (setCommitIndex i r1) = "") /\
  (~ (Index new <= i /\ state r = Leader /\ isVoter new (id r) = false) ->
   state (setCommitIndex i r1) = state r /\ leader (setCommitIndex i r1) = leader r).
Proof.
  intros Hnew r1.
  assert (Hpending : IsCommitted (configs r1) = false).
  { unfold IsCommitted. cbn. apply Z.eqb_neq. exact Hnew. }
  split; [reflexivity|]. split; [exact Hpending|]. split; [reflexivity|].
  unfold setCommitIndex.
  change (configs (withCommitIndex i r1)) with (configs r1).
  change (commitIndex (withCommitIndex i r1)) with i.
  rewrite Hpending. cbn [negb andb].
  change (Index (Latest (configs r1))) with (Index new).
  destruct (Z.leb_spec (Index new) i) as [Hle|Hgt].
  - change (state (commitConfig (withCommitIndex i r1))) with (state r).
    change (id (commitConfig (withCommitIndex i r1))) with (id r).
    change (Latest (configs (commitConfig (withCommitIndex i r1)))) with new.
    destruct (bool_decide (state r = Leader)) eqn:Hs;
      [apply bool_decide_eq_true in Hs | apply bool_decide_eq_false in Hs];
      destruct (isVoter new (id r)) eqn:Hv; cbn [negb andb];
      (split; [reflexivity|]);
      (split; [intros _; split; [reflexivity | unfold IsCommitted; cbn; apply Z.eqb_refl]|]);
      (split; [intros; lia|]);
      (split; [try (intros _; split; reflexivity);
               try (intros (_ & ? & ?); congruence)
              | try (intros _; split; reflexivity);
                try (intros Hno; exfalso; apply Hno; auto)]).
  - split; [reflexivity|]. split; [intros; lia|]. split; [reflexivity|].
    split; [intros (? & _); lia | intros _; split; reflexivity].
Qed.
End ConfOpsFacts.

Section ConfOpsWitness.
Local Open Scope Z_scope.
Import Conf LdrShip ConfOps Samples.

Lemma nodeForAddr_on_validated_witness :
  let c := configOf [nodeA; nodeB; nodeC] 1 1 in
  (forall n,
     nodeForAddrIn (map_to_list (Nodes c)) "localhost:7002" = Some n <->
     Nodes c !! nodeID n = Some n /\ Addr n = "localhost:7002") /\
  (nodeForAddrIn (map_to_list (Nodes c)) "localhost:7002" = None <->
   forall nid n, Nodes c !! nid = Some n -> Addr n <> "localhost:7002") /\
  nodeForAddrIn (map_to_list (Nodes c)) "localhost:7002"
  = nodeForAddrIn (map_to_list (Nodes c)) "localhost:7002".
Proof.
  intros c.
  apply (nodeForAddr_on_validated sampleSplitHostPort sampleAtoi
           (map_to_list (Nodes c)) c "localhost:7002").
  - reflexivity.
  - vm_compute. reflexivity.
Defined.

Example nodeForAddr_sample :
  nodeForAddrIn (map_to_list (Nodes sampleConfig)) "localhost:7002" = Some nodeB /\
  nodeForAddrIn (map_to_list (Nodes sampleConfig)) "localhost:7009" = None.
Proof. vm_compute. split; reflexivity. Qed.

Lemma config_change_commit_or_revert_witness :
  let new := configOf [nodeANonvoter; nodeB; nodeC] 6 2 in
  let r1 := raftChangeConfig new sampleRaft in
  configs (revertConfig r1) = mkConfigs sampleConfig sampleConfig /\
  configs (setCommitIndex 6 r1) = mkConfigs new new /\
  state (setCommitIndex 6 r1) = Follower.
Proof.
  intros new r1.
  destruct (config_change_commit_or_revert new sampleRaft 6)
    as (_ & _ & Hrev & _ & Hcommit & _ & Hdown & _).
  - vm_compute. discriminate.
  - split; [exact Hrev|]. split.
    + apply Hcommit. vm_compute. discriminate.
    + apply Hdown. split; [vm_compute; discriminate|]. split; vm_compute; reflexivity.
Defined.

Example bootstrap_sample :
  let r0 := withConfigs (mkConfigs (mkConfig ∅ 0 0) (mkConfig ∅ 0 0)) sampleRaft in
  bootstrap sampleSplitHostPort sampleAtoi None (Nodes sampleConfig) r0
  = (raftChangeConfig sampleConfig r0, None) /\
  bootstrap sampleSplitHostPort sampleAtoi None (Nodes (configOf [nodeA] 1 1)) r0
  = (r0, Some (errorf "raft.bootstrap: invalid config: " (errorsNew "zero voters"))).
Proof. vm_compute. split; reflexivity. Qed.
End ConfOpsWitness.

(** ** The leader in its later form *)

Section LdrShipCommit.
Local Open Scope Z_scope.
Import Conf LdrShip.

Lemma setCommitIndex_lastApplied n r :
  lastApplied (setCommitIndex n r) = lastApplied r.
Proof.
  unfold setCommitIndex.
  destruct (negb _ && _); [|reflexivity].
  destruct (bool_decide _ && _); reflexivity.
Qed.

(** X20. [onMajorityCommit] on a leader whose followers are all known,
    whose queue and log can be read up to the majority index [N], given
    fuel beyond the entries to apply: it returns; it has moved
    [commitIndex] to [N] exactly when [N > commitIndex] and
    [N >= startIndex], and has otherwise changed nothing; the log and
    [startIndex] are never touched. *)
Theorem ldrShip_commit_gate fuel l n :
  majorityMatchIndex l = Some n ->
  Forall (fun ne => is_Some (nentry ne)) (newEntries l) ->
  (forall i, lastApplied (raft l) < i <= n ->
             is_Some (Storage.getEntry (storage (raft l)) i)) ->
  0 <= lastApplied (raft l) < U64.maxUint64 -> n < U64.maxUint64 ->
  (Z.to_nat (n - lastApplied (raft l)) + 1 < fuel)%nat ->
  exists l',
    onMajorityCommit fuel l = Done l' /\
    (n > commitIndex (raft l) /\ n >= startIndex l -> commitIndex (raft l') = n) /\
    (~ (n > commitIndex (raft l) /\ n >= startIndex l) -> l' = l) /\
    sameLog l l' /\ startIndex l' = startIndex l.
Proof.
  intros Hn Hq Hlog Hla Hmax Hfuel.
  assert (Hrun : exists l', onMajorityCommit fuel l = Done l' /\ startIndex l' = startIndex l).
  { destruct fuel as [|fuel]; [lia|]. cbn [onMajorityCommit]. rewrite Hn.
    destruct ((n >? commitIndex (raft l)) && (n >=? startIndex l)) eqn:Hgate;
      [|eauto].
    set (l0 := withRaft (setCommitIndex n (raft l)) l).
    destruct (setCommitIndex_log n (raft l)) as (S1 & S2 & S3 & S4).
    destruct (setCommitIndex_view n (raft l)) as [V1 V2].
    pose proof (setCommitIndex_lastApplied n (raft l)) as S5.
    assert (Hv0 : commitView l l0).
    { unfold commitView, l0. simpl. rewrite V1, V2, S2. repeat split. }
    destruct (applyCommitted_returns_ldr fuel l0) as [l1 Hl1].
    - split; [exact Hq|]. intros i Hi. cbn in Hi |- *.
      rewrite S1. apply Hlog. rewrite S4, S5 in Hi. exact Hi.
    - cbn. rewrite S5. exact Hla.
    - cbn. rewrite S4. exact Hmax.
    - cbn. rewrite S4, S5. lia.
    - rewrite Hl1.
      destruct (applyCommitted_view _ _ _ Hl1) as (Hv1 & Hc1 & _).
      destruct (broadcast_view false l1) as (Hv2 & Hc2 & _).
      pose proof (commitView_trans _ _ _ (commitView_trans _ _ _ Hv0 Hv1) Hv2) as Hv.
      destruct (voter (broadcast false l1)).
      + destruct fuel as [|fuel]; [lia|]. cbn [onMajorityCommit].
        rewrite (majorityMatchIndex_commitView _ _ Hv), Hn.
        rewrite Hc2, Hc1. cbn [raft l0 withRaft]. rewrite S4.
        replace (n >? n) with false by (symmetry; rewrite Z.gtb_ltb; apply Z.ltb_irrefl).
        cbn [andb]. eexists. split; [reflexivity|].
        destruct Hv as (_ & _ & _ & _ & Hs). exact Hs.
      + eexists. split; [reflexivity|].
        destruct Hv as (_ & _ & _ & _ & Hs). exact Hs. }
  destruct Hrun as (l' & Hrun & Hstart). exists l'. split; [exact Hrun|].
  destruct (onMajorityCommit_gate fuel l l' n Hn Hrun) as [Hyes Hno].
  split; [exact Hyes|]. split; [exact Hno|].
  split; [apply (onMajorityCommit_log fuel l l' Hrun) | exact Hstart].
Qed.

(** X21. [checkQuorum(wait)] on a leader whose voters are all followed:
    it counts the leader and the voters whose [noContact] is zero; with a
    quorum of them it stops the timer and leaves the role alone; short of
    a quorum it steps down at once for [wait = 0], which is what
    [onTimeout] asks for, and otherwise only makes sure the timer runs.
    The log and [commitIndex] are never touched. *)
Theorem checkQuorum_steps_down_only_without_wait wait l :
  let nodes : list (ID * Node) := map_to_list (Nodes (Latest (configs (raft l)))) in
  (forall p, p ∈ nodes -> Voter p.2 = true -> p.1 <> id (raft l) ->
             is_Some (flrs l !! p.1)) ->
  let reachable :=
    Z.of_nat (length (filter
      (fun p : ID * Node =>
         Voter p.2 = true /\
         (p.1 = id (raft l) \/ (noContact <$> flrs l !! p.1) = Some 0)) nodes)) in
  exists l',
    checkQuorum wait l = Some l' /\
    (wait = 0 -> onTimeout l = Some l') /\
    (quorum (Latest (configs (raft l))) <= reachable ->
     timerActive (raft l') = false /\
     state (raft l') = state (raft l) /\ leader (raft l') = leader (raft l)) /\
    (reachable < quorum (Latest (configs (raft l))) -> wait = 0 ->
     state (raft l') = Follower /\ leader (raft l') = "" /\
     timerActive (raft l') = timerActive (raft l)) /\
    (reachable < quorum (Latest (configs (raft l))) -> wait <> 0 ->
     timerActive (raft l') = true /\
     state (raft l') = state (raft l) /\ leader (raft l') = leader (raft l)) /\
    sameLog l l' /\ commitIndex (raft l') = commitIndex (raft l) /\
    flrs l' = flrs l.
Proof.
  intros nodes Hf reachable.
  assert (Hq : 0 + Z.of_nat (length (filter (fun p : ID * Node => Voter p.2 = true) nodes))
               = numVoters (Latest (configs (raft l)))).
  { unfold numVoters. rewrite countVoters_filter. reflexivity. }
  unfold onTimeout, checkQuorum. fold nodes.
  rewrite (countQuorum_spec l nodes 0 0 Hf). cbn [mbind option_bind].
  rewrite Hq. fold reachable. unfold quorum. rewrite Z.geb_leb.
  replace (0 + reachable) with reachable by lia.
  destruct (Z.leb_spec (numVoters (Latest (configs (raft l))) / 2 + 1) reachable).
  - eexists. split; [reflexivity|]. split; [intros _; reflexivity|].
    destruct (timerActive (raft l)) eqn:Ht; cbn; rewrite ?Ht;
      repeat split; intros; try lia; reflexivity.
  - destruct (Z.eqb_spec wait 0) as [->|Hw].
    + eexists. split; [reflexivity|]. split; [reflexivity|].
      cbn. repeat split; intros; try lia; try reflexivity; contradiction.
    + destruct (timerActive (raft l)) eqn:Ht; cbn [negb];
        (eexists; split; [reflexivity|]; split; [intros; contradiction|]);
        cbn; rewrite ?Ht;
        repeat split; intros; try lia; try reflexivity; contradiction.
Qed.
End LdrShipCommit.

Section LdrShipCommitWitness.
Local Open Scope Z_scope.
Import Conf LdrShip Samples.

Lemma sampleConfig_nodes k n :
  Nodes sampleConfig !! k = Some n ->
  (k, n) = ("a", nodeA) \/ (k, n) = ("b", nodeB) \/
  (k, n) = ("c", nodeC) \/ (k, n) = ("d", nodeD).
Proof.
  intros Hp. unfold sampleConfig, configOf in Hp. simpl in Hp.
  repeat (apply lookup_insert_Some in Hp as [[<- <-]|[_ Hp]]; [tauto|]).
  rewrite lookup_empty in Hp. discriminate.
Defined.

Lemma ldrShip_commit_gate_witness :
  exists l',
    onMajorityCommit 6 (sampleLdrShip 9) = Done l' /\
    commitIndex (raft l') = 5.
Proof.
  destruct (ldrShip_commit_gate 6 (sampleLdrShip 9) 5) as (l' & Hrun & Hyes & _).
  - vm_compute. reflexivity.
  - constructor.
  - intros i Hi. simpl in Hi.
    assert (Hcases : i = 4 \/ i = 5) by lia.
    destruct Hcases as [-> | ->]; eexists; reflexivity.
  - simpl. u64_lia.
  - u64_lia.
  - simpl. lia.
  - exists l'. split; [exact Hrun|]. apply Hyes. simpl. lia.
Defined.

Lemma checkQuorum_steps_down_only_without_wait_witness :
  exists l',
    checkQuorum 0 (sampleLdrShip 9) = Some l' /\
    state (raft l') = state (raft (sampleLdrShip 9)).
Proof.
  destruct (checkQuorum_steps_down_only_without_wait 0 (sampleLdrShip 9))
    as (l' & Hrun & _ & Hok & _).
  - intros [k n] Hp Hv Hne. apply elem_of_map_to_list in Hp.
    destruct (sampleConfig_nodes k n Hp) as [E|[E|[E|E]]];
      injection E as -> ->.
    + exfalso. apply Hne. reflexivity.
    + vm_compute. eauto.
    + vm_compute. eauto.
    + discriminate Hv.
  - exists l'. split; [exact Hrun|]. apply Hok. vm_compute. discriminate.
Defined.
End LdrShipCommitWitness.

Section StoreEntryRefusals.
Local Open Scope Z_scope.
Import Conf LdrShip.

Variable decodeNodes : list Byte.byte -> option (gmap string Node).

(** X22. The two refusals of [storeEntry] for an entry that belongs in
    the log. During a leadership transfer the entry is taken off the
    queue again and its task answered
    [InProgressError("transferLeadership")]; nothing else changes. When
    the durable append fails the leader records the error, becomes a
    follower without a leader and leaves the entry queued, unanswered. In
    both cases the error is returned, the log is as before and no
    follower is notified. *)
Theorem storeEntry_refusals fuel appendResult ne l e0 :
  nentry ne = Some e0 ->
  typ e0 <> entryRead -> typ e0 <> entryBarrier ->
  let e := assigned l e0 in
  let ne' := mkNewEntry (Some e) (task ne) in
  (transferInProgress l = true ->
   exists l',
     storeEntry decodeNodes fuel appendResult ne l
     = Done (l', Some e, Some (InProgressError "transferLeadership")) /\
     l' = withRaft (reply ne' (Some (InProgressError "transferLeadership")) (raft l)) l /\
     newEntries l' = newEntries l /\ sameLog l l' /\ flrs l' = flrs l /\
     state (raft l') = state (raft l)) /\
  (transferInProgress l = false ->
   forall err, appendResult = Some err ->
   exists l',
     storeEntry decodeNodes fuel appendResult ne l = Done (l', Some e, Some err) /\
     newEntries l' = newEntries l ++ [ne'] /\
     state (raft l') = Follower /\ leader (raft l') = "" /\
     appendErr (raft l') = Some err /\
     replies (raft l') = replies (raft l) /\
     sameLog l l' /\ flrs l' = flrs l /\
     commitIndex (raft l') = commitIndex (raft l)).
Proof.
  intros He Hread Hbarrier e ne'.
  assert (Hlog : bool_decide (typ e0 = entryRead) || bool_decide (typ e0 = entryBarrier)
                 = false).
  { apply orb_false_iff. split; apply bool_decide_eq_false; assumption. }
  split.
  - intros Htransfer. unfold storeEntry. rewrite He. cbv zeta.
    change (typ (assigned l e0)) with (typ e0). rewrite Hlog.
    cbn [transferInProgress withNewEntries]. rewrite Htransfer.
    eexists. split; [reflexivity|].
    cbn [newEntries withNewEntries raft withRaft flrs].
    rewrite removelast_last.
    split; [destruct l; reflexivity|]. repeat split.
  - intros Htransfer err ->. unfold storeEntry. rewrite He. cbv zeta.
    change (typ (assigned l e0)) with (typ e0). rewrite Hlog.
    cbn [transferInProgress withNewEntries]. rewrite Htransfer.
    eexists. split; [reflexivity|]. cbn. repeat split.
Qed.
End StoreEntryRefusals.

Section StoreEntryRefusalsWitness.
Local Open Scope Z_scope.
Import Conf LdrShip Samples.

Lemma storeEntry_refusals_witness :
  let l := sampleLdrShip 9 in
  let ne := mkNewEntry (Some (mkEntry 0 0 entryUpdate [])) 7 in
  exists l',
    storeEntry sampleDecodeNodes 6 (Some (errorsNew "disk full")) ne l
    = Done (l', Some (assigned l (mkEntry 0 0 entryUpdate [])),
            Some (errorsNew "disk full")) /\
    state (raft l') = Follower /\ appendErr (raft l') = Some (errorsNew "disk full").
Proof.
  intros l ne.
  destruct (storeEntry_refusals sampleDecodeNodes 6 (Some (errorsNew "disk full"))
              ne l (mkEntry 0 0 entryUpdate []))
    as [_ Hfail]; [reflexivity | discriminate | discriminate |].
  destruct (Hfail eq_refl (errorsNew "disk full") eq_refl)
    as (l' & Hrun & _ & Hs & _ & He & _).
  exists l'. auto.
Defined.
End StoreEntryRefusalsWitness.

Section LdrInitFacts.
Local Open Scope Z_scope.
Import Conf LdrShip LdrInit.

Variable decodeNodes : list Byte.byte -> option (gmap string Node).

Lemma addFlrs_spec nodes :
  forall l,
    (forall p, p ∈ nodes -> nodeID p.2 = p.1) ->
    exists l',
      addFlrs nodes l = Some l' /\
      raft l' = raft l /\ voter l' = voter l /\ startIndex l' = startIndex l /\
      newEntries l' = newEntries l /\ transferInProgress l' = transferInProgress l /\
      forall k,
        flrs l' !! k
        = if decide (k <> id (raft l) /\ k ∈ nodes.*1)
          then Some (mkFlr 0 0 0 None) else flrs l !! k.
Proof.
  induction nodes as [|[nid node] rest IH]; intros l Hkeys.
  - exists l. repeat split. intros k.
    rewrite decide_False; [reflexivity|]. intros [_ Hk]. inversion Hk.
  - assert (Hrest : forall p, p ∈ rest -> nodeID p.2 = p.1)
      by (intros p Hp; apply Hkeys; now right).
    pose proof (Hkeys (nid, node) ltac:(left)) as Hid. cbn in Hid.
    cbn [addFlrs]. destruct (decide (nid ≠ id (raft l))) as [Hpeer|Hself].
    + unfold addFlr. rewrite Hid.
      destruct (decide (nid = id (raft l))) as [Hbad|_]; [contradiction|].
      cbn [mbind option_bind].
      destruct (IH (withFlrs (<[nid := mkFlr 0 0 0 None]> (flrs l)) l) Hrest)
        as (l' & Hrun & H1 & H2 & H3 & H4 & H5 & Hflrs).
      exists l'. split; [exact Hrun|]. repeat split; try assumption.
      intros k. rewrite Hflrs. cbn [raft withFlrs flrs fmap list_fmap fst].
      destruct (decide (k = nid)) as [->|Hk].
      * rewrite lookup_insert_eq.
        rewrite (decide_True (P := nid <> id (raft l) /\ nid ∈ nid :: rest.*1))
          by (split; [exact Hpeer | left]).
        destruct (decide _); reflexivity.
      * rewrite lookup_insert_ne by (intros E; apply Hk; symmetry; exact E).
        destruct (decide (k <> id (raft l) /\ k ∈ rest.*1)) as [[Ha Hb]|Hn].
        -- rewrite decide_True; [reflexivity|]. split; [exact Ha | right; exact Hb].
        -- rewrite decide_False; [reflexivity|]. intros [Ha Hb].
           apply Hn. split; [exact Ha|]. apply elem_of_cons in Hb as [Hb|Hb];
             [contradiction | exact Hb].
    + apply dec_stable in Hself.
      destruct (IH l Hrest) as (l' & Hrun & H1 & H2 & H3 & H4 & H5 & Hflrs).
      exists l'. split; [exact Hrun|]. repeat split; try assumption.
      intros k. rewrite Hflrs. cbn [fmap list_fmap fst].
      destruct (decide (k <> id (raft l) /\ k ∈ rest.*1)) as [[Ha Hb]|Hn].
      * rewrite decide_True; [reflexivity|]. split; [exact Ha | right; exact Hb].
      * rewrite decide_False; [reflexivity|]. intros [Ha Hb].
        apply Hn. split; [exact Ha|]. apply elem_of_cons in Hb as [Hb|Hb];
          [congruence | exact Hb].
Qed.

Lemma majorityMatchIndexIn_is_Some nodes l :
  votersFollowed l nodes -> nodes <> [] -> is_Some (majorityMatchIndexIn nodes l).
Proof.
  intros Hf Hne. unfold majorityMatchIndexIn.
  rewrite (collectMatched_spec l nodes Hf). cbn [mbind option_bind].
  apply lookup_lt_is_Some_2.
  rewrite length_app, sortDecr_length, length_replicate.
  assert (Hle : (length (voterIndices l nodes) <= length nodes)%nat).
  { unfold voterIndices. clear. induction nodes as [|p rest IH]; [reflexivity|].
    cbn [omap list_omap]. destruct (voterIndex l p); cbn [length]; lia. }
  assert (Hpos : (0 < length nodes)%nat) by (destruct nodes; [contradiction | cbn; lia]).
  set (i := length (voterIndices l nodes)) in *.
  assert (Hhalf : Z.of_nat i / 2 <= Z.of_nat i) by (Z.div_mod_to_equations; lia).
  assert (Hhalf' : 0 < Z.of_nat i -> Z.of_nat i / 2 < Z.of_nat i)
    by (intros; Z.div_mod_to_equations; lia).
  assert (Hnn : 0 <= Z.of_nat i / 2) by (Z.div_mod_to_equations; lia).
  destruct (Nat.eq_dec i 0%nat) as [Hz|Hz]; lia.
Qed.

(** X23. [init] of a leader that is its own [leader] and is a node of
    the latest configuration, every node of which sits under its own ID:
    no assertion fails; [startIndex] is [lastLogIndex + 1]; every other
    node of the configuration gets a replication that starts at
    [matchIndex] zero, so that [majorityMatchIndex] finds every voter it
    looks up; and what is left of [init] is to store the no-op of the
    term. A node filed under a key that is not the leader's but carrying
    the leader's ID fails the assertion of [addFlr]. *)
Theorem init_follows_every_peer fuel appendResult nodes l :
  leader (raft l) = id (raft l) ->
  nodes ≡ₚ map_to_list (Nodes (Latest (configs (raft l)))) ->
  is_Some (Nodes (Latest (configs (raft l))) !! id (raft l)) ->
  ((forall nid n, Nodes (Latest (configs (raft l))) !! nid = Some n -> nodeID n = nid) ->
   exists l1,
     raft l1 = raft l /\ voter l1 = true /\
     startIndex l1 = U64.add (lastLogIndex (raft l)) 1 /\
     newEntries l1 = newEntries l /\
     (forall k, k <> id (raft l) ->
                is_Some (Nodes (Latest (configs (raft l))) !! k) ->
                flrs l1 !! k = Some (mkFlr 0 0 0 None)) /\
     votersFollowed l1 nodes /\
     is_Some (majorityMatchIndex l1) /\
     init decodeNodes fuel appendResult nodes l
     = storeEntry decodeNodes fuel appendResult
         (mkNewEntry (Some (mkEntry 0 0 entryNop [])) 0) l1) /\
  ((exists nid n, Nodes (Latest (configs (raft l))) !! nid = Some n /\
                  nid <> id (raft l) /\ nodeID n = id (raft l)) ->
   init decodeNodes fuel appendResult nodes l = Panic).
Proof.
  intros Hldr Hp Hself.
  set (l0 := mkLdrShip (raft (withVoter true l)) (voter (withVoter true l))
               (U64.add (lastLogIndex (raft (withVoter true l))) 1)
               (newEntries (withVoter true l)) (flrs (withVoter true l))
               (transferInProgress (withVoter true l))).
  assert (Hin : forall nid n, (nid, n) ∈ nodes
                  <-> Nodes (Latest (configs (raft l))) !! nid = Some n).
  { intros nid n. rewrite Hp. apply elem_of_map_to_list. }
  split.
  - intros Hkeys.
    destruct (addFlrs_spec nodes l0) as (l1 & Hrun & H1 & H2 & H3 & H4 & _ & Hflrs).
    { intros [nid n] Hpin. cbn. apply (Hkeys nid n), Hin, Hpin. }
    exists l1.
    assert (Hpeers : forall k, k <> id (raft l) ->
              is_Some (Nodes (Latest (configs (raft l))) !! k) ->
              flrs l1 !! k = Some (mkFlr 0 0 0 None)).
    { intros k Hk [n Hn]. rewrite Hflrs. rewrite decide_True; [reflexivity|].
      split; [exact Hk|]. apply list_elem_of_fmap. exists (k, n).
      split; [reflexivity | apply Hin, Hn]. }
    assert (Hfollowed : votersFollowed l1 nodes).
    { intros [nid n] Hpin _ Hne. cbn [snd] in *. rewrite H1 in Hne. cbn in Hne.
      pose proof (proj1 (Hin nid n) Hpin) as Hn.
      rewrite (Hkeys nid n Hn) in *. rewrite (Hpeers nid Hne); eauto. }
    split; [exact H1|]. split; [exact H2|]. split; [exact H3|]. split; [exact H4|].
    split; [exact Hpeers|]. split; [exact Hfollowed|]. split.
    + unfold majorityMatchIndex.
      rewrite (majorityMatchIndexIn_Permutation l1 nodes).
      * apply majorityMatchIndexIn_is_Some; [exact Hfollowed|].
        destruct Hself as [n Hn]. apply Hin in Hn.
        intros Hnil. rewrite Hnil in Hn. inversion Hn.
      * rewrite H1. exact Hp.
      * exact Hfollowed.
    + unfold init. rewrite decide_True by exact Hldr. fold l0. rewrite Hrun. reflexivity.
  - intros (nid & n & Hn & Hkey & Hid).
    unfold init. rewrite decide_True by exact Hldr. fold l0.
    assert (Hnone : forall l', raft l' = raft l -> addFlrs nodes l' = None);
      [|rewrite (Hnone l0) by reflexivity; reflexivity].
    apply Hin in Hn. clear Hp Hin Hself l0. induction nodes as [|[k m] rest IH];
      [inversion Hn|].
    intros l' Hr. cbn [addFlrs]. rewrite Hr.
    apply elem_of_cons in Hn as [[= <- <-]|Hn].
    + rewrite decide_True by exact Hkey. unfold addFlr. rewrite Hr.
      rewrite decide_True by exact Hid. reflexivity.
    + destruct (decide (k ≠ id (raft l))); [|apply IH; assumption].
      unfold addFlr. rewrite Hr.
      destruct (decide (nodeID m = id (raft l))); [reflexivity|].
      cbn [mbind option_bind]. apply IH; [exact Hn | exact Hr].
Qed.
End LdrInitFacts.

Section LdrInitWitness.
Local Open Scope Z_scope.
Import Conf LdrShip LdrInit Samples.

Lemma init_follows_every_peer_witness :
  let l := sampleLdrShip 9 in
  let nodes := map_to_list (Nodes sampleConfig) in
  exists l1,
    init sampleDecodeNodes 6 None nodes l
    = storeEntry sampleDecodeNodes 6 None
        (mkNewEntry (Some (mkEntry 0 0 entryNop [])) 0) l1 /\
    startIndex l1 = 6 /\ flrs l1 !! "b" = Some (mkFlr 0 0 0 None) /\
    is_Some (majorityMatchIndex l1).
Proof.
  intros l nodes.
  destruct (init_follows_every_peer sampleDecodeNodes 6 None nodes l) as [Hinit _].
  - reflexivity.
  - reflexivity.
  - vm_compute. eauto.
  - destruct Hinit as (l1 & _ & _ & Hstart & _ & Hpeers & _ & Hmaj & Hrun).
    + intros nid n Hn.
      destruct (sampleConfig_nodes nid n Hn) as [E|[E|[E|E]]];
        injection E as -> ->; reflexivity.
    + exists l1. split; [exact Hrun|]. split; [exact Hstart|].
      split; [|exact Hmaj]. apply Hpeers; [discriminate | vm_compute; eauto].
Defined.

Example init_sample :
  observeStore (init sampleDecodeNodes 6 None (map_to_list (Nodes sampleConfig))
                  (sampleLdrShip 9))
  = Some ([1; 2; 3; 4; 5; 6], 6, [6], [], None).
Proof. vm_compute. reflexivity. Qed.
End LdrInitWitness.

Section NotifyFacts.
Local Open Scope Z_scope.
Import Conf LdrShip LdrNotify.

Lemma broadcast_latest c l : latestUpdatePending (broadcast c l).
Proof.
  intros k f Hf. unfold broadcast in Hf. cbn [flrs withFlrs] in Hf.
  rewrite lookup_fmap in Hf. destruct (flrs l !! k) as [f0|]; [|discriminate].
  injection Hf as <-. eexists. split; [reflexivity|]. split; reflexivity.
Qed.

Lemma onMajorityCommit_latest fuel :
  forall l l',
    latestUpdatePending l -> onMajorityCommit fuel l = Done l' ->
    latestUpdatePending l'.
Proof.
  induction fuel as [|fuel IH]; intros l l' Hl Hrun; [discriminate|].
  cbn [onMajorityCommit] in Hrun.
  destruct (majorityMatchIndex l) as [n|]; [|discriminate].
  destruct ((n >? commitIndex (raft l)) && (n >=? startIndex l)).
  - destruct (applyCommitted fuel _) as [l1| |]; try discriminate.
    destruct (voter (broadcast false l1)).
    + apply (IH _ _ (broadcast_latest false l1) Hrun).
    + injection Hrun as <-. apply broadcast_latest.
  - injection Hrun as <-. exact Hl.
Qed.

(** X24. When [notifyFlr] returns, every follower has pending in its
    one-slot channel an update with the leader's [lastLogIndex] and
    [commitIndex] as they are at that moment, also when the commit index
    moved during the call; the set of followers and their [matchIndex]
    are as before, and so is the log. *)
Theorem notifyFlr_leaves_latest_update fuel includeConfig l l' :
  notifyFlr fuel includeConfig l = Done l' ->
  latestUpdatePending l' /\
  (forall k, matchIndex <$> flrs l' !! k = matchIndex <$> flrs l !! k) /\
  sameLog l l'.
Proof.
  intros Hrun. split; [|split].
  - unfold notifyFlr in Hrun. destruct (voter (broadcast includeConfig l)).
    + apply (onMajorityCommit_latest _ _ _ (broadcast_latest includeConfig l) Hrun).
    + injection Hrun as <-. apply broadcast_latest.
  - unfold notifyFlr in Hrun.
    destruct (broadcast_view includeConfig l) as ((_ & _ & _ & Hb & _) & _).
    destruct (voter (broadcast includeConfig l)).
    + destruct fuel as [|fuel]; [discriminate|].
      cbn [onMajorityCommit] in Hrun.
      destruct (majorityMatchIndex (broadcast includeConfig l)) as [n|] eqn:Hn;
        [|discriminate].
      intros k. rewrite <- Hb.
      destruct ((n >? _) && (n >=? _)) eqn:Hgate.
      * set (l0 := withRaft (setCommitIndex n (raft (broadcast includeConfig l)))
                     (broadcast includeConfig l)) in *.
        destruct (applyCommitted fuel l0) as [l1| |] eqn:Ha; try discriminate.
        destruct (applyCommitted_view _ _ _ Ha) as ((_ & _ & _ & H1 & _) & _).
        destruct (broadcast_view false l1) as ((_ & _ & _ & H2 & _) & _).
        assert (Hl2 : matchIndex <$> flrs (broadcast false l1) !! k
                      = matchIndex <$> flrs (broadcast includeConfig l) !! k).
        { rewrite H2, H1. reflexivity. }
        rewrite <- Hl2. clear - Hrun.
        destruct (voter (broadcast false l1)); [|injection Hrun as <-; reflexivity].
        revert Hrun. generalize (broadcast false l1). clear.
        induction fuel as [|fuel IH]; intros l Hrun; [discriminate|].
        cbn [onMajorityCommit] in Hrun.
        destruct (majorityMatchIndex l) as [n|]; [|discriminate].
        destruct ((n >? _) && (n >=? _)); [|injection Hrun as <-; reflexivity].
        set (l0 := withRaft (setCommitIndex n (raft l)) l) in *.
        destruct (applyCommitted fuel l0) as [l1| |] eqn:Ha; try discriminate.
        destruct (applyCommitted_view _ _ _ Ha) as ((_ & _ & _ & H1 & _) & _).
        destruct (broadcast_view false l1) as ((_ & _ & _ & H2 & _) & _).
        destruct (voter (broadcast false l1)).
        -- rewrite (IH _ Hrun), H2, H1. reflexivity.
        -- injection Hrun as <-. rewrite H2, H1. reflexivity.
      * injection Hrun as <-. reflexivity.
    + injection Hrun as <-. intros k. apply Hb.
  - apply (notifyFlr_log _ _ _ _ Hrun).
Qed.
End NotifyFacts.

Section NotifyWitness.
Local Open Scope Z_scope.
Import Conf LdrShip LdrNotify Samples.

Lemma notifyFlr_leaves_latest_update_witness :
  exists l',
    notifyFlr 6 true (sampleLdrShip 9) = Done l' /\
    commitIndex (raft l') = 5 /\
    latestUpdatePending l'.
Proof.
  eexists. split; [vm_compute; reflexivity|]. split; [reflexivity|].
  eapply (notifyFlr_leaves_latest_update 6 true (sampleLdrShip 9)).
  vm_compute. reflexivity.
Defined.
End NotifyWitness.

(** ** Connection pools of a node, and randomised timeouts *)

Section ConnPoolFacts.
Local Open Scope Z_scope.
Import ConnPools.

(** X25. [getConnPool(addr)] answers the pool kept under [addr], making
    it first when there is none: afterwards the pool is kept under
    [addr], the pools of the other addresses are untouched, a pool that
    was there is handed out as it is, and a second call answers the same
    pool without changing anything. A pool that is made has the address,
    a timeout of ten seconds and room for three connections. *)
Theorem getConnPool_finds_or_creates addr connPools :
  let '(pool, connPools') := getConnPool addr connPools in
  connPools' !! addr = Some pool /\
  (forall other, other <> addr -> connPools' !! other = connPools !! other) /\
  (forall known, connPools !! addr = Some known ->
                 pool = known /\ connPools' = connPools) /\
  (connPools !! addr = None ->
   pool = mkConnPool addr (10 * second) 3) /\
  getConnPool addr connPools' = (pool, connPools').
Proof.
  unfold getConnPool. destruct (connPools !! addr) as [known|] eqn:Hk.
  - rewrite Hk. repeat split; intros; try congruence; try discriminate.
  - rewrite lookup_insert_eq.
    repeat split; intros; try congruence; try discriminate.
    apply lookup_insert_ne. congruence.
Qed.

Example getConnPool_sample :
  (getConnPool "b" ∅).1 = mkConnPool "b" 10000000000 3.
Proof. reflexivity. Qed.
End ConnPoolFacts.

Section RandTimeFacts.
Local Open Scope Z_scope.
Import RandTime.

(** X26. The randomised timeout [min + rand % min] of [randTime.duration]
    and [afterRandomTimeout], for what [rand.Int63] may answer: with
    [0 < min <= 2^62] it lies in [min, 2·min); a zero [min] panics with a
    division by zero. *)
Theorem duration_between_min_and_twice_min rnd min :
  int63 rnd ->
  (0 < min <= 2 ^ 62 ->
   exists d, duration rnd min = Some d /\ min <= d < 2 * min) /\
  (min = 0 -> duration rnd min = None).
Proof.
  intros [Hlo Hhi]. unfold duration. split.
  - intros [Hpos Hmax]. destruct (Z.eqb_spec min 0); [lia|].
    eexists. split; [reflexivity|].
    pose proof (Z.rem_bound_pos rnd min Hlo Hpos) as Hrem.
    assert (H62 : 2 ^ 62 * 2 = 2 ^ 63) by reflexivity.
    rewrite wrapInt64_small by lia. lia.
  - intros ->. reflexivity.
Qed.

Lemma duration_between_min_and_twice_min_witness :
  (0 < 100 <= 2 ^ 62 ->
   exists d, duration 1234567 100 = Some d /\ 100 <= d < 2 * 100) /\
  (100 = 0 -> duration 1234567 100 = None).
Proof.
  apply (duration_between_min_and_twice_min 1234567 100).
  unfold int63. lia.
Defined.
End RandTimeFacts.

(** ** The leader of leader.go: storing an entry *)

Section StoreNewEntry.
Local Open Scope Z_scope.
Import Leader.

Variable fsmApply : leaderState -> leaderState.

(** X27. [storeNewEntry] of [leader.go] with replications running: the
    entry, whatever its type, is appended to the log with the index
    [lastLogIndex + 1] and the current term, and is read back under that
    index; [lastLogIndex] and [lastLogTerm] follow, the entry joins the
    queue, [commitIndex] stays. A no-op is not announced; for any other
    entry every replication is left with the update
    [(lastLogIndex, commitIndex)] in its channel. *)
Theorem storeNewEntry_appends_and_notifies fuel ne l :
  Storage.wf (storage l) -> Storage.last (storage l) = lastLogIndex l ->
  lastLogIndex l + 1 < U64.modulus ->
  repls l <> ∅ ->
  let e0 := default zeroEntry (nentry ne) in
  let e := mkEntry (lastLogIndex l + 1) (currentTerm l) (typ e0) (data e0) in
  exists l',
    storeNewEntry fsmApply fuel ne l = Some l' /\
    storage l' = Storage.append (storage l) e /\
    Storage.getEntry (storage l') (lastLogIndex l') = Some e /\
    lastLogIndex l' = lastLogIndex l + 1 /\ lastLogTerm l' = currentTerm l /\
    newEntries l' = newEntries l ++ [mkNewEntry (Some e) (task ne)] /\
    commitIndex l' = commitIndex l /\
    (typ e0 = entryNoop -> repls l' = repls l) /\
    (typ e0 <> entryNoop ->
     forall k r, repls l !! k = Some r ->
       repls l' !! k
       = Some (mkReplication (noContact r)
                 (Some (mkLeaderUpdate (lastLogIndex l + 1) (commitIndex l))))).
Proof.
  intros Hwf Hlast Hroom Hrepls e0 e.
  pose proof Hwf as ((Hz & Hle & Hfr & Hlr) & _).
  assert (Hidx : U64.add (lastLogIndex l) 1 = lastLogIndex l + 1).
  { rewrite <- Hlast. rewrite <- Hlast in Hroom. u64_lia. }
  assert (Hread : Storage.getEntry (Storage.append (storage l) e) (lastLogIndex l + 1)
                  = Some e).
  { replace (lastLogIndex l + 1) with (index e) at 1 by reflexivity.
    apply (getEntry_append_new (storage l) e Hwf); unfold e; cbn [index];
      unfold U64.inRange in *; lia. }
  unfold storeNewEntry. fold e0. rewrite Hidx. fold e.
  destruct (decide (typ e = entryNoop)) as [Hnoop|Hcmd].
  - eexists. split; [reflexivity|]. cbn.
    repeat split; try assumption; try reflexivity.
    intros Hbad. contradiction.
  - unfold notifyReplicators.
    destruct (decide (size (repls (withAppended e (mkNewEntry (Some e) (task ne)) l)) = 0%nat))
      as [Hsize|_].
    { exfalso. apply Hrepls. apply map_size_empty_iff. exact Hsize. }
    eexists. split; [reflexivity|]. cbn.
    repeat split; try assumption; try reflexivity.
    + intros Hbad. contradiction.
    + intros _ k r Hk. rewrite lookup_fmap, Hk. reflexivity.
Qed.

Hypothesis fsmApply_frame : keepsCommitView fsmApply.
Hypothesis fsmApply_repls : forall l, repls (fsmApply l) = repls l.

(** X28. A leader of [leader.go] that is the only member of its cluster
    and runs no replication commits a command the moment it stores it:
    [storeNewEntry] returns with [commitIndex] at the index of the new
    entry, the entry handed to the state machine once. The hand-over
    [fsmApply] is taken to leave the indices, the members and the
    replications alone. *)
Theorem single_member_commits_at_once fuel ne l :
  (length (members l) <= 1)%nat -> repls l = ∅ ->
  neTyp ne <> entryNoop ->
  commitIndex l <= lastLogIndex l -> lastLogIndex l + 1 < U64.modulus ->
  0 <= lastLogIndex l -> startIndex l <= lastLogIndex l + 1 ->
  (2 <= fuel)%nat ->
  let e0 := default zeroEntry (nentry ne) in
  let e := mkEntry (lastLogIndex l + 1) (currentTerm l) (typ e0) (data e0) in
  let stored := withAppended e (mkNewEntry (Some e) (task ne)) l in
  storeNewEntry fsmApply fuel ne l
  = Some (fsmApply (withCommitIndex (lastLogIndex l + 1) stored)) /\
  commitIndex (fsmApply (withCommitIndex (lastLogIndex l + 1) stored))
  = lastLogIndex l + 1 /\
  lastLogIndex (fsmApply (withCommitIndex (lastLogIndex l + 1) stored))
  = lastLogIndex l + 1.
Proof.
  intros Hone Hrepls Htyp Hci Hroom Hnn Hstart Hfuel e0 e stored.
  assert (Hidx : U64.add (lastLogIndex l) 1 = lastLogIndex l + 1) by u64_lia.
  set (l1 := withCommitIndex (lastLogIndex l + 1) stored).
  destruct (fsmApply_frame l1) as (Fc & Fs & Fl & Fm & Fa).
  split; [|split; [rewrite Fc; reflexivity | rewrite Fl; reflexivity]].
  unfold storeNewEntry. fold e0. rewrite Hidx. fold e. fold stored.
  assert (Hcmd : typ e <> entryNoop).
  { unfold neTyp in Htyp. cbn [typ e]. unfold e0.
    destruct (nentry ne); exact Htyp. }
  destruct (decide (typ e = entryNoop)); [contradiction|].
  assert (Hmaj : forall x, members x = members l -> lastLogIndex x = lastLogIndex l + 1 ->
                           majorityMatchIndex x = Some (lastLogIndex l + 1)).
  { intros x Hm Hl. unfold majorityMatchIndex. rewrite Hm, Hl.
    rewrite Z.gtb_ltb. destruct (Z.ltb_spec 1 (Z.of_nat (length (members l)))); [lia|].
    reflexivity. }
  unfold notifyReplicators.
  assert (Hsize : size (repls stored) = 0%nat).
  { cbn. rewrite Hrepls. apply map_size_empty. }
  rewrite decide_True by exact Hsize.
  destruct fuel as [|[|fuel]]; [lia|lia|].
  cbn [commitAndApplyOnMajority].
  rewrite (Hmaj stored) by reflexivity. cbn [mbind option_bind].
  change (commitIndex stored) with (commitIndex l).
  change (startIndex stored) with (startIndex l).
  rewrite Z.gtb_ltb, Z.geb_leb.
  destruct (Z.ltb_spec (commitIndex l) (lastLogIndex l + 1)); [|lia].
  destruct (Z.leb_spec (startIndex l) (lastLogIndex l + 1)); [|lia].
  cbn [andb]. fold l1.
  rewrite decide_True by (rewrite fsmApply_repls; exact Hsize).
  rewrite (Hmaj (fsmApply l1)) by (rewrite ?Fm, ?Fl; reflexivity).
  cbn [mbind option_bind]. rewrite Fc. cbn [commitIndex l1 withCommitIndex].
  rewrite Z.gtb_ltb, Z.ltb_irrefl. reflexivity.
Qed.
End StoreNewEntry.

Section StoreNewEntryWitness.
Local Open Scope Z_scope.
Import Leader Samples.

Lemma sampleLeader_storage_wf : Storage.wf (storage (sampleLeader 0)).
Proof.
  split; [|split].
  - unfold Storage.inv. simpl. u64_lia.
  - reflexivity.
  - intros k e Hk. simpl in *.
    destruct k as [|[|[|[|[|k]]]]]; simpl in Hk; try (injection Hk as <-; reflexivity).
    rewrite lookup_nil in Hk. discriminate.
Defined.

Lemma storeNewEntry_appends_and_notifies_witness :
  let ne := mkNewEntry (Some (mkEntry 0 0 entryQuery [])) 7 in
  exists l',
    storeNewEntry sampleFsmApply 2 ne (sampleLeader 0) = Some l' /\
    Storage.getEntry (storage l') (lastLogIndex l') = Some (mkEntry 6 2 entryQuery []) /\
    lastLogIndex l' = 6.
Proof.
  intros ne.
  destruct (storeNewEntry_appends_and_notifies sampleFsmApply 2 ne (sampleLeader 0))
    as (l' & Hrun & _ & Hread & Hlast & _).
  - exact sampleLeader_storage_wf.
  - reflexivity.
  - simpl. u64_lia.
  - intros Hbad. apply (f_equal (fun m => m !! "b")) in Hbad. vm_compute in Hbad.
    discriminate Hbad.
  - exists l'. split; [exact Hrun|]. split; [exact Hread | exact Hlast].
Defined.

Lemma sampleFsmApply_repls l : repls (sampleFsmApply l) = repls l.
Proof. reflexivity. Defined.

Lemma single_member_commits_at_once_witness :
  let ne := mkNewEntry (Some (mkEntry 0 0 entryUpdate [])) 7 in
  exists l',
    storeNewEntry sampleFsmApply 2 ne singleLeader = Some l' /\
    commitIndex l' = 6 /\ lastLogIndex l' = 6.
Proof.
  intros ne.
  destruct (single_member_commits_at_once sampleFsmApply sampleFsmApply_frame
              sampleFsmApply_repls 2 ne singleLeader)
    as (Hrun & Hc & Hl).
  - simpl. lia.
  - reflexivity.
  - discriminate.
  - simpl. lia.
  - simpl. u64_lia.
  - simpl. lia.
  - simpl. lia.
  - lia.
  - eexists. split; [exact Hrun|]. split; [exact Hc | exact Hl].
Defined.
End StoreNewEntryWitness.
